(** * Duke dining scraper: navigation-and-extraction pipeline

    A shallow embedding of [src/data/duke_scraper_FULL_VERSION.js] and the
    theorems that settle its specification.

    - JavaScript strings are sequences of UTF-16 code units ([list N]).
    - Regular expressions are an abstract syntax interpreted by a
      backtracking matcher that follows the ECMAScript pattern semantics
      (leftmost match, ordered alternation, greedy and lazy quantifiers,
      lookahead, one capture group).
    - The live document is an interface ([Browser]) whose reads are pure
      observations of the current page and whose actions (click, settle
      delay, key event) move the page on; a click may throw.
    - The script's globals ([allData], [totalItemsScraped]), the console
      and the downloaded files form the [World] that a small
      state-and-exception monad threads through the [async] functions. *)

From Stdlib Require Import Ascii String.
From Stdlib Require Import List NArith Bool Arith Lia.
Import ListNotations.

Set Implicit Arguments.

(* ================================================================= *)
(** ** JavaScript strings *)

Module Js.

(** A UTF-16 code unit. *)
Definition char := N.
Definition str := list char.

(** An ASCII literal of the source as a sequence of code units. *)
Definition lit (s : string) : str :=
  List.map N_of_ascii (list_ascii_of_string s).

Arguments lit s%_string.

Definition char_eqb (a b : char) : bool := N.eqb a b.

Fixpoint str_eqb (a b : str) : bool :=
  match a, b with
  | [], [] => true
  | x :: a', y :: b' => char_eqb x y && str_eqb a' b'
  | _, _ => false
  end.

Local Open Scope N_scope.

Definition in_range (lo hi c : char) : bool := (N.leb lo c) && (N.leb c hi).

(** [\d] *)
Definition is_digit (c : char) : bool := in_range 48 57 c.

(** [\s], and the characters [String.prototype.trim] strips: the
    ECMAScript WhiteSpace and LineTerminator code points. *)
Definition is_space (c : char) : bool :=
  in_range 9 13 c || N.eqb c 32 || N.eqb c 160 || N.eqb c 5760
  || in_range 8192 8202 c || N.eqb c 8232 || N.eqb c 8233
  || N.eqb c 8239 || N.eqb c 8287 || N.eqb c 12288 || N.eqb c 65279.

(** [\w] *)
Definition is_word (c : char) : bool :=
  in_range 97 122 c || in_range 65 90 c || is_digit c || N.eqb c 95.

(** Canonicalize of a pattern without the [u] flag: upper-casing that
    never sends a non-ASCII code unit to an ASCII one.  Every pattern
    character of the script is ASCII, so only the ASCII letters are
    folded here. *)
Definition canonicalize (c : char) : char :=
  if in_range 97 122 c then (c - 32)%N else c.

(** [String.prototype.toLowerCase], one code unit at a time.  ASCII and
    Latin-1 capitals are lowered; U+212A (Kelvin sign) and U+0130 are the
    two code points outside ASCII whose lower case contains an ASCII
    letter.  Other code units are kept: no ASCII keyword search can tell
    the difference. *)
Definition lower_char (c : char) : str :=
  if in_range 65 90 c then [(c + 32)%N]
  else if N.eqb c 8490 then [107%N]
  else if N.eqb c 304 then [105%N; 775%N]
  else if in_range 192 222 c && negb (N.eqb c 215) then [(c + 32)%N]
  else [c].

Local Close Scope N_scope.

Definition toLowerCase (s : str) : str := flat_map lower_char s.

Fixpoint drop_space (s : str) : str :=
  match s with
  | c :: s' => if is_space c then drop_space s' else s
  | [] => []
  end.

(** [String.prototype.trim] *)
Definition trim (s : str) : str := rev (drop_space (rev (drop_space s))).

Fixpoint is_prefix (w s : str) : bool :=
  match w, s with
  | [], _ => true
  | a :: w', b :: s' => char_eqb a b && is_prefix w' s'
  | _ :: _, [] => false
  end.

(** [String.prototype.includes] *)
Fixpoint includes (s w : str) : bool :=
  is_prefix w s || match s with [] => false | _ :: s' => includes s' w end.

(** [String.prototype.substring(0, n)] *)
Definition substring0 (n : nat) (s : str) : str := firstn n s.

(** [Array.prototype.join] on an array of strings. *)
Fixpoint join (sep : str) (l : list str) : str :=
  match l with
  | [] => []
  | [x] => x
  | x :: l' => x ++ sep ++ join sep l'
  end.

(** [Array.prototype.includes] on an array of strings. *)
Definition array_includes (l : list str) (x : str) : bool :=
  existsb (str_eqb x) l.

(** The values a property of the script's objects can hold. *)
Inductive jsval : Type :=
| JUndefined
| JStr (s : str).

(** Truthiness of a string: only the empty string is falsy. *)
Definition truthy (s : str) : bool :=
  match s with [] => false | _ :: _ => true end.

(** A plain object: own properties in insertion order. *)
Definition object := list (str * jsval).

(** [o[k]]: [None] when [k] is not a property of [o]. *)
Fixpoint get (o : object) (k : str) : option jsval :=
  match o with
  | [] => None
  | (k', v) :: o' => if str_eqb k k' then Some v else get o' k
  end.

(** Defining a property: an existing key keeps its position. *)
Fixpoint set (o : object) (k : str) (v : jsval) : object :=
  match o with
  | [] => [(k, v)]
  | (k', v') :: o' =>
      if str_eqb k k' then (k', v) :: o' else (k', v') :: set o' k v
  end.

(** Properties defined left to right onto [o]: an object literal when
    [o] is empty, a spread [{ ...o, ...props }] otherwise. *)
Definition assign (o : object) (props : list (str * jsval)) : object :=
  fold_left (fun acc kv => set acc (fst kv) (snd kv)) props o.

(** [Object.keys]; no field name of the script is an array index, so
    the order is the insertion order. *)
Definition keys (o : object) : list str := List.map fst o.

(** An ASCII character of the source as a code unit. *)
Definition ch (a : ascii) : char := N_of_ascii a.
Arguments ch a%_char.

End Js.

Import Js.

(* ================================================================= *)
(** ** Regular expressions *)

Module Regex.

Inductive citem : Type :=
| CChar (c : char)      (* a literal class member *)
| CDigit                (* \d *)
| CSpace.               (* \s *)

Inductive regex : Type :=
| Empty
| Char (c : char)
| Class (negated : bool) (items : list citem)   (* [...] and [^...] *)
| Seq (r1 r2 : regex)
| Alt (r1 r2 : regex)                            (* r1|r2 *)
| Star (greedy : bool) (r : regex)               (* r* and r*? *)
| Group (r : regex)                              (* ( r ), group 1 *)
| Lookahead (r : regex)                          (* (?= r ) *)
| WordBoundary                                   (* \b *)
| EndOfInput.                                    (* $ *)

(** Derived forms. *)
Definition Plus (r : regex) : regex := Seq r (Star true r).      (* r+ *)
Definition Opt (r : regex) : regex := Alt r Empty.               (* r? *)
Definition Digit : regex := Class false [CDigit].                (* \d *)
Definition Space : regex := Class false [CSpace].                (* \s *)
Definition AnyChar : regex := Class true [].                     (* [^] *)

Fixpoint Lit' (w : str) : regex :=
  match w with
  | [] => Empty
  | [c] => Char c
  | c :: w' => Seq (Char c) (Lit' w')
  end.

(** A run of literal characters. *)
Definition Lit (s : string) : regex := Lit' (lit s).
Arguments Lit s%_string.

Fixpoint seqs (l : list regex) : regex :=
  match l with
  | [] => Empty
  | [r] => r
  | r :: l' => Seq r (seqs l')
  end.

Fixpoint alts (l : list regex) : regex :=
  match l with
  | [] => Empty
  | [r] => r
  | r :: l' => Alt r (alts l')
  end.

(** The position of the matcher: the input from the current index on,
    the character just before it, and the capture of group 1. *)
Record mstate : Type := MState {
  rest : str;
  prev : option char;
  cap : option str
}.

Definition cont := mstate -> option mstate.

Definition char_matches (ic : bool) (p c : char) : bool :=
  if ic then char_eqb (canonicalize p) (canonicalize c) else char_eqb p c.

Definition citem_matches (ic : bool) (i : citem) (c : char) : bool :=
  match i with
  | CChar p => char_matches ic p c
  | CDigit => is_digit c
  | CSpace => is_space c
  end.

Definition class_matches (ic negated : bool) (items : list citem) (c : char) : bool :=
  xorb negated (existsb (fun i => citem_matches ic i c) items).

Definition step1 (p : char -> bool) (k : cont) (s : mstate) : option mstate :=
  match rest s with
  | c :: t => if p c then k (MState t (Some c) (cap s)) else None
  | [] => None
  end.

(** Quantifier loop.  An iteration that consumes nothing is rejected, as
    in RepeatMatcher; [fuel] bounds the iterations by the input left. *)
Fixpoint star_loop (fuel : nat) (m : cont -> cont) (greedy : bool)
         (k : cont) (s : mstate) : option mstate :=
  match fuel with
  | O => k s
  | S fuel' =>
      let k' := fun s' =>
        if Nat.ltb (length (rest s')) (length (rest s))
        then star_loop fuel' m greedy k s' else None in
      if greedy
      then match m k' s with Some x => Some x | None => k s end
      else match k s with Some x => Some x | None => m k' s end
  end.

Definition is_word_at (c : option char) : bool :=
  match c with Some c => is_word c | None => false end.

Fixpoint rmatch (ic : bool) (r : regex) : cont -> cont :=
  match r with
  | Empty => fun k s => k s
  | Char c => fun k s => step1 (char_matches ic c) k s
  | Class negated items => fun k s => step1 (class_matches ic negated items) k s
  | Seq r1 r2 => fun k s => rmatch ic r1 (rmatch ic r2 k) s
  | Alt r1 r2 => fun k s =>
      match rmatch ic r1 k s with
      | Some x => Some x
      | None => rmatch ic r2 k s
      end
  | Star greedy r1 => fun k s =>
      star_loop (length (rest s)) (rmatch ic r1) greedy k s
  | Group r1 => fun k s =>
      rmatch ic r1
        (fun s' => k (MState (rest s') (prev s')
           (Some (firstn (length (rest s) - length (rest s')) (rest s))))) s
  | Lookahead r1 => fun k s =>
      match rmatch ic r1 Some s with
      | Some s' => k (MState (rest s) (prev s) (cap s'))
      | None => None
      end
  | WordBoundary => fun k s =>
      if xorb (is_word_at (prev s)) (is_word_at (hd_error (rest s)))
      then k s else None
  | EndOfInput => fun k s =>
      match rest s with [] => k s | _ :: _ => None end
  end.

(** A regular expression literal [/source/flags]. *)
Record RegExp : Type := mkRegExp {
  source : regex;
  ignoreCase : bool
}.

(** /source/i *)
Definition re_i (r : regex) : RegExp := mkRegExp r true.
(** /source/ *)
Definition re (r : regex) : RegExp := mkRegExp r false.

(** A successful match: where it starts, the state at its end. *)
Record jsmatch : Type := JsMatch {
  index : nat;
  final : mstate
}.

(** Try the pattern at each index from left to right. *)
Fixpoint scan (R : RegExp) (i : nat) (p : option char) (t : str) : option jsmatch :=
  match rmatch (ignoreCase R) (source R) Some (MState t p None) with
  | Some m => Some (JsMatch i m)
  | None =>
      match t with
      | [] => None
      | c :: t' => scan R (S i) (Some c) t'
      end
  end.

(** [text.match(regex)] and [regex.exec(text)] for a regex without the
    [g] flag. *)
Definition exec (R : RegExp) (t : str) : option jsmatch := scan R 0 None t.

(** [regex.test(text)] *)
Definition test (R : RegExp) (t : str) : bool :=
  match exec R t with Some _ => true | None => false end.

(** [match[1]]: [None] is [undefined]. *)
Definition group1 (m : jsmatch) : option str := cap (final m).

(** [text.replace(/source/g, replacement)] with a replacement free of
    [$] patterns. *)
Fixpoint replace_loop (fuel : nat) (R : RegExp) (repl : str)
         (p : option char) (t : str) : str :=
  match fuel with
  | O => t
  | S fuel' =>
      match scan R 0 p t with
      | None => t
      | Some m =>
          let tail := skipn (index m) t in
          firstn (index m) t ++ repl ++
          (if Nat.ltb (length (rest (final m))) (length tail)
           then replace_loop fuel' R repl (prev (final m)) (rest (final m))
           else match tail with
                | [] => []
                | c :: t' => c :: replace_loop fuel' R repl (Some c) t'
                end)
      end
  end.

Definition replace_all (R : RegExp) (repl : str) (t : str) : str :=
  replace_loop (S (length t)) R repl None t.

End Regex.

Import Regex.

(* ================================================================= *)
(** ** The live document *)

(** A thrown JavaScript error.  What the script can catch are the
    runtime's own errors, objects with a [message]. *)
Record exn : Type := JsError { message : str }.

(** [TypeError: Cannot read properties of undefined]. *)
Definition TypeError : exn := JsError (lit "TypeError").

(** The selector strings the script passes to [querySelector] and
    [querySelectorAll]. *)
Inductive selector : Type :=
| SelClickable       (* a, button, [role=button] *)
| SelTable           (* table *)
| SelTr              (* tr *)
| SelTh              (* th *)
| SelTd              (* td *)
| SelItemLink        (* a[href*=#], a.item, td a *)
| SelImg             (* img[alt], img[title] *)
| SelDetailsClosed   (* details:not([open]) *)
| SelSummary         (* summary *)
| SelCategory        (* [class*=category] *)
| SelDropdown        (* [class*=dropdown] *)
| SelModal           (* [class*=modal], [class*=dialog], [role=dialog] *)
| SelDivSection      (* div, section *)
| SelCloseAria       (* button[aria-label*=lose] *)
| SelCloseClass      (* button[class*=close] *)
| SelCloseButton     (* button.close *)
| SelModalClose      (* [class*=modal-close] *)
| SelCloseTitle.     (* button[title*=Close] *)

(** What the script can see and do in the browser.  [Page] is the state
    of the document at one instant and [Elem] an element handle, which
    stays usable as the page changes.  Reads are observations of the
    current page.  [click] runs the page's handlers and may throw (an
    element without a [click] method); [wait] is the rendering that goes
    on while the script sleeps. *)
Record Browser : Type := {
  Page : Type;
  Elem : Type;
  querySelectorAll : Page -> option Elem -> selector -> list Elem;
  textContent : Page -> Elem -> str;
  offsetParent : Page -> Elem -> bool;       (* offsetParent !== null *)
  tagName : Page -> Elem -> str;
  alt : Page -> Elem -> str;
  title : Page -> Elem -> str;
  click : Page -> Elem -> Page * option exn;
  pressEscape : Page -> Page;
  wait : nat -> Page -> Page;
  toISOString : Page -> str                  (* new Date().toISOString() *)
}.

(* ================================================================= *)
(** ** Configuration *)

Module CONFIG.

Definition delayBetweenClicks : nat := 700.
Definition delayAfterExpand : nat := 400.
Definition delayAfterRestaurant : nat := 1500.

End CONFIG.

Definition TEST_MODE : bool := false.
Definition MAX_TEST_ITEMS : nat := 3.

Record restaurant : Type := Restaurant { name : str; unitOid : nat }.

(** U+00E9, the accented e of three restaurant names. *)
Definition e_acute : str := [233%N].

Definition RESTAURANTS : list restaurant := [
  Restaurant (lit "Bella Union") 6;
  Restaurant (lit "Beyu Blue Coffee") 24;
  Restaurant (lit "Bseisu Coffee Bar") 10;
  Restaurant (lit "Cafe") 14;
  Restaurant (lit "Duke Marine Lab") 2;
  Restaurant (lit "Freeman Caf" ++ e_acute) 3;
  Restaurant (lit "Ginger + Soy") 22;
  Restaurant (lit "Gothic Grill") 25;
  Restaurant (lit "Gyotaku") 23;
  Restaurant (lit "Il Forno") 20;
  Restaurant (lit "It's Thyme") 27;
  Restaurant (lit "J.B.'s Roast & Chops") 7;
  Restaurant (lit "Marketplace") 4;
  Restaurant (lit "Nasher Museum Caf" ++ e_acute) 17;
  Restaurant (lit "Red Mango") 18;
  Restaurant (lit "Saladalia @ The Perk") 15;
  Restaurant (lit "Sanford Deli") 16;
  Restaurant (lit "Sazon") 21;
  Restaurant (lit "Sprout") 11;
  Restaurant (lit "Tandoor Indian Cuisine") 19;
  Restaurant (lit "The Devils Krafthouse") 26;
  Restaurant (lit "The Farmstead") 12;
  Restaurant (lit "The Pitchfork") 8;
  Restaurant (lit "The Skillet") 9;
  Restaurant (lit "Trinity Cafe") 5;
  Restaurant (lit "Twinnie's") 13;
  Restaurant (lit "Zweli's Caf" ++ e_acute ++ lit " at Duke Divinity") 28
].

Definition MEAL_PERIOD_KEYWORDS : list str := [
  lit "Breakfast";
  lit "Lunch";
  lit "Dinner";
  lit "Brunch";
  lit "All Day";
  lit "Specialty Drinks";
  lit "Combo Meal Menu";
  lit "Smoothies";
  lit "Lunch/Dinner";
  lit "Lunch and Dinner";
  lit "Lunch & Dinner";
  lit "Late Night";
  lit "All Day Service"
].

(* ================================================================= *)
(** ** The patterns of the text extractor *)

Module Pat.

(** [\d+\.?\d*] *)
Definition decimal : regex :=
  seqs [Plus Digit; Opt (Char (ch ".")); Star true Digit].

(** /Calories(\d+)/i *)
Definition calories1 : RegExp :=
  re_i (seqs [Lit "Calories"; Group (Plus Digit)]).

(** /Calories\s+(\d+)/i *)
Definition calories2 : RegExp :=
  re_i (seqs [Lit "Calories"; Plus Space; Group (Plus Digit)]).

(** /Amount Per Serving\s+Calories\s*(\d+)/i *)
Definition calories3 : RegExp :=
  re_i (seqs [Lit "Amount Per Serving"; Plus Space; Lit "Calories";
              Star true Space; Group (Plus Digit)]).

(** /Calories[\s\n]*(\d+)/i *)
Definition calories4 : RegExp :=
  re_i (seqs [Lit "Calories"; Star true (Class false [CSpace; CChar 10%N]);
              Group (Plus Digit)]).

(** /Serving Size\s+([\d.]+\s*oz\s*\([\d]+g\))/i *)
Definition serving1 : RegExp :=
  re_i (seqs [Lit "Serving Size"; Plus Space;
              Group (seqs [Plus (Class false [CDigit; CChar (ch ".")]);
                           Star true Space; Lit "oz"; Star true Space;
                           Char (ch "("); Plus (Class false [CDigit]);
                           Char (ch "g"); Char (ch ")")])]).

(** /Serving Size\s+([\d.]+\s*oz)/i *)
Definition serving2 : RegExp :=
  re_i (seqs [Lit "Serving Size"; Plus Space;
              Group (seqs [Plus (Class false [CDigit; CChar (ch ".")]);
                           Star true Space; Lit "oz"])]).

(** /Serving Size\s+([^\n]+)/i *)
Definition serving3 : RegExp :=
  re_i (seqs [Lit "Serving Size"; Plus Space;
              Group (Plus (Class true [CChar 10%N]))]).

(** /Total Fat\s+(\d+\.?\d* )g/i, without the blank *)
Definition total_fat : RegExp :=
  re_i (seqs [Lit "Total Fat"; Plus Space; Group decimal; Char (ch "g")]).

(** /Saturated Fat\s+(\d+\.?\d*g|NA)/i *)
Definition saturated_fat : RegExp :=
  re_i (seqs [Lit "Saturated Fat"; Plus Space;
              Group (Alt (Seq decimal (Char (ch "g"))) (Lit "NA"))]).

(** /Trans Fat\s+(\d+\.?\d*g|NA)/i *)
Definition trans_fat : RegExp :=
  re_i (seqs [Lit "Trans Fat"; Plus Space;
              Group (Alt (Seq decimal (Char (ch "g"))) (Lit "NA"))]).

(** /Cholesterol\s+(\d+mg|NA)/i *)
Definition cholesterol : RegExp :=
  re_i (seqs [Lit "Cholesterol"; Plus Space;
              Group (Alt (Seq (Plus Digit) (Lit "mg")) (Lit "NA"))]).

(** /Sodium\s+(\d+)mg/i *)
Definition sodium : RegExp :=
  re_i (seqs [Lit "Sodium"; Plus Space; Group (Plus Digit); Lit "mg"]).

(** /Total Carbohydrate\s+(\d+\.?\d* )g/i, without the blank *)
Definition total_carbs : RegExp :=
  re_i (seqs [Lit "Total Carbohydrate"; Plus Space; Group decimal;
              Char (ch "g")]).

(** /Dietary Fiber\s+(<\s*\d+g|\d+\.?\d*g)/i *)
Definition fiber : RegExp :=
  re_i (seqs [Lit "Dietary Fiber"; Plus Space;
              Group (Alt (seqs [Char (ch "<"); Star true Space; Plus Digit;
                                Char (ch "g")])
                         (Seq decimal (Char (ch "g"))))]).

(** /Total Sugars\s+(\d+\.?\d*g)/i *)
Definition sugars : RegExp :=
  re_i (seqs [Lit "Total Sugars"; Plus Space;
              Group (Seq decimal (Char (ch "g")))]).

(** /Protein\s+(\d+\.?\d* )g/i, without the blank *)
Definition protein : RegExp :=
  re_i (seqs [Lit "Protein"; Plus Space; Group decimal; Char (ch "g")]).

(** /Ingredients:\s*([^]*?)(?=\*|Contains:|Allergen|Nutrition|$)/i *)
Definition ingredients : RegExp :=
  re_i (seqs [Lit "Ingredients:"; Star true Space;
              Group (Star false AnyChar);
              Lookahead (alts [Char (ch "*"); Lit "Contains:"; Lit "Allergen";
                               Lit "Nutrition"; EndOfInput])]).

(** /\s+/g *)
Definition spaces : RegExp := re (Plus Space).

(** A double quote, with the g flag. *)
Definition dquote : RegExp := re (Char 34%N).

(** /[:.]/g *)
Definition colon_or_dot : RegExp :=
  re (Class false [CChar (ch ":"); CChar (ch ".")]).

(** /\d+\s*(oz|g|ml|cup|piece|portion|slice|each|item|serving)/i *)
Definition row_serving : RegExp :=
  re_i (seqs [Plus Digit; Star true Space;
              Group (alts [Lit "oz"; Lit "g"; Lit "ml"; Lit "cup";
                           Lit "piece"; Lit "portion"; Lit "slice";
                           Lit "each"; Lit "item"; Lit "serving"])]).

(** /\bVegan\b/i and its siblings *)
Definition word (w : string) : RegExp :=
  re_i (seqs [WordBoundary; Lit w; WordBoundary]).
Arguments word w%_string.

End Pat.

(* ================================================================= *)
(** ** Text extractor *)

Inductive result (A : Type) : Type :=
| Ok (a : A)
| Throw (e : exn).
Arguments Ok {A} a.
Arguments Throw {A} e.

Definition rbind {A B} (r : result A) (f : A -> result B) : result B :=
  match r with
  | Ok a => f a
  | Throw e => Throw e
  end.

(** [match ? match[1].trim() : ''].  Reading [trim] off a group that did
    not take part in the match throws. *)
Definition extractMatch (text : str) (regex : RegExp) : result str :=
  match exec regex text with
  | Some m =>
      match group1 m with
      | Some g => Ok (trim g)
      | None => Throw TypeError
      end
  | None => Ok []
  end.

Definition extractIngredients (text : str) : result str :=
  match exec Pat.ingredients text with
  | Some m =>
      match group1 m with
      | Some g =>
          Ok (substring0 2000
                (replace_all Pat.spaces (lit " ") (trim g)))
      | None => Throw TypeError
      end
  | None => Ok []
  end.

(** The calorie fallback chain of [extractNutritionFromModal]. *)
Definition extractCalories (text : str) : result jsval :=
  rbind (extractMatch text Pat.calories1) (fun calories =>
  rbind (if truthy calories then Ok calories
         else extractMatch text Pat.calories2) (fun calories =>
  rbind (if truthy calories then Ok calories
         else extractMatch text Pat.calories3) (fun calories =>
  if truthy calories then Ok (JStr calories)
  else match exec Pat.calories4 text with
       | Some calMatch =>
           Ok (match group1 calMatch with
               | Some g => JStr g
               | None => JUndefined
               end)
       | None => Ok (JStr calories)
       end))).

(** The serving-size fallback chain of [extractNutritionFromModal]. *)
Definition extractServing (text : str) : result str :=
  rbind (extractMatch text Pat.serving1) (fun serving =>
  rbind (if truthy serving then Ok serving
         else extractMatch text Pat.serving2) (fun serving =>
  if truthy serving then Ok serving
  else extractMatch text Pat.serving3)).

(** [extractNutritionFromModal] from [const text = modal.textContent]
    on: the [nutrition] object, its properties evaluated in source
    order. *)
Definition extractNutrition (text : str) : result object :=
  rbind (extractCalories text) (fun calories =>
  rbind (extractServing text) (fun serving =>
  rbind (extractMatch text Pat.total_fat) (fun total_fat_g =>
  rbind (extractMatch text Pat.saturated_fat) (fun saturated_fat_g =>
  rbind (extractMatch text Pat.trans_fat) (fun trans_fat_g =>
  rbind (extractMatch text Pat.cholesterol) (fun cholesterol_mg =>
  rbind (extractMatch text Pat.sodium) (fun sodium_mg =>
  rbind (extractMatch text Pat.total_carbs) (fun total_carbs_g =>
  rbind (extractMatch text Pat.fiber) (fun fiber_g =>
  rbind (extractMatch text Pat.sugars) (fun sugars_g =>
  rbind (extractMatch text Pat.protein) (fun protein_g =>
  rbind (extractIngredients text) (fun ingredients =>
  Ok (assign [] [
    (lit "serving_size", JStr serving);
    (lit "calories", calories);
    (lit "total_fat_g", JStr total_fat_g);
    (lit "saturated_fat_g", JStr saturated_fat_g);
    (lit "trans_fat_g", JStr trans_fat_g);
    (lit "cholesterol_mg", JStr cholesterol_mg);
    (lit "sodium_mg", JStr sodium_mg);
    (lit "total_carbs_g", JStr total_carbs_g);
    (lit "fiber_g", JStr fiber_g);
    (lit "sugars_g", JStr sugars_g);
    (lit "protein_g", JStr protein_g);
    (lit "ingredients", JStr ingredients)
  ]))))))))))))).

(* ================================================================= *)
(** ** Console *)

Inductive level : Type := LLog | LWarn | LError.

(** The lines the script prints, by what they report; the decoration of
    the text is not modelled. *)
Inductive line : Type :=
| StartingScrape (n : nat)
| Rule
| RestaurantBanner (i total : nat) (restaurantName : str)
| ErrorScraping (restaurantName : str) (error : exn)
| ScrapingComplete
| TotalItems (n : nat)
| NoRestaurantLink (restaurantName : str)
| FoundMealPeriods (n : nat) (names : str)
| MealPeriodBanner (periodName : str)
| NoMealPeriods
| FoundItems (n : nat)
| ItemDone (i maxItems : nat) (displayName : str)
| ErrorOnItem (i : nat) (errorMessage : str)
| TestModeStopped (maxItems : nat)
| NoItemLink
| NoModal
| NoDataToExport
| GeneratingCSV
| CSVDownloaded
| FatalError (error : exn)
| SavingPartialData.

(* ================================================================= *)
(** ** The script *)

Section Scraper.

Variable B : Browser.

(** A meal period found on the page. *)
Record period : Type := Period { period_name : str; element : Elem B }.

(** Everything the script reads and writes. *)
Record World : Type := mkWorld {
  page : Page B;
  allData : list object;
  totalItemsScraped : nat;
  console : list (level * line);
  downloads : list (str * str)      (* file name, content *)
}.

(** An [async] function body: it runs on the world and either returns or
    throws; whatever it did before throwing stays done. *)
Definition M (A : Type) : Type := World -> result A * World.

Definition ret {A} (a : A) : M A := fun w => (Ok a, w).

Definition bind {A C} (c : M A) (f : A -> M C) : M C :=
  fun w =>
    match c w with
    | (Ok a, w') => f a w'
    | (Throw e, w') => (Throw e, w')
    end.

Definition throw {A} (e : exn) : M A := fun w => (Throw e, w).

(** [try { body } catch (error) { handler }] *)
Definition try_catch {A} (body : M A) (handler : exn -> M A) : M A :=
  fun w =>
    match body w with
    | (Ok a, w') => (Ok a, w')
    | (Throw e, w') => handler e w'
    end.

Notation "x <- c ;; k" := (bind c (fun x => k))
  (at level 61, c at next level, right associativity).
Notation "c ;;; k" := (bind c (fun _ => k))
  (at level 61, right associativity).

Definition getPage : M (Page B) := fun w => (Ok (page w), w).

Definition setPage (p : Page B) (w : World) : World :=
  mkWorld p (allData w) (totalItemsScraped w) (console w) (downloads w).

(** [console.log], [console.warn], [console.error] *)
Definition print (l : level) (x : line) : M unit :=
  fun w => (Ok tt, mkWorld (page w) (allData w) (totalItemsScraped w)
                           (console w ++ [(l, x)]) (downloads w)).

(** [await wait(ms)] *)
Definition sleep (ms : nat) : M unit :=
  fun w => (Ok tt, setPage (wait B ms (page w)) w).

(** [elem.click()] *)
Definition doClick (elem : Elem B) : M unit :=
  fun w =>
    match click B (page w) elem with
    | (p, None) => (Ok tt, setPage p w)
    | (p, Some e) => (Throw e, setPage p w)
    end.

(** [allData.push(itemData)] *)
Definition pushData (itemData : object) : M unit :=
  fun w => (Ok tt, mkWorld (page w) (allData w ++ [itemData])
                           (totalItemsScraped w) (console w) (downloads w)).

(** [totalItemsScraped++] *)
Definition countItem : M unit :=
  fun w => (Ok tt, mkWorld (page w) (allData w) (S (totalItemsScraped w))
                           (console w) (downloads w)).

(** [for (const x of xs) { body }] *)
Fixpoint forOf {A} (xs : list A) (body : A -> M unit) : M unit :=
  match xs with
  | [] => ret tt
  | x :: xs' => body x ;;; forOf xs' body
  end.

(** [for (let i = start; ...; i++) { const x = xs[i]; body }] over the
    elements of [xs]. *)
Fixpoint forIndex {A} (i : nat) (xs : list A) (body : nat -> A -> M unit) : M unit :=
  match xs with
  | [] => ret tt
  | x :: xs' => body i x ;;; forIndex (S i) xs' body
  end.

(** [root.querySelector(sel)] *)
Definition querySelector (p : Page B) (root : option (Elem B)) (sel : selector)
  : option (Elem B) :=
  hd_error (querySelectorAll B p root sel).

(* ----------------------------------------------------------------- *)
(** *** Finding elements *)

Definition findRestaurantLink (p : Page B) (name : str) : option (Elem B) :=
  find (fun link => str_eqb (trim (textContent B p link)) name
                    && offsetParent B p link)
       (querySelectorAll B p None SelClickable).

Definition findMealPeriods (p : Page B) : list period :=
  fold_left
    (fun periods el =>
       let text := trim (textContent B p el) in
       let isMatch :=
         existsb (fun keyword => str_eqb text keyword || includes text keyword)
                 MEAL_PERIOD_KEYWORDS in
       if isMatch && offsetParent B p el && Nat.ltb (length text) 100
       then if negb (existsb (fun q => str_eqb (period_name q) text) periods)
            then periods ++ [Period text el]
            else periods
       else periods)
    (querySelectorAll B p None SelClickable) [].

Definition expandAllCategories : M unit :=
  let selectors := [SelDetailsClosed; SelSummary; SelCategory; SelDropdown] in
  forOf selectors (fun selector =>
    p <- getPage ;;
    let elements := querySelectorAll B p None selector in
    forOf elements (fun elem =>
      p <- getPage ;;
      let text := textContent B p elem in
      if includes text [9656%N] || includes text [9658%N]
         || str_eqb (tagName B p elem) (lit "SUMMARY")
      then doClick elem ;;; sleep CONFIG.delayAfterExpand
      else ret tt)).

Definition findAllItemRows (p : Page B) : list (Elem B) :=
  flat_map
    (fun table =>
       filter
         (fun row =>
            match querySelector p (Some row) SelTh with
            | Some _ => false
            | None =>
                if Nat.eqb (length (querySelectorAll B p (Some row) SelTd)) 0
                then false
                else match querySelector p (Some row) SelItemLink with
                     | None => false
                     | Some hasItemLink =>
                         let linkText := trim (textContent B p hasItemLink) in
                         negb (Nat.ltb (length linkText) 2
                               || str_eqb linkText (lit "Back")
                               || str_eqb linkText (lit "Compare Items"))
                     end
            end)
         (querySelectorAll B p (Some table) SelTr))
    (querySelectorAll B p None SelTable).

(* ----------------------------------------------------------------- *)
(** *** Scraping item data *)

Definition getServingSize (p : Page B) (row : Elem B) : str :=
  match find (fun text => test Pat.row_serving text)
             (List.map (fun cell => trim (textContent B p cell))
                       (querySelectorAll B p (Some row) SelTd)) with
  | Some text => text
  | None => []
  end.

(** The label an image contributes, if any. *)
Definition imageLabel (alt : str) : option str :=
  if includes alt (lit "vegan") then Some (lit "Vegan")
  else if includes alt (lit "vegetarian") then Some (lit "Vegetarian")
  else if includes alt (lit "gluten") then Some (lit "Gluten Free")
  else if includes alt (lit "dairy") then Some (lit "Dairy Free")
  else if includes alt (lit "halal") then Some (lit "Halal")
  else if includes alt (lit "kosher") then Some (lit "Kosher")
  else None.

(** [keywords] of [getDietaryLabels], in key order. *)
Definition keywords : list (str * RegExp) := [
  (lit "Vegan", Pat.word "Vegan");
  (lit "Vegetarian", Pat.word "Vegetarian");
  (lit "Gluten Free", Pat.word "Gluten Free");
  (lit "Halal", Pat.word "Halal")
].

(** The [labels] array of [getDietaryLabels] after the loop over the
    row's images: one label at most per image, by the first keyword its
    lower-cased alt (or title) text contains. *)
Definition imageLabels (p : Page B) (row : Elem B) : list str :=
  let imgs := querySelectorAll B p (Some row) SelImg in
  fold_left
    (fun labels img =>
       let alt :=
         toLowerCase
           (if truthy (alt B p img) then alt B p img
            else if truthy (title B p img) then title B p img
            else []) in
       match imageLabel alt with
       | Some label => labels ++ [label]
       | None => labels
       end)
    imgs [].

(** The [labels] array after the loop over [keywords] as well. *)
Definition collectLabels (p : Page B) (row : Elem B) : list str :=
  let text := textContent B p row in
  fold_left
    (fun labels entry =>
       let '(label, regex) := entry in
       if test regex text && negb (array_includes labels label)
       then labels ++ [label]
       else labels)
    keywords (imageLabels p row).

Definition getDietaryLabels (p : Page B) (row : Elem B) : str :=
  join (lit "; ") (collectLabels p row).

(* ----------------------------------------------------------------- *)
(** *** Nutrition extraction *)

(** Methods 1 and 2 of [extractNutritionFromModal]: the visible element
    holding the nutrition text. *)
Definition findModal (p : Page B) : option (Elem B) :=
  match find (fun m => offsetParent B p m
                       && includes (textContent B p m) (lit "Nutrition Information"))
             (querySelectorAll B p None SelModal) with
  | Some m => Some m
  | None =>
      find (fun el => offsetParent B p el
                      && includes (textContent B p el) (lit "Nutrition Information")
                      && includes (textContent B p el) (lit "Calories"))
           (querySelectorAll B p None SelDivSection)
  end.

Definition liftR {A} (r : result A) : M A := fun w => (r, w).

Definition extractNutritionFromModal : M object :=
  p <- getPage ;;
  match findModal p with
  | None => print LLog NoModal ;;; ret []
  | Some modal => liftR (extractNutrition (textContent B p modal))
  end.

Definition closeSelectors : list selector :=
  [SelCloseAria; SelCloseClass; SelCloseButton; SelModalClose; SelCloseTitle].

Fixpoint closeWith (selectors : list selector) : M unit :=
  match selectors with
  | [] =>
      (* Fallback: press Escape *)
      (fun w => (Ok tt, setPage (pressEscape B (page w)) w)) ;;;
      sleep 300
  | selector :: selectors' =>
      p <- getPage ;;
      match querySelector p None selector with
      | Some btn =>
          if offsetParent B p btn
          then doClick btn ;;; sleep 300
          else closeWith selectors'
      | None => closeWith selectors'
      end
  end.

Definition closeModal : M unit := closeWith closeSelectors.

Definition scrapeItemRow (row : Elem B) (restaurantName mealPeriod : str)
  : M (option object) :=
  p <- getPage ;;
  let servingSize := getServingSize p row in
  let dietaryLabels := getDietaryLabels p row in
  match querySelector p (Some row) SelItemLink with
  | None => print LWarn NoItemLink ;;; ret None
  | Some itemLink =>
      let itemName := trim (textContent B p itemLink) in
      if negb (truthy itemName) || Nat.ltb (length itemName) 2
      then ret None
      else
        doClick itemLink ;;;
        sleep CONFIG.delayBetweenClicks ;;;
        nutritionData <- extractNutritionFromModal ;;
        closeModal ;;;
        ret (Some (assign
                     (assign [] [
                        (lit "restaurant", JStr restaurantName);
                        (lit "meal_period", JStr mealPeriod);
                        (lit "item_name", JStr itemName);
                        (lit "serving_size", JStr servingSize);
                        (lit "dietary_labels", JStr dietaryLabels)])
                     nutritionData))
  end.

(* ----------------------------------------------------------------- *)
(** *** CSV export *)

(** One cell of a data row: [row[header] || ''], quotes doubled, quoted. *)
Definition csvCell (row : object) (header : str) : str :=
  let value :=
    match get row header with
    | Some (JStr v) => v        (* '' || '' is '' *)
    | Some JUndefined => []
    | None => []
    end in
  let escaped := replace_all Pat.dquote [34%N; 34%N] value in
  [34%N] ++ escaped ++ [34%N].

Definition csvContent (data : list object) : str :=
  let headers := keys (hd [] data) in
  let csvRows :=
    join (lit ",") headers
    :: List.map (fun row => join (lit ",") (List.map (csvCell row) headers)) data in
  join [10%N] csvRows.

(** [slice(0, -5)] *)
Definition slice_0_minus5 (s : str) : str := firstn (length s - 5) s.

Definition downloadCSV (data : list object) : M unit :=
  if Nat.eqb (length data) 0
  then print LError NoDataToExport
  else
    print LLog GeneratingCSV ;;;
    p <- getPage ;;
    let timestamp :=
      slice_0_minus5 (replace_all Pat.colon_or_dot (lit "-") (toISOString B p)) in
    let download := lit "duke_dining_complete_" ++ timestamp ++ lit ".csv" in
    (fun w => (Ok tt, mkWorld (page w) (allData w) (totalItemsScraped w)
                              (console w)
                              (downloads w ++ [(download, csvContent data)]))) ;;;
    print LLog CSVDownloaded.

(* ----------------------------------------------------------------- *)
(** *** Main scraping logic *)

(** The body of the item loop of [scrapeCurrentPage]. *)
Definition itemIteration (restaurantName mealPeriod : str) (maxItems : nat)
           (i : nat) (row : Elem B) : M unit :=
  try_catch
    (itemData <- scrapeItemRow row restaurantName mealPeriod ;;
     match itemData with
     | Some itemData =>
         pushData itemData ;;;
         countItem ;;;
         match get itemData (lit "item_name") with
         | Some (JStr item_name) =>
             print LLog (ItemDone (i + 1) maxItems (substring0 45 item_name))
         | _ => throw TypeError
         end
     | None => ret tt
     end)
    (fun error => print LWarn (ErrorOnItem (i + 1) (message error))) ;;;
  sleep CONFIG.delayBetweenClicks.

Definition scrapeCurrentPage (restaurantName mealPeriod : str) : M unit :=
  expandAllCategories ;;;
  p <- getPage ;;
  let itemRows := findAllItemRows p in
  print LLog (FoundItems (length itemRows)) ;;;
  let maxItems :=
    if TEST_MODE then Nat.min MAX_TEST_ITEMS (length itemRows)
    else length itemRows in
  forIndex 0 (firstn maxItems itemRows)
           (itemIteration restaurantName mealPeriod maxItems) ;;;
  if TEST_MODE then print LLog (TestModeStopped maxItems) else ret tt.

Definition scrapeRestaurant (r : restaurant) : M unit :=
  p <- getPage ;;
  match findRestaurantLink p (name r) with
  | None => print LWarn (NoRestaurantLink (name r))
  | Some restaurantLink =>
      doClick restaurantLink ;;;
      sleep CONFIG.delayAfterRestaurant ;;;
      p <- getPage ;;
      let mealPeriods := findMealPeriods p in
      if Nat.ltb 0 (length mealPeriods)
      then
        print LLog (FoundMealPeriods (length mealPeriods)
                      (join (lit ", ") (List.map period_name mealPeriods))) ;;;
        forOf mealPeriods (fun period =>
          print LLog (MealPeriodBanner (period_name period)) ;;;
          doClick (element period) ;;;
          sleep CONFIG.delayBetweenClicks ;;;
          scrapeCurrentPage (name r) (period_name period))
      else
        print LLog NoMealPeriods ;;;
        scrapeCurrentPage (name r) (lit "All Day")
  end.

(** The body of the restaurant loop of [scrapeAllRestaurants]. *)
Definition restaurantIteration (i : nat) (r : restaurant) : M unit :=
  print LLog Rule ;;;
  print LLog (RestaurantBanner (i + 1) (length RESTAURANTS) (name r)) ;;;
  print LLog Rule ;;;
  try_catch (scrapeRestaurant r)
            (fun error => print LError (ErrorScraping (name r) error)) ;;;
  sleep CONFIG.delayAfterRestaurant.

Definition getAllData : M (list object) := fun w => (Ok (allData w), w).
Definition getTotal : M nat := fun w => (Ok (totalItemsScraped w), w).

Definition scrapeAllRestaurants : M unit :=
  print LLog (StartingScrape (length RESTAURANTS)) ;;;
  forIndex 0 RESTAURANTS restaurantIteration ;;;
  print LLog Rule ;;;
  print LLog ScrapingComplete ;;;
  total <- getTotal ;;
  print LLog (TotalItems total) ;;;
  print LLog Rule ;;;
  data <- getAllData ;;
  downloadCSV data.

(** The callback the script schedules: run, and on a fatal error save
    what was collected. *)
Definition main : M unit :=
  try_catch scrapeAllRestaurants
    (fun error =>
       print LError (FatalError error) ;;;
       data <- getAllData ;;
       if Nat.ltb 0 (length data)
       then print LLog SavingPartialData ;;; downloadCSV data
       else ret tt).

End Scraper.

(* ================================================================= *)
(** ** Notions used to state the properties *)

(** Group 1 takes part in every match of [r]. *)
Fixpoint captures (r : regex) : bool :=
  match r with
  | Seq r1 r2 => captures r1 || captures r2
  | Alt r1 r2 => captures r1 && captures r2
  | Group _ => true
  | Lookahead r1 => captures r1
  | _ => false
  end.

(** The state after reading the literal [w], if the input starts with
    it. *)
Fixpoint eat (ic : bool) (w : str) (s : mstate) : option mstate :=
  match w with
  | [] => Some s
  | c :: w' =>
      match rest s with
      | a :: t =>
          if char_matches ic c a then eat ic w' (MState t (Some a) (cap s))
          else None
      | [] => None
      end
  end.

(** [t] starts with [w], letter case ignored. *)
Fixpoint ci_prefix (w t : str) : bool :=
  match w, t with
  | [], _ => true
  | c :: w', a :: t' => char_matches true c a && ci_prefix w' t'
  | _ :: _, [] => false
  end.

(** Index of the first occurrence of [w] in [t], letter case ignored. *)
Fixpoint find_ci (w t : str) : option nat :=
  if ci_prefix w t then Some 0
  else match t with
       | [] => None
       | _ :: t' => option_map S (find_ci w t')
       end.

(** The last character of [u], or [p] when [u] is empty. *)
Definition last_char (p : option char) (u : str) : option char :=
  fold_left (fun _ c => Some c) u p.

(** The longest prefix of characters satisfying [p], and what follows. *)
Fixpoint take_while (p : char -> bool) (t : str) : str :=
  match t with
  | c :: t' => if p c then c :: take_while p t' else []
  | [] => []
  end.

Fixpoint drop_while (p : char -> bool) (t : str) : str :=
  match t with
  | c :: t' => if p c then drop_while p t' else t
  | [] => []
  end.

(** What a successful match tells about the continuation: it was
    entered, with success, at a later position of the same input, and
    with group 1 set if it was set before or [c] holds. *)
Definition reaches (k : cont) (s x : mstate) (c : bool) : Prop :=
  exists s',
    k s' = Some x
    /\ (exists u, rest s = u ++ rest s')
    /\ (cap s <> None \/ c = true -> cap s' <> None).


(** The state after the longest run of characters satisfying [p]. *)
Definition after_run (p : char -> bool) (s : mstate) : mstate :=
  MState (drop_while p (rest s))
         (last_char (prev s) (take_while p (rest s)))
         (cap s).

(** A lazy quantifier over one character class: the continuation is
    tried first, then one more character is read. *)
Fixpoint lazy_scan (p : char -> bool) (k : cont) (t : str)
         (pv : option char) (cp : option str) : option mstate :=
  match k (MState t pv cp) with
  | Some x => Some x
  | None =>
      match t with
      | a :: t' => if p a then lazy_scan p k t' (Some a) cp else None
      | [] => None
      end
  end.

(** The text goes on with a digit. *)
Definition starts_with_digit (t : str) : bool :=
  match t with
  | c :: _ => is_digit c
  | [] => false
  end.

(** [v] does not go on with a character satisfying [p]. *)
Definition head_fails (p : char -> bool) (v : str) : Prop :=
  match v with
  | c :: _ => p c = false
  | [] => True
  end.


(* ----------------------------------------------------------------- *)
(** *** Calorie value, in the specification's words *)

(** The run of digits the text starts with, if it starts with one. *)
Definition digits_at (t : str) : option str :=
  if starts_with_digit t then Some (take_while is_digit t) else None.

(** A no-space token at the head of [t]: the word Calories, in any
    letter case, and right after it a run of digits; its value is the
    run. *)
Definition no_space_token (t : str) : option str :=
  if ci_prefix (lit "Calories") t then digits_at (skipn 8 t) else None.

(** A spaced token at the head of [t]: the word, one or more whitespace
    characters, a run of digits. *)
Definition spaced_token (t : str) : option str :=
  if ci_prefix (lit "Calories") t
  then match skipn 8 t with
       | c :: r => if is_space c then digits_at (drop_while is_space r)
                   else None
       | [] => None
       end
  else None.

(** The value of the leftmost token of a kind in [t]. *)
Fixpoint first_token (token : str -> option str) (t : str) : option str :=
  match token t with
  | Some v => Some v
  | None =>
      match t with
      | [] => None
      | _ :: t' => first_token token t'
      end
  end.

(** The calorie value by priority: the leftmost no-space token wherever
    it stands; for want of one, the leftmost spaced token; else the empty
    string. *)
Definition calories_of (text : str) : str :=
  match first_token no_space_token text with
  | Some v => v
  | None =>
      match first_token spaced_token text with
      | Some v => v
      | None => []
      end
  end.

(* ----------------------------------------------------------------- *)
(** *** Ingredient block, in the specification's words *)

(** The text stands at a section delimiter: an asterisk, a
    [Contains:], [Allergen] or [Nutrition] label (in any letter case),
    or the end of the text. *)
Definition at_delimiter (t : str) : bool :=
  ci_prefix (lit "*") t
  || ci_prefix (lit "Contains:") t
  || ci_prefix (lit "Allergen") t
  || ci_prefix (lit "Nutrition") t
  || match t with [] => true | _ :: _ => false end.

(** The text up to the first section delimiter. *)
Fixpoint upto_delimiter (t : str) : str :=
  match t with
  | [] => []
  | a :: t' => if at_delimiter t then [] else a :: upto_delimiter t'
  end.

(** Every run of whitespace becomes one space: a whitespace character is
    kept, as a space, only when it ends its run. *)
Fixpoint collapse_spaces (t : str) : str :=
  match t with
  | [] => []
  | c :: t' =>
      if is_space c
      then match t' with
           | c' :: _ => if is_space c' then collapse_spaces t'
                        else 32%N :: collapse_spaces t'
           | [] => [32%N]
           end
      else c :: collapse_spaces t'
  end.

(** The ingredients field for the text that follows the label. *)
Definition ingredients_of (after_label : str) : str :=
  firstn 2000 (collapse_spaces (trim (upto_delimiter after_label))).

(** Every double quote doubled. *)
Definition double_quotes (v : str) : str :=
  flat_map (fun c => if N.eqb c 34 then [34%N; 34%N] else [c]) v.

(* ----------------------------------------------------------------- *)
(** *** Notions about a run of the script *)

(** The patterns behind each nutrition field, in the order they are
    tried. *)
Definition field_patterns : list (str * list RegExp) := [
  (lit "serving_size", [Pat.serving1; Pat.serving2; Pat.serving3]);
  (lit "calories", [Pat.calories1; Pat.calories2; Pat.calories3; Pat.calories4]);
  (lit "total_fat_g", [Pat.total_fat]);
  (lit "saturated_fat_g", [Pat.saturated_fat]);
  (lit "trans_fat_g", [Pat.trans_fat]);
  (lit "cholesterol_mg", [Pat.cholesterol]);
  (lit "sodium_mg", [Pat.sodium]);
  (lit "total_carbs_g", [Pat.total_carbs]);
  (lit "fiber_g", [Pat.fiber]);
  (lit "sugars_g", [Pat.sugars]);
  (lit "protein_g", [Pat.protein]);
  (lit "ingredients", [Pat.ingredients])
].

Section Run.

Variable B : Browser.

(** The page on which [scrapeItemRow] looks for the modal: the item link
    clicked without an exception, the settle delay elapsed. *)
Definition pageAfterClick (p : Page B) (row : Elem B) : option (Page B) :=
  match querySelector B p (Some row) SelItemLink with
  | Some itemLink =>
      match click B p itemLink with
      | (p', None) => Some (wait B CONFIG.delayBetweenClicks p')
      | (_, Some _) => None
      end
  | None => None
  end.

(** The page on which [scrapeRestaurant] looks for meal periods. *)
Definition pageAfterOpen (p : Page B) (r : restaurant) : option (Page B) :=
  match findRestaurantLink B p (name r) with
  | Some restaurantLink =>
      match click B p restaurantLink with
      | (p', None) => Some (wait B CONFIG.delayAfterRestaurant p')
      | (_, Some _) => None
      end
  | None => None
  end.

(** How the processing of one item row ended. *)
Inductive outcome : Type :=
| Produced (itemData : object)
| Skipped
| Failed (error : exn).

Definition itemOutcome (restaurantName mealPeriod : str) (row : Elem B)
           (w : World B) : outcome :=
  match scrapeItemRow row restaurantName mealPeriod w with
  | (Ok (Some itemData), _) => Produced itemData
  | (Ok None, _) => Skipped
  | (Throw e, _) => Failed e
  end.

(** The outcomes of the rows of one page, each in the world its
    predecessors left. *)
Fixpoint itemOutcomes (restaurantName mealPeriod : str) (maxItems i : nat)
         (rows : list (Elem B)) (w : World B) : list outcome :=
  match rows with
  | [] => []
  | row :: rows' =>
      itemOutcome restaurantName mealPeriod row w
      :: itemOutcomes restaurantName mealPeriod maxItems (S i) rows'
           (snd (itemIteration restaurantName mealPeriod maxItems i row w))
  end.

(** The records of the successful rows. *)
Fixpoint produced (os : list outcome) : list object :=
  match os with
  | [] => []
  | Produced d :: os' => d :: produced os'
  | _ :: os' => produced os'
  end.

(** The world with one more line on the console, and the world after a
    delay. *)
Definition logged (l : level) (x : line) (w : World B) : World B :=
  mkWorld B (page w) (allData w) (totalItemsScraped w)
          (console w ++ [(l, x)]) (downloads w).

Definition rested (ms : nat) (w : World B) : World B :=
  mkWorld B (wait B ms (page w)) (allData w) (totalItemsScraped w)
          (console w) (downloads w).

(** The item rows [scrapeCurrentPage] finds when the expansion of the
    categories left the world [w1], the world in which its item loop
    starts, and the outcomes of the rows. *)
Definition pageRows (w1 : World B) : list (Elem B) :=
  findAllItemRows B (page w1).

Definition loopStart (w1 : World B) : World B :=
  logged LLog (FoundItems (length (pageRows w1))) w1.

Definition pageOutcomes (restaurantName mealPeriod : str) (w1 : World B)
  : list outcome :=
  itemOutcomes restaurantName mealPeriod (length (pageRows w1)) 0
               (pageRows w1) (loopStart w1).

(** The world in which the turn of restaurant [r], at index [i],
    scrapes it: the banner is printed. *)
Definition announced (i : nat) (r : restaurant) (w : World B) : World B :=
  logged LLog Rule
    (logged LLog (RestaurantBanner (i + 1) (length RESTAURANTS) (name r))
       (logged LLog Rule w)).

(** In a run of [scrapeAllRestaurants] from [w], the world left by the
    turns of the restaurants [before]: the one in which the turn of the
    next restaurant starts. *)
Definition turnStart (before : list restaurant) (w : World B) : World B :=
  snd (forIndex 0 before (@restaurantIteration B)
         (logged LLog (StartingScrape (length RESTAURANTS)) w)).

(** A computation that only adds lines to the console. *)
Definition logs {A} (c : M B A) : Prop :=
  forall w, exists l, console (snd (c w)) = console w ++ l.

(** What it takes for a clickable element to count as a meal period. *)
Definition period_like (p : Page B) (text : str) (el : Elem B) : Prop :=
  In el (querySelectorAll B p None SelClickable)
  /\ offsetParent B p el = true
  /\ text = trim (textContent B p el)
  /\ (exists keyword,
         In keyword MEAL_PERIOD_KEYWORDS
         /\ (text = keyword \/ includes text keyword = true))
  /\ length text < 100.

(** A computation that leaves [allData] alone, and one that only appends
    records satisfying [P]. *)
Definition keeps {A} (c : M B A) : Prop :=
  forall w, allData (snd (c w)) = allData w.

Definition adds {A} (P : object -> Prop) (c : M B A) : Prop :=
  forall w, exists added,
    allData (snd (c w)) = allData w ++ added /\ Forall P added.

End Run.

(* ================================================================= *)
(** ** A standard CSV reader *)

(** The reader the round trip is stated against, after RFC 4180: fields
    are separated by commas and records by line feeds; a field that
    opens with a double quote runs to the closing quote, with a doubled
    quote standing for one quote and commas and line breaks taken
    literally; a carriage return outside quotes is skipped; a line feed
    at the very end does not open a further record. *)
Module Csv.

Inductive mode : Type :=
| FieldStart        (* nothing of the field read yet *)
| Unquoted          (* inside a bare field *)
| Quoted            (* inside a quoted field *)
| QuoteInQuoted.    (* inside a quoted field, a quote just read *)

Record pstate : Type := PState {
  rows : list (list str);   (* the records completed so far *)
  row : list str;           (* the completed fields of the current record *)
  field : str;              (* the current field *)
  now : mode
}.

Definition end_field (st : pstate) : pstate :=
  PState (rows st) (row st ++ [field st]) [] FieldStart.

Definition end_row (st : pstate) : pstate :=
  PState (rows st ++ [row st ++ [field st]]) [] [] FieldStart.

Definition put (c : char) (m : mode) (st : pstate) : pstate :=
  PState (rows st) (row st) (field st ++ [c]) m.

Definition outside (st : pstate) (c : char) : pstate :=
  if N.eqb c 44 then end_field st
  else if N.eqb c 10 then end_row st
  else if N.eqb c 13 then st
  else put c Unquoted st.

Definition step (st : pstate) (c : char) : pstate :=
  match now st with
  | FieldStart =>
      if N.eqb c 34 then PState (rows st) (row st) (field st) Quoted
      else outside st c
  | Unquoted => outside st c
  | Quoted =>
      if N.eqb c 34 then PState (rows st) (row st) (field st) QuoteInQuoted
      else put c Quoted st
  | QuoteInQuoted =>
      if N.eqb c 34 then put c Quoted st
      else outside st c
  end.

Definition run (st : pstate) (s : str) : pstate := fold_left step s st.

Definition finish (st : pstate) : list (list str) :=
  match now st, row st, field st with
  | FieldStart, [], [] => rows st
  | _, _, _ => rows st ++ [row st ++ [field st]]
  end.

Definition parse (s : str) : list (list str) :=
  finish (run (PState [] [] [] FieldStart) s).

End Csv.

(** A header that needs no quoting: no double quote, comma, line feed or
    carriage return. *)
Definition plain (s : str) : bool :=
  forallb (fun c => negb (N.eqb c 34 || N.eqb c 44 || N.eqb c 10 || N.eqb c 13)) s.

(** The string a record holds under a header; empty when it holds none. *)
Definition field_of (row : object) (header : str) : str :=
  match get row header with
  | Some (JStr v) => v
  | _ => []
  end.

(** Records with uniform fields: each holds a string under every header. *)
Definition well_formed (headers : list str) (data : list object) : Prop :=
  forall row header,
    In row data -> In header headers ->
    exists v, get row header = Some (JStr v).

(** A value as a data cell: quotes doubled, enclosed in quotes. *)
Definition quoted (v : str) : str := [34%N] ++ double_quotes v ++ [34%N].

(** The reader may end a field or a record here. *)
Definition open_mode (m : Csv.mode) : Prop :=
  m = Csv.FieldStart \/ m = Csv.Unquoted.

(* ================================================================= *)
(** ** A small site to run the script on *)

Module Fixture.

(** One menu item: its link text, the texts of its cells, its images
    (alt, title), the text of its row, the text of the overlay a click
    opens (if any), and whether clicking its link throws. *)
Record item : Type := Item {
  link_text : str;
  cells : list str;
  images : list (str * str);
  row_text : str;
  modal_text : option str;
  click_throws : bool
}.

(** A restaurant page: the restaurant's link, the labels of its meal
    period buttons, its items. *)
Record site : Type := Site {
  site_name : str;
  periods : list str;
  items : list item
}.

Inductive elem : Type :=
| RestaurantLink
| PeriodLink (i : nat)
| Table
| Row (i : nat)
| Cell (i j : nat)
| ItemLink (i : nat)
| Img (i j : nat)
| Overlay.

(** The page: the site and the item whose overlay is open. *)
Record state : Type := State { shown : site; opened : option nat }.

Definition no_item : item := Item [] [] [] [] None false.

Definition item_at (p : state) (i : nat) : item := nth i (items (shown p)) no_item.

Definition overlay_text (p : state) : option str :=
  match opened p with
  | Some i => modal_text (item_at p i)
  | None => None
  end.

Definition query (p : state) (root : option elem) (sel : selector) : list elem :=
  match sel, root with
  | SelClickable, None =>
      RestaurantLink :: List.map PeriodLink (seq 0 (length (periods (shown p))))
  | SelTable, None => [Table]
  | SelTr, Some Table => List.map Row (seq 0 (length (items (shown p))))
  | SelTd, Some (Row i) => List.map (Cell i) (seq 0 (length (cells (item_at p i))))
  | SelItemLink, Some (Row i) => [ItemLink i]
  | SelImg, Some (Row i) => List.map (Img i) (seq 0 (length (images (item_at p i))))
  | SelModal, None =>
      match overlay_text p with Some _ => [Overlay] | None => [] end
  | _, _ => []
  end.

Definition text (p : state) (e : elem) : str :=
  match e with
  | RestaurantLink => site_name (shown p)
  | PeriodLink i => nth i (periods (shown p)) []
  | Row i => row_text (item_at p i)
  | Cell i j => nth j (cells (item_at p i)) []
  | ItemLink i => link_text (item_at p i)
  | Overlay => match overlay_text p with Some t => t | None => [] end
  | Table | Img _ _ => []
  end.

Definition image_alt (p : state) (e : elem) : str :=
  match e with
  | Img i j => fst (nth j (images (item_at p i)) ([], []))
  | _ => []
  end.

Definition image_title (p : state) (e : elem) : str :=
  match e with
  | Img i j => snd (nth j (images (item_at p i)) ([], []))
  | _ => []
  end.

Definition press (p : state) (e : elem) : state * option exn :=
  match e with
  | ItemLink i =>
      if click_throws (item_at p i)
      then (p, Some (JsError (lit "itemLink.click is not a function")))
      else (State (shown p) (Some i), None)
  | _ => (p, None)
  end.

Definition browser : Browser := {|
  Page := state;
  Elem := elem;
  querySelectorAll := query;
  textContent := text;
  offsetParent := fun _ _ => true;
  tagName := fun _ _ => lit "A";
  alt := image_alt;
  title := image_title;
  click := press;
  pressEscape := fun p => State (shown p) None;
  wait := fun _ p => p;
  toISOString := fun _ => lit "2025-01-02T03:04:05.678Z"
|}.

Definition start (s : site) : World browser :=
  mkWorld browser (State s None) [] 0 [] [].

(** A grilled chicken row with a row-level serving size, a vegan image
    and a full nutrition overlay. *)
Definition chicken : item :=
  Item (lit "Grilled Chicken")
       [lit "Grilled Chicken"; lit "8 oz"]
       [(lit "Vegan option", [])]
       (lit "Grilled Chicken Vegetarian 8 oz")
       (Some (lit "Nutrition Information Serving Size 6 oz (170g) Calories250 Total Fat 5g Sodium 300mg Ingredients: Chicken, Salt * Contains: none"))
       false.

(** A row whose click throws. *)
Definition broken : item :=
  Item (lit "Broken Item") [lit "Broken Item"] [] (lit "Broken Item") None true.

(** A row whose overlay never appears. *)
Definition soup : item :=
  Item (lit "Tomato Soup") [lit "Tomato Soup"; lit "1 cup"] []
       (lit "Tomato Soup 1 cup") None false.

(** A row whose overlay has no serving size line. *)
Definition salad : item :=
  Item (lit "House Salad") [lit "House Salad"; lit "2 oz"] []
       (lit "House Salad 2 oz")
       (Some (lit "Nutrition Information Calories 90 Protein 3g"))
       false.

(** A row with two images that both say vegan. *)
Definition wrap : item :=
  Item (lit "Veggie Wrap") [lit "Veggie Wrap"]
       [(lit "Vegan", []); ([], lit "vegan friendly")]
       (lit "Veggie Wrap") None false.

Definition cafe : site := Site (lit "Cafe") [] [chicken; broken; soup; salad].

Definition grill : site :=
  Site (lit "Gothic Grill") [lit "Breakfast"; lit "Lunch"; lit "Lunch"] [chicken].

End Fixture.

(* ================================================================= *)
(** ** Worked examples *)

Module Examples.

Import Fixture.

(** The page of the cafe with the overlay of item [i] open. *)
Definition cafe_open (i : nat) : state := State cafe (Some i).

(** The record the script builds for the chicken row of the cafe. *)
Definition chicken_record : object := [
  (lit "restaurant", JStr (lit "Cafe"));
  (lit "meal_period", JStr (lit "All Day"));
  (lit "item_name", JStr (lit "Grilled Chicken"));
  (lit "serving_size", JStr (lit "6 oz (170g)"));
  (lit "dietary_labels", JStr (lit "Vegan; Vegetarian"));
  (lit "calories", JStr (lit "250"));
  (lit "total_fat_g", JStr (lit "5"));
  (lit "saturated_fat_g", JStr []);
  (lit "trans_fat_g", JStr []);
  (lit "cholesterol_mg", JStr []);
  (lit "sodium_mg", JStr (lit "300"));
  (lit "total_carbs_g", JStr []);
  (lit "fiber_g", JStr []);
  (lit "sugars_g", JStr []);
  (lit "protein_g", JStr []);
  (lit "ingredients", JStr (lit "Chicken, Salt"))
].

(** The record for the soup row, whose overlay never appears. *)
Definition soup_record : object := [
  (lit "restaurant", JStr (lit "Cafe"));
  (lit "meal_period", JStr (lit "All Day"));
  (lit "item_name", JStr (lit "Tomato Soup"));
  (lit "serving_size", JStr (lit "1 cup"));
  (lit "dietary_labels", JStr [])
].

(** The record for the salad row, whose overlay has no serving size. *)
Definition salad_record : object := [
  (lit "restaurant", JStr (lit "Cafe"));
  (lit "meal_period", JStr (lit "All Day"));
  (lit "item_name", JStr (lit "House Salad"));
  (lit "serving_size", JStr []);
  (lit "dietary_labels", JStr []);
  (lit "calories", JStr (lit "90"));
  (lit "total_fat_g", JStr []);
  (lit "saturated_fat_g", JStr []);
  (lit "trans_fat_g", JStr []);
  (lit "cholesterol_mg", JStr []);
  (lit "sodium_mg", JStr []);
  (lit "total_carbs_g", JStr []);
  (lit "fiber_g", JStr []);
  (lit "sugars_g", JStr []);
  (lit "protein_g", JStr (lit "3"));
  (lit "ingredients", JStr [])
].

(** The cafe with a second clickable element, named after the
    restaurant that follows it in the list. *)
Definition campus : site :=
  Site (lit "Cafe") [lit "Duke Marine Lab"] [chicken; broken; soup; salad].

(** The fixture's browser with a restaurant link whose click throws. *)
Definition locked : Browser := {|
  Page := state;
  Elem := elem;
  querySelectorAll := query;
  textContent := text;
  offsetParent := fun _ _ => true;
  tagName := fun _ _ => lit "A";
  alt := image_alt;
  title := image_title;
  click := fun p e =>
    match e with
    | RestaurantLink =>
        (p, Some (JsError (lit "restaurantLink.click is not a function")))
    | _ => press p e
    end;
  pressEscape := fun p => State (shown p) None;
  wait := fun _ p => p;
  toISOString := fun _ => lit "2025-01-02T03:04:05.678Z"
|}.

Definition locked_start : World locked :=
  mkWorld locked (State campus None) [] 0 [] [].

(** The four rows of the cafe's table. *)
Definition cafe_rows : list (Elem browser) := [Row 0; Row 1; Row 2; Row 3].

(** A page with the single row [wrap]. *)
Definition wrap_page : state := State (Site (lit "Cafe") [] [wrap]) None.

(** Two records with quotes, commas and a line break in their values. *)
Definition quoted_records : list object := [
  [(lit "item_name", JStr (lit "Mac " ++ [34%N] ++ lit "n" ++ [34%N] ++ lit " Cheese, large"));
   (lit "ingredients", JStr (lit "Pasta, Cheese" ++ [10%N] ++ lit "Salt"))];
  [(lit "item_name", JStr (lit "Water")); (lit "ingredients", JStr [])]
].

(** A modal text with a spaced calorie token before the no-space one. *)
Definition modal_spaced_then_tight : str :=
  lit "Nutrition Information Calories 100 kcal Serving Size 6 oz Calories123 Total Fat 5g".

(** A modal text whose only tokens are spaced, the word coming back
    without a number after it. *)
Definition modal_spaced_twice : str :=
  lit "Nutrition Information Calories  456 Calories from Fat 90 Calories 12".

(** A text on which the order of the patterns decides. *)
Definition two_tokens : str := lit "Calories 100 kcal calories250 cal".

(** A modal text with an ingredients block between a label and an
    asterisk. *)
Definition modal_ingredients : str :=
  lit "Nutrition Information Ingredients:  Water,   Salt " ++ [10%N]
      ++ lit " Pepper * Contains: none".

(** An ingredients block of 3000 letters right after the label. *)
Definition long_block : str := repeat (ch "a") 3000.
Definition modal_long : str := lit "Ingredients:" ++ long_block.

End Examples.

(* ================================================================= *)
(** ** Further notions about the script *)

(** Every character [r] can read satisfies [P]. *)
Fixpoint reads (ic : bool) (P : char -> bool) (r : regex) : Prop :=
  match r with
  | Char c => forall a, char_matches ic c a = true -> P a = true
  | Class negated items =>
      forall a, class_matches ic negated items a = true -> P a = true
  | Seq r1 r2 => reads ic P r1 /\ reads ic P r2
  | Alt r1 r2 => reads ic P r1 /\ reads ic P r2
  | Star _ r1 => reads ic P r1
  | Group r1 => reads ic P r1
  | Empty | Lookahead _ | WordBoundary | EndOfInput => True
  end.

(** Every group of [r] reads characters satisfying [P] only. *)
Fixpoint groups_read (ic : bool) (P : char -> bool) (r : regex) : Prop :=
  match r with
  | Group r1 => reads ic P r1
  | Seq r1 r2 => groups_read ic P r1 /\ groups_read ic P r2
  | Alt r1 r2 => groups_read ic P r1 /\ groups_read ic P r2
  | Star _ r1 => groups_read ic P r1
  | Lookahead r1 => groups_read ic P r1
  | Empty | Char _ | Class _ _ | WordBoundary | EndOfInput => True
  end.

(** The capture, when set, holds characters satisfying [P] only. *)
Definition cap_good (P : char -> bool) (s : mstate) : Prop :=
  match cap s with
  | Some u => forallb P u = true
  | None => True
  end.

(** A digit or a decimal point. *)
Definition is_decimal_char (c : char) : bool := is_digit c || N.eqb c 46.

(** Whatever [r] matches, the stretch of input it consumed satisfies
    [C]. *)
Definition consumes (ic : bool) (C : str -> Prop) (r : regex) : Prop :=
  forall k s x, rmatch ic r k s = Some x ->
    exists s' u, k s' = Some x /\ rest s = u ++ rest s' /\ C u.

(** Every group of [r] consumes a stretch satisfying [C]. *)
Fixpoint groups_consume (ic : bool) (C : str -> Prop) (r : regex) : Prop :=
  match r with
  | Group r1 => consumes ic C r1
  | Seq r1 r2 => groups_consume ic C r1 /\ groups_consume ic C r2
  | Alt r1 r2 => groups_consume ic C r1 /\ groups_consume ic C r2
  | Star _ r1 => groups_consume ic C r1
  | Lookahead r1 => groups_consume ic C r1
  | Empty | Char _ | Class _ _ | WordBoundary | EndOfInput => True
  end.

(** The capture, when set, satisfies [C]. *)
Definition cap_in (C : str -> Prop) (s : mstate) : Prop :=
  match cap s with
  | Some u => C u
  | None => True
  end.

(** The letter g, in either case. *)
Definition is_g (c : char) : bool := N.eqb c 103 || N.eqb c 71.

(** A value that ends in the unit letter. *)
Definition ends_in_g (v : str) : Prop :=
  exists w c, v = w ++ [c] /\ is_g c = true.

(** The two letters NA, in any case. *)
Definition is_na (v : str) : Prop :=
  exists a b, v = [a; b] /\ (a = 78%N \/ a = 110%N) /\ (b = 65%N \/ b = 97%N).

(** A value that carries its unit, or stands for not available. *)
Definition unit_or_na (v : str) : Prop := ends_in_g v \/ is_na v.

(** A colon or a dot becomes a dash. *)
Definition dash (c : char) : char :=
  if N.eqb c 58 || N.eqb c 46 then 45%N else c.

(** The six display labels of [getDietaryLabels]. *)
Definition canonical_labels : list str :=
  [lit "Vegan"; lit "Vegetarian"; lit "Gluten Free"; lit "Dairy Free";
   lit "Halal"; lit "Kosher"].

(** The five fields every record starts with, and the sixteen of a
    record whose overlay was read. *)
Definition row_fields : list str :=
  [lit "restaurant"; lit "meal_period"; lit "item_name"; lit "serving_size";
   lit "dietary_labels"].

Definition full_fields : list str :=
  row_fields ++
  [lit "calories"; lit "total_fat_g"; lit "saturated_fat_g"; lit "trans_fat_g";
   lit "cholesterol_mg"; lit "sodium_mg"; lit "total_carbs_g"; lit "fiber_g";
   lit "sugars_g"; lit "protein_g"; lit "ingredients"].

Section Frames.

Variable B : Browser.

(** Every run of [c] takes a world to one related to it by [Q]. *)
Definition frames (Q : World B -> World B -> Prop) {A} (c : M B A) : Prop :=
  forall w, Q w (snd (c w)).

(** The counter and the dataset have grown by the same amount. *)
Definition in_step (w w' : World B) : Prop :=
  totalItemsScraped w' + length (allData w) =
  totalItemsScraped w + length (allData w').

(** Nothing was downloaded in between. *)
Definition same_downloads (w w' : World B) : Prop :=
  downloads w' = downloads w.

(** A record of [restaurantName] and [mealPeriod]: it carries both, and
    an item name of at least two characters. *)
Definition tagged (restaurantName mealPeriod : str) (d : object) : Prop :=
  get d (lit "restaurant") = Some (JStr restaurantName)
  /\ get d (lit "meal_period") = Some (JStr mealPeriod)
  /\ exists n, get d (lit "item_name") = Some (JStr n) /\ 2 <= length n.

(** A meal period label: it is, or contains, a keyword of the vocabulary,
    and is shorter than 100 characters. *)
Definition period_word (mp : str) : Prop :=
  (exists keyword,
      In keyword MEAL_PERIOD_KEYWORDS
      /\ (mp = keyword \/ includes mp keyword = true))
  /\ length mp < 100.

(** A record of restaurant [r]. *)
Definition record_of (r : restaurant) (d : object) : Prop :=
  exists mp, tagged (name r) mp d /\ period_word mp.

(** A record a run may add: a record of a restaurant of the list. *)
Definition sound_record (d : object) : Prop :=
  exists r, In r RESTAURANTS /\ record_of r d.

(** Only the page was changed in between. *)
Definition only_page (w w' : World B) : Prop := w' = setPage (page w') w.

(** The test [expandAllCategories] applies to an element: its text holds
    a right-pointing triangle, or it is a SUMMARY element. *)
Definition expandable (p : Page B) (elem : Elem B) : bool :=
  includes (textContent B p elem) [9656%N]
  || includes (textContent B p elem) [9658%N]
  || str_eqb (tagName B p elem) (lit "SUMMARY").

(** What [findAllItemRows] asks of a table row: no header cell, at least
    one cell, and an item link whose trimmed text has two characters or
    more and is not a navigation label. *)
Definition item_row (p : Page B) (row : Elem B) : Prop :=
  querySelector B p (Some row) SelTh = None
  /\ querySelectorAll B p (Some row) SelTd <> []
  /\ exists link,
       querySelector B p (Some row) SelItemLink = Some link
       /\ 2 <= length (trim (textContent B p link))
       /\ trim (textContent B p link) <> lit "Back"
       /\ trim (textContent B p link) <> lit "Compare Items".

(** The test of method 1 of [extractNutritionFromModal], and that of
    method 2. *)
Definition modal_like (p : Page B) (m : Elem B) : bool :=
  offsetParent B p m
  && includes (textContent B p m) (lit "Nutrition Information").

Definition panel_like (p : Page B) (el : Elem B) : bool :=
  offsetParent B p el
  && includes (textContent B p el) (lit "Nutrition Information")
  && includes (textContent B p el) (lit "Calories").

(** The file [downloadCSV] writes for [data] on page [p]. *)
Definition exportOf (p : Page B) (data : list object) : str * str :=
  (lit "duke_dining_complete_"
     ++ List.map dash (firstn (length (toISOString B p) - 5) (toISOString B p))
     ++ lit ".csv",
   csvContent data).

End Frames.

Module MoreExamples.

Import Fixture.

(** A page whose only row has a one-letter link. *)
Definition stub_page : state :=
  State (Site (lit "Cafe") []
           [Item (lit "x") [lit "x"] [] (lit "x") None false]) None.

(** A row with one vegan image and [Vegan] in its text. *)
Definition vegan_row_page : state :=
  State (Site (lit "Cafe") []
           [Item (lit "Tofu Bowl") [lit "Tofu Bowl"] [(lit "vegan", [])]
                 (lit "Tofu Bowl Vegan Halal") None false]) None.

(** The text of the chicken overlay and the nutrition object read off
    it. *)
Definition chicken_text : str :=
  lit "Nutrition Information Serving Size 6 oz (170g) Calories250 Total Fat 5g Sodium 300mg Ingredients: Chicken, Salt * Contains: none".

(** An overlay text whose lesser nutrients come with their units. *)
Definition units_text : str :=
  lit "Nutrition Information Saturated Fat 2.5g Trans Fat NA Cholesterol 10mg Dietary Fiber < 1g Total Sugars 3g".

Definition chicken_nutrition : object := [
  (lit "serving_size", JStr (lit "6 oz (170g)"));
  (lit "calories", JStr (lit "250"));
  (lit "total_fat_g", JStr (lit "5"));
  (lit "saturated_fat_g", JStr []);
  (lit "trans_fat_g", JStr []);
  (lit "cholesterol_mg", JStr []);
  (lit "sodium_mg", JStr (lit "300"));
  (lit "total_carbs_g", JStr []);
  (lit "fiber_g", JStr []);
  (lit "sugars_g", JStr []);
  (lit "protein_g", JStr []);
  (lit "ingredients", JStr (lit "Chicken, Salt"))
].

(** A page with an overlay and three buttons: a hidden one that carries
    an aria label, and two with a close class, the first of them
    visible.  The page is whether the overlay is open; any click closes
    it. *)
Definition dialog : Browser := {|
  Page := bool;
  Elem := nat;
  querySelectorAll := fun p root sel =>
    match sel, root with
    | SelCloseAria, None => [0]
    | SelCloseClass, None => [1; 2]
    | _, _ => []
    end;
  textContent := fun _ _ => [];
  offsetParent := fun _ e => negb (Nat.eqb e 0);
  tagName := fun _ _ => lit "BUTTON";
  alt := fun _ _ => [];
  title := fun _ _ => [];
  click := fun _ _ => (false, None);
  pressEscape := fun _ => false;
  wait := fun _ p => p;
  toISOString := fun _ => lit "2025-01-02T03:04:05.678Z"
|}.

Definition dialog_open : World dialog := mkWorld dialog true [] 0 [] [].

End MoreExamples.
(* ================================================================= *)
(** * Properties of the matcher *)

Lemma str_eqb_eq (a b : str) : str_eqb a b = true <-> a = b.
Proof.
  revert b; induction a as [|x a IH]; intros [|y b]; simpl; split;
    try congruence; try reflexivity.
  - intros H. apply andb_prop in H as [H1 H2].
    apply N.eqb_eq in H1. apply IH in H2. congruence.
  - intros H. injection H as -> ->. unfold char_eqb.
    rewrite N.eqb_refl. simpl. apply IH. reflexivity.
Qed.

Lemma str_eqb_refl (a : str) : str_eqb a a = true.
Proof. apply str_eqb_eq. reflexivity. Qed.

Lemma reaches_weaken k s x c : reaches k s x c -> reaches k s x false.
Proof.
  intros (s' & Hk & Hu & Hc). exists s'. repeat split; auto.
  intros [H|H]; [auto | discriminate].
Qed.

Lemma reaches_trans k1 k2 s x c1 c2 :
  reaches k1 s x c1 ->
  (forall s', k1 s' = Some x -> reaches k2 s' x c2) ->
  reaches k2 s x (c1 || c2).
Proof.
  intros (s1 & Hk1 & (u1 & Hu1) & Hc1) H.
  destruct (H s1 Hk1) as (s2 & Hk2 & (u2 & Hu2) & Hc2).
  exists s2. split; [assumption|]. split.
  - exists (u1 ++ u2). rewrite Hu1, Hu2. apply app_assoc.
  - intros Hc. apply Hc2.
    destruct Hc as [Hc|Hc].
    + left. apply Hc1. now left.
    + apply orb_prop in Hc as [Hc|Hc].
      * left. apply Hc1. now right.
      * now right.
Qed.

Lemma step1_reaches p k s x :
  step1 p k s = Some x -> reaches k s x false.
Proof.
  unfold step1. destruct s as [[|a t] pv cp]; simpl; [discriminate|].
  destruct (p a); [|discriminate]. intros H.
  exists (MState t (Some a) cp). simpl. repeat split; auto.
  - exists [a]. reflexivity.
  - intros [Hc|Hc]; [assumption | discriminate].
Qed.

Lemma star_loop_reaches fuel (m : cont -> cont) greedy :
  (forall k s x, m k s = Some x -> reaches k s x false) ->
  forall k s x, star_loop fuel m greedy k s = Some x -> reaches k s x false.
Proof.
  intros Hm. induction fuel as [|fuel IH]; intros k s x; simpl.
  - intros H. exists s. repeat split; auto.
    + exists []. reflexivity.
    + intros [Hc|Hc]; [assumption | discriminate].
  - set (k' := fun s' : mstate =>
        if Nat.ltb (length (rest s')) (length (rest s))
        then star_loop fuel m greedy k s' else None).
    assert (Hk' : forall y, m k' s = Some y -> reaches k s y false).
    { intros y Hy. apply Hm in Hy.
      apply (reaches_trans (c1 := false) (c2 := false) Hy).
      intros s1 H1. unfold k' in H1.
      destruct (Nat.ltb _ _); [|discriminate]. now apply IH. }
    assert (Hk : forall y, k s = Some y -> reaches k s y false).
    { intros y Hy. exists s. repeat split; auto.
      - exists []. reflexivity.
      - intros [Hc|Hc]; [assumption | discriminate]. }
    destruct greedy.
    + destruct (m k' s) eqn:E.
      * intros H; injection H as <-. now apply Hk'.
      * apply Hk.
    + destruct (k s) eqn:E.
      * intros H; injection H as <-. now apply Hk.
      * apply Hk'.
Qed.

Lemma rmatch_reaches ic r :
  forall k s x, rmatch ic r k s = Some x -> reaches k s x (captures r).
Proof.
  induction r; intros k s x; simpl.
  - intros H. exists s. repeat split; auto.
    + exists []. reflexivity.
    + intros [Hc|Hc]; [assumption | discriminate].
  - apply step1_reaches.
  - apply step1_reaches.
  - intros H. apply IHr1 in H.
    apply (reaches_trans H). intros s1 H1. now apply IHr2.
  - destruct (rmatch ic r1 k s) eqn:E.
    + intros H; injection H as <-. apply IHr1 in E.
      destruct E as (s' & Hk & Hu & Hc). exists s'. repeat split; auto.
      intros [H|H]; apply Hc; [now left|].
      apply andb_prop in H as [H _]. now right.
    + intros H. apply IHr2 in H.
      destruct H as (s' & Hk & Hu & Hc). exists s'. repeat split; auto.
      intros [H|H]; apply Hc; [now left|].
      apply andb_prop in H as [_ H]. now right.
  - apply star_loop_reaches.
    intros k0 s0 x0 H. apply IHr in H. now apply reaches_weaken in H.
  - intros H. apply IHr in H. destruct H as (s' & Hk & Hu & _).
    eexists. split; [exact Hk|]. simpl. split; [assumption|].
    intros _. discriminate.
  - destruct (rmatch ic r Some s) as [s1|] eqn:E; [|discriminate].
    intros H. apply IHr in E. destruct E as (s' & Hk & _ & Hc).
    injection Hk as ->.
    eexists. split; [exact H|]. simpl. split; [exists []; reflexivity|].
    exact Hc.
  - destruct (xorb _ _); [|discriminate]. intros H.
    exists s. repeat split; auto.
    + exists []. reflexivity.
    + intros [Hc|Hc]; [assumption | discriminate].
  - destruct (rest s) eqn:E; [|discriminate]. intros H.
    exists s. repeat split; auto.
    + exists []. rewrite E. reflexivity.
    + intros [Hc|Hc]; [assumption | discriminate].
Qed.

(** A pattern whose group lies on every path sets [match[1]]. *)
Lemma scan_group1 R i p t m :
  captures (source R) = true ->
  scan R i p t = Some m -> group1 m <> None.
Proof.
  intros HR. revert i p. induction t as [|c t IH]; intros i p; simpl.
  - destruct (rmatch _ _ _ _) eqn:E; [|discriminate].
    intros H; injection H as <-. apply rmatch_reaches in E.
    destruct E as (s' & Hk & _ & Hc). injection Hk as ->.
    unfold group1; simpl. apply Hc. now right.
  - destruct (rmatch _ _ _ _) eqn:E.
    + intros H; injection H as <-. apply rmatch_reaches in E.
      destruct E as (s' & Hk & _ & Hc). injection Hk as ->.
      unfold group1; simpl. apply Hc. now right.
    + apply IH.
Qed.

(* ----------------------------------------------------------------- *)
(** ** The quantifier loop never runs short of fuel *)

Lemma star_loop_ext fuel (m : cont -> cont) greedy :
  (forall k1 k2, (forall s, k1 s = k2 s) -> forall s, m k1 s = m k2 s) ->
  forall k1 k2, (forall s, k1 s = k2 s) ->
  forall s, star_loop fuel m greedy k1 s = star_loop fuel m greedy k2 s.
Proof.
  intros Hm. induction fuel as [|fuel IH]; intros k1 k2 Hk s; cbn [star_loop].
  - apply Hk.
  - rewrite (Hk s).
    rewrite (Hm _ (fun s' : mstate =>
                     if Nat.ltb (length (rest s')) (length (rest s))
                     then star_loop fuel m greedy k2 s' else None)); [reflexivity|].
    intros s'. destruct (Nat.ltb _ _); [now apply IH | reflexivity].
Qed.

Lemma rmatch_ext ic r :
  forall k1 k2, (forall s, k1 s = k2 s) ->
  forall s, rmatch ic r k1 s = rmatch ic r k2 s.
Proof.
  induction r; intros k1 k2 Hk s; cbn [rmatch]; try apply Hk.
  - unfold step1. destruct (rest s); [reflexivity|].
    destruct (char_matches _ _ _); [apply Hk | reflexivity].
  - unfold step1. destruct (rest s); [reflexivity|].
    destruct (class_matches _ _ _ _); [apply Hk | reflexivity].
  - apply IHr1. intros s'. now apply IHr2.
  - rewrite (IHr1 k1 k2 Hk), (IHr2 k1 k2 Hk). reflexivity.
  - now apply star_loop_ext.
  - apply IHr. intros s'. apply Hk.
  - destruct (rmatch ic r Some s); [apply Hk | reflexivity].
  - destruct (xorb _ _); [apply Hk | reflexivity].
  - destruct (rest s); [apply Hk | reflexivity].
Qed.

(** With the input left as fuel the loop is exact: more fuel changes
    nothing. *)
Lemma star_loop_more_fuel ic r greedy k n :
  forall s, length (rest s) <= n ->
  star_loop (S n) (rmatch ic r) greedy k s = star_loop n (rmatch ic r) greedy k s.
Proof.
  induction n as [|n IH]; intros s Hl.
  - cbn [star_loop].
    set (k' := fun s' : mstate =>
                 if Nat.ltb (length (rest s')) (length (rest s))
                 then k s' else None).
    assert (E : rmatch ic r k' s = None).
    { destruct (rmatch ic r k' s) as [x|] eqn:E; [exfalso | reflexivity].
      apply rmatch_reaches in E. destruct E as (s' & Hk' & (u & Hu) & _).
      unfold k' in Hk'.
      replace (Nat.ltb (length (rest s')) (length (rest s))) with false in Hk';
        [discriminate|].
      symmetry. apply Nat.ltb_ge. lia. }
    rewrite E. destruct greedy; [reflexivity|]. destruct (k s); reflexivity.
  - cbn [star_loop].
    rewrite (rmatch_ext ic r
               (fun s' : mstate =>
                  if Nat.ltb (length (rest s')) (length (rest s))
                  then star_loop (S n) (rmatch ic r) greedy k s' else None)
               (fun s' : mstate =>
                  if Nat.ltb (length (rest s')) (length (rest s))
                  then star_loop n (rmatch ic r) greedy k s' else None));
      [reflexivity|].
    intros s'. destruct (Nat.ltb _ _) eqn:El; [|reflexivity].
    apply Nat.ltb_lt in El. apply IH. lia.
Qed.

Lemma star_loop_fuel_enough ic r greedy k s n :
  length (rest s) <= n ->
  star_loop n (rmatch ic r) greedy k s = rmatch ic (Star greedy r) k s.
Proof.
  cbn [rmatch]. intros Hl.
  replace n with (length (rest s) + (n - length (rest s))) by lia.
  induction (n - length (rest s)) as [|d IH].
  - now rewrite Nat.add_0_r.
  - rewrite Nat.add_succ_r, star_loop_more_fuel by lia. exact IH.
Qed.

(* ----------------------------------------------------------------- *)
(** ** Literals *)

Lemma rmatch_Lit' ic w k s :
  rmatch ic (Lit' w) k s =
  match eat ic w s with Some s' => k s' | None => None end.
Proof.
  revert s. induction w as [|c w IH]; intros s; [reflexivity|].
  destruct w as [|c' w].
  - simpl. unfold step1. destruct (rest s) as [|a t]; [reflexivity|].
    destruct (char_matches ic c a); reflexivity.
  - change (Lit' (c :: c' :: w)) with (Seq (Char c) (Lit' (c' :: w))).
    cbn [rmatch]. unfold step1. cbn [eat].
    destruct (rest s) as [|a t]; [reflexivity|].
    destruct (char_matches ic c a); [|reflexivity].
    apply IH.
Qed.

Lemma eat_ci w t pv cp :
  eat true w (MState t pv cp) =
  if ci_prefix w t
  then Some (MState (skipn (length w) t)
                    (last_char pv (firstn (length w) t)) cp)
  else None.
Proof.
  revert t pv. induction w as [|c w IH]; intros t pv; [reflexivity|].
  destruct t as [|a t]; [reflexivity|]. cbn [eat rest cap ci_prefix].
  destruct (char_matches true c a); [|reflexivity].
  rewrite IH. reflexivity.
Qed.

Lemma last_char_app p u v :
  last_char p (u ++ v) = last_char (last_char p u) v.
Proof. unfold last_char. apply fold_left_app. Qed.

Lemma find_ci_none_prefix w t :
  find_ci w t = None -> ci_prefix w t = false.
Proof.
  destruct t; simpl; destruct (ci_prefix w _); congruence.
Qed.

Lemma find_ci_none_tail w a t :
  find_ci w (a :: t) = None -> find_ci w t = None.
Proof.
  simpl. destruct (ci_prefix w (a :: t)); [discriminate|].
  destruct (find_ci w t); [discriminate | reflexivity].
Qed.

Lemma find_ci_some w t n :
  find_ci w t = Some n ->
  ci_prefix w (skipn n t) = true /\ n <= length t.
Proof.
  revert n. induction t as [|a t IH]; intros n; simpl.
  - destruct (ci_prefix w []) eqn:E; [|discriminate].
    intros H; injection H as <-. auto.
  - destruct (ci_prefix w (a :: t)) eqn:E.
    + intros H; injection H as <-. split; [assumption | lia].
    + destruct (find_ci w t) as [m|]; [|discriminate].
      intros H; injection H as <-. destruct (IH m eq_refl). split; [assumption | lia].
Qed.

(** A pattern that opens with a literal can only match where the literal
    occurs. *)
Lemma scan_literal_none w r i p t :
  find_ci w t = None -> scan (re_i (Seq (Lit' w) r)) i p t = None.
Proof.
  revert i p. induction t as [|a t IH]; intros i p H.
  - apply find_ci_none_prefix in H. simpl.
    rewrite rmatch_Lit', eat_ci, H. reflexivity.
  - pose proof (find_ci_none_prefix _ _ H) as Hp.
    apply find_ci_none_tail in H.
    cbn [scan ignoreCase source re_i rmatch].
    rewrite rmatch_Lit', eat_ci, Hp. now apply IH.
Qed.

Lemma scan_literal_skip w r i p t n :
  find_ci w t = Some n ->
  scan (re_i (Seq (Lit' w) r)) i p t =
  scan (re_i (Seq (Lit' w) r)) (i + n) (last_char p (firstn n t)) (skipn n t).
Proof.
  revert i p n. induction t as [|a t IH]; intros i p n; simpl find_ci.
  - destruct (ci_prefix w []); [|discriminate].
    intros H; injection H as <-. rewrite Nat.add_0_r. reflexivity.
  - destruct (ci_prefix w (a :: t)) eqn:E.
    + intros H; injection H as <-. rewrite Nat.add_0_r. reflexivity.
    + destruct (find_ci w t) as [m|] eqn:F; [|discriminate].
      intros H; injection H as <-.
      cbn [scan ignoreCase source re_i rmatch].
      rewrite rmatch_Lit', eat_ci, E.
      rewrite (IH (S i) (Some a) m eq_refl).
      replace (S i + m) with (i + S m) by lia. reflexivity.
Qed.

(* ----------------------------------------------------------------- *)
(** ** Quantifiers over a character class *)

Lemma star_greedy_max p fuel k s x :
  length (rest s) <= fuel ->
  k (after_run p s) = Some x ->
  star_loop fuel (step1 p) true k s = Some x.
Proof.
  revert s. induction fuel as [|fuel IH]; intros [t pv cp]; simpl rest.
  - destruct t; simpl; [|lia]. intros _ H. exact H.
  - intros Hl H. cbn [star_loop]. unfold step1 at 1. cbn [rest cap].
    destruct t as [|a t].
    + exact H.
    + unfold after_run in H. cbn [rest prev cap drop_while take_while] in H.
      destruct (p a) eqn:Pa.
      * cbn [rest length]. 
        replace (Nat.ltb (length t) (S (length t))) with true
          by (symmetry; apply Nat.ltb_lt; lia).
        rewrite (IH (MState t (Some a) cp)); [reflexivity | simpl in *; lia |].
        exact H.
      * exact H.
Qed.

Lemma star_lazy_eq p fuel k t pv cp :
  length t <= fuel ->
  star_loop fuel (step1 p) false k (MState t pv cp) = lazy_scan p k t pv cp.
Proof.
  revert t pv. induction fuel as [|fuel IH]; intros t pv Hl.
  - destruct t; simpl in Hl; [|lia]. simpl.
    destruct (k _); reflexivity.
  - cbn [star_loop]. destruct t as [|a t].
    + simpl. destruct (k _); reflexivity.
    + cbn [lazy_scan]. destruct (k (MState (a :: t) pv cp)); [reflexivity|].
      unfold step1. cbn [rest cap]. destruct (p a); [|reflexivity].
      cbn [rest length].
      replace (Nat.ltb (length t) (S (length t))) with true
        by (symmetry; apply Nat.ltb_lt; lia).
      apply IH. simpl in Hl. lia.
Qed.

Lemma rmatch_star_greedy ic negated items k s x :
  k (after_run (class_matches ic negated items) s) = Some x ->
  rmatch ic (Star true (Class negated items)) k s = Some x.
Proof.
  intros H. cbn [rmatch].
  apply (star_greedy_max (class_matches ic negated items)); [lia | exact H].
Qed.

Lemma rmatch_plus_greedy ic negated items k a t pv cp x :
  class_matches ic negated items a = true ->
  k (after_run (class_matches ic negated items) (MState (a :: t) pv cp)) = Some x ->
  rmatch ic (Plus (Class negated items)) k (MState (a :: t) pv cp) = Some x.
Proof.
  intros Ha H. unfold Plus. cbn [rmatch]. unfold step1 at 1. cbn [rest cap].
  rewrite Ha.
  apply (star_greedy_max (class_matches ic negated items)); [simpl; lia|].
  unfold after_run in *. cbn [rest prev cap drop_while take_while] in *.
  rewrite Ha in H. exact H.
Qed.

Lemma rmatch_plus_fail ic negated items k s :
  match rest s with
  | a :: _ => class_matches ic negated items a = false
  | [] => True
  end ->
  rmatch ic (Plus (Class negated items)) k s = None.
Proof.
  unfold Plus. cbn [rmatch]. unfold step1 at 1.
  destruct (rest s); [reflexivity|]. intros ->. reflexivity.
Qed.

Lemma class_digit ic c : class_matches ic false [CDigit] c = is_digit c.
Proof. unfold class_matches; simpl. destruct (is_digit c); reflexivity. Qed.

Lemma class_space ic c : class_matches ic false [CSpace] c = is_space c.
Proof. unfold class_matches; simpl. destruct (is_space c); reflexivity. Qed.

Lemma class_any ic c : class_matches ic true [] c = true.
Proof. reflexivity. Qed.

Lemma skipn_length_app (u v : str) : skipn (length u) (u ++ v) = v.
Proof. induction u; simpl; auto. Qed.

Lemma firstn_length_app (u v : str) : firstn (length u) (u ++ v) = u.
Proof. induction u; simpl; [destruct v|]; congruence. Qed.

Lemma firstn_consumed (u v : str) :
  firstn (length (u ++ v) - length v) (u ++ v) = u.
Proof.
  rewrite length_app. replace (length u + length v - length v) with (length u) by lia.
  apply firstn_length_app.
Qed.

Lemma char_matches_refl ic c : char_matches ic c c = true.
Proof. unfold char_matches, char_eqb. destruct ic; apply N.eqb_refl. Qed.

Lemma ci_prefix_self_app w t : ci_prefix w (w ++ t) = true.
Proof.
  induction w as [|c w IH]; [reflexivity|]. cbn [ci_prefix app].
  rewrite char_matches_refl. exact IH.
Qed.

(** Whether [t] starts with [w] depends on the first [length w]
    characters only. *)
Lemma ci_prefix_app w u t :
  length w <= length u -> ci_prefix w (u ++ t) = ci_prefix w u.
Proof.
  revert u. induction w as [|c w IH]; intros u H; [reflexivity|].
  destruct u as [|a u]; simpl in H; [lia|]. cbn [ci_prefix app].
  rewrite IH by lia. reflexivity.
Qed.

Lemma take_while_app p u v :
  forallb p u = true -> head_fails p v -> take_while p (u ++ v) = u.
Proof.
  induction u as [|a u IH]; simpl.
  - intros _ H. destruct v; [reflexivity|]. simpl in *. now rewrite H.
  - intros H Hv. apply andb_prop in H as [-> H]. now rewrite IH.
Qed.

Lemma drop_while_app p u v :
  forallb p u = true -> head_fails p v -> drop_while p (u ++ v) = v.
Proof.
  induction u as [|a u IH]; simpl.
  - intros _ H. destruct v; [reflexivity|]. simpl in *. now rewrite H.
  - intros H Hv. apply andb_prop in H as [-> H]. now apply IH.
Qed.

Lemma after_run_app p u v pv cp :
  forallb p u = true -> head_fails p v ->
  after_run p (MState (u ++ v) pv cp) = MState v (last_char pv u) cp.
Proof.
  intros Hu Hv. unfold after_run. cbn [rest prev cap].
  now rewrite take_while_app, drop_while_app.
Qed.

Lemma forallb_ext_in (p q : char -> bool) u :
  (forall c, p c = q c) -> forallb p u = forallb q u.
Proof. intros H. induction u; simpl; [reflexivity|]. now rewrite H, IHu. Qed.

(** [(\d+)] at the end of a pattern, in front of the digits [ds]. *)
Lemma group_digits_end ic d ds post pv cp :
  is_digit d = true -> forallb is_digit ds = true ->
  starts_with_digit post = false ->
  rmatch ic (Group (Plus Digit)) Some (MState ((d :: ds) ++ post) pv cp) =
  Some (MState post (last_char pv (d :: ds)) (Some (d :: ds))).
Proof.
  intros Hd Hds Hp. cbn [rmatch]. unfold Digit.
  change ((d :: ds) ++ post) with (d :: (ds ++ post)).
  apply rmatch_plus_greedy.
  - now rewrite class_digit.
  - change (d :: ds ++ post) with ((d :: ds) ++ post).
    rewrite after_run_app.
    + cbn [rest prev cap]. rewrite firstn_consumed. reflexivity.
    + rewrite (forallb_ext_in _ is_digit) by apply class_digit.
      simpl. now rewrite Hd, Hds.
    + destruct post as [|c post]; [exact I|]. unfold head_fails.
      rewrite class_digit. exact Hp.
Qed.


Lemma scan_here R i p t m :
  rmatch (ignoreCase R) (source R) Some (MState t p None) = Some m ->
  scan R i p t = Some (JsMatch i m).
Proof. intros H. destruct t; simpl; now rewrite H. Qed.

Lemma scan_next R i p a t :
  rmatch (ignoreCase R) (source R) Some (MState (a :: t) p None) = None ->
  scan R i p (a :: t) = scan R (S i) (Some a) t.
Proof. intros H. simpl. now rewrite H. Qed.

Lemma find_ci_app_none w u v :
  find_ci w v = None ->
  (forall n, n < length u -> ci_prefix w (skipn n (u ++ v)) = false) ->
  find_ci w (u ++ v) = None.
Proof.
  intros Hv. induction u as [|a u IH]; intros H; [exact Hv|].
  cbn [app find_ci].
  pose proof (H 0 ltac:(simpl; lia)) as H0. cbn [skipn app] in H0. rewrite H0.
  rewrite IH; [reflexivity|].
  intros n Hn. apply (H (S n)). simpl. lia.
Qed.

(* ================================================================= *)
(** * Character classes *)

Lemma in_range_spec lo hi c :
  in_range lo hi c = true <-> (lo <= c /\ c <= hi)%N.
Proof.
  unfold in_range. rewrite andb_true_iff, !N.leb_le. tauto.
Qed.

Lemma in_range_out lo hi c :
  (c < lo \/ hi < c)%N -> in_range lo hi c = false.
Proof.
  intros H. destruct (in_range lo hi c) eqn:E; [|reflexivity].
  apply in_range_spec in E. lia.
Qed.

Lemma digit_not_space c : is_digit c = true -> is_space c = false.
Proof.
  unfold is_digit. intros H. apply in_range_spec in H.
  unfold is_space.
  rewrite !in_range_out by lia.
  repeat match goal with
         | |- context [N.eqb c ?n] =>
             replace (N.eqb c n) with false by (symmetry; apply N.eqb_neq; lia)
         end.
  reflexivity.
Qed.

Lemma space_not_digit c : is_space c = true -> is_digit c = false.
Proof.
  intros H. destruct (is_digit c) eqn:E; [|reflexivity].
  apply digit_not_space in E. congruence.
Qed.

(* ================================================================= *)
(** * Global replacement *)

(** [replace] with the [g] flag computes [spec] as soon as [spec]
    unfolds along the matches of the pattern. *)
Lemma replace_loop_spec R repl (spec : str -> str) :
  (forall p t,
      match scan R 0 p t with
      | None => spec t = t
      | Some m =>
          length (rest (final m)) < length (skipn (index m) t)
          /\ spec t = firstn (index m) t ++ repl ++ spec (rest (final m))
      end) ->
  forall fuel p t, length t < fuel -> replace_loop fuel R repl p t = spec t.
Proof.
  intros H. induction fuel as [|fuel IH]; intros p t Hl; [lia|].
  cbn [replace_loop]. specialize (H p t).
  destruct (scan R 0 p t) as [m|]; [|now symmetry].
  destruct H as [Hlt ->].
  pose proof (proj2 (Nat.ltb_lt _ _) Hlt) as ->.
  rewrite IH; [reflexivity|].
  rewrite length_skipn in Hlt. lia.
Qed.

Lemma collapse_cons c t :
  collapse_spaces (c :: t) =
  if is_space c
  then match t with
       | c' :: _ => if is_space c' then collapse_spaces t
                    else 32%N :: collapse_spaces t
       | [] => [32%N]
       end
  else c :: collapse_spaces t.
Proof. destruct t; reflexivity. Qed.

Lemma collapse_space_head c t :
  is_space c = true ->
  collapse_spaces (c :: t) = 32%N :: collapse_spaces (drop_space t).
Proof.
  revert c. induction t as [|c' t IH]; intros c Hc.
  - simpl. now rewrite Hc.
  - rewrite collapse_cons, Hc. cbn [drop_space].
    destruct (is_space c') eqn:Hc'; [now apply IH | reflexivity].
Qed.

Lemma collapse_other_head c t :
  is_space c = false -> collapse_spaces (c :: t) = c :: collapse_spaces t.
Proof. intros Hc. rewrite collapse_cons. now rewrite Hc. Qed.

Lemma drop_space_drop_while t : drop_while is_space t = drop_space t.
Proof. induction t as [|c t IH]; simpl; [reflexivity|]. now rewrite IH. Qed.

Lemma drop_while_ext (p q : char -> bool) t :
  (forall c, p c = q c) -> drop_while p t = drop_while q t.
Proof. intros H. induction t as [|c t IH]; simpl; [reflexivity|]. now rewrite H, IH. Qed.

Lemma take_while_ext (p q : char -> bool) t :
  (forall c, p c = q c) -> take_while p t = take_while q t.
Proof. intros H. induction t as [|c t IH]; simpl; [reflexivity|]. now rewrite H, IH. Qed.

Lemma length_drop_space t : length (drop_space t) <= length t.
Proof.
  induction t as [|c t IH]; simpl; [lia|]. destruct (is_space c); simpl; lia.
Qed.

(** Where [/\s+/] matches next: at the first whitespace character, over
    the whole run. *)
Lemma scan_spaces i p t :
  match scan Pat.spaces i p t with
  | None => collapse_spaces t = t
  | Some m =>
      length (rest (final m)) < length (skipn (index m - i) t)
      /\ i <= index m
      /\ collapse_spaces t =
         firstn (index m - i) t ++ lit " " ++ collapse_spaces (rest (final m))
  end.
Proof.
  revert i p. induction t as [|c t IH]; intros i p.
  - reflexivity.
  - destruct (is_space c) eqn:Hc.
    + assert (E : rmatch false (Plus Space) Some (MState (c :: t) p None)
                  = Some (after_run (class_matches false false [CSpace])
                                    (MState (c :: t) p None))).
      { unfold Space. apply rmatch_plus_greedy; [now rewrite class_space | reflexivity]. }
      unfold Pat.spaces. rewrite (@scan_here (re (Plus Space)) i p _ _ E).
      cbn [index final]. rewrite Nat.sub_diag. cbn [skipn firstn app].
      unfold after_run. cbn [rest prev cap drop_while].
      rewrite class_space, Hc.
      rewrite (@drop_while_ext (class_matches true false [CSpace]) is_space _
             (class_space true)).
      rewrite drop_space_drop_while.
      split; [|split].
      * pose proof (length_drop_space t). simpl. lia.
      * lia.
      * now apply collapse_space_head.
    + assert (E : rmatch false (Plus Space) Some (MState (c :: t) p None) = None).
      { unfold Space. apply rmatch_plus_fail. cbn [rest].
        now rewrite class_space. }
      unfold Pat.spaces in *. rewrite (@scan_next (re (Plus Space)) i p _ _ E).
      specialize (IH (S i) (Some c)).
      destruct (scan (re (Plus Space)) (S i) (Some c) t) as [m|].
      * destruct IH as (H1 & H2 & H3).
        replace (index m - i) with (S (index m - S i)) by lia.
        cbn [skipn firstn app]. split; [exact H1|]. split; [lia|].
        rewrite collapse_other_head by exact Hc. now rewrite H3.
      * rewrite collapse_other_head by exact Hc. now rewrite IH.
Qed.

Lemma replace_spaces t :
  replace_all Pat.spaces (lit " ") t = collapse_spaces t.
Proof.
  unfold replace_all. apply replace_loop_spec; [|lia].
  intros p u. pose proof (scan_spaces 0 p u) as H.
  destruct (scan Pat.spaces 0 p u) as [m|]; [|exact H].
  rewrite Nat.sub_0_r in H. destruct H as (H1 & _ & H3). now split.
Qed.

(* ================================================================= *)
(** * Ingredient extraction *)

Lemma space_range c : is_space c = true -> (c <= 32 \/ 160 <= c)%N.
Proof.
  unfold is_space. rewrite !orb_true_iff, !in_range_spec, !N.eqb_eq. lia.
Qed.

Lemma space_no_match p c :
  is_space c = true -> (32 < p < 160)%N -> char_matches true p c = false.
Proof.
  intros Hc Hp. apply space_range in Hc.
  unfold char_matches, char_eqb, canonicalize.
  rewrite (@in_range_out 97%N 122%N c) by lia.
  apply N.eqb_neq.
  destruct (in_range 97%N 122%N p) eqn:E; [apply in_range_spec in E|]; lia.
Qed.

Lemma ci_prefix_head_fail p w c t :
  char_matches true p c = false -> ci_prefix (p :: w) (c :: t) = false.
Proof. intros H. cbn [ci_prefix]. now rewrite H. Qed.

Lemma space_not_delimiter c t :
  is_space c = true -> at_delimiter (c :: t) = false.
Proof.
  intros Hc. unfold at_delimiter.
  change (lit "*") with [ch "*"].
  change (lit "Contains:") with (ch "C" :: lit "ontains:").
  change (lit "Allergen") with (ch "A" :: lit "llergen").
  change (lit "Nutrition") with (ch "N" :: lit "utrition").
  rewrite !ci_prefix_head_fail; [reflexivity | | | |];
    apply space_no_match; try exact Hc; unfold ch; simpl; lia.
Qed.

Lemma upto_delimiter_spaces t :
  upto_delimiter t = take_while is_space t ++ upto_delimiter (drop_space t).
Proof.
  induction t as [|c t IH]; [reflexivity|].
  cbn [take_while drop_space]. destruct (is_space c) eqn:Hc; [|reflexivity].
  cbn [upto_delimiter]. rewrite space_not_delimiter by exact Hc.
  rewrite IH at 1. reflexivity.
Qed.

Lemma take_while_all p t : forallb p (take_while p t) = true.
Proof.
  induction t as [|c t IH]; [reflexivity|]. simpl.
  destruct (p c) eqn:E; [|reflexivity]. simpl. now rewrite E.
Qed.

Lemma drop_space_spaces u v :
  forallb is_space u = true -> drop_space (u ++ v) = drop_space v.
Proof.
  induction u as [|c u IH]; [reflexivity|]. simpl.
  intros H. apply andb_prop in H as [-> H]. now apply IH.
Qed.

Lemma trim_upto_delimiter t :
  trim (upto_delimiter (drop_space t)) = trim (upto_delimiter t).
Proof.
  rewrite (upto_delimiter_spaces t). unfold trim.
  rewrite (drop_space_spaces _ _ (take_while_all is_space t)). reflexivity.
Qed.

(** The lookahead of the ingredients pattern succeeds exactly at a
    delimiter, and leaves the state as it was. *)
Lemma lookahead_delimiter s :
  rmatch true
    (Lookahead (alts [Char (ch "*"); Lit "Contains:"; Lit "Allergen";
                      Lit "Nutrition"; EndOfInput])) Some s =
  if at_delimiter (rest s) then Some s else None.
Proof.
  destruct s as [t pv cp]. unfold alts, Lit, at_delimiter.
  cbn [rmatch rest prev cap]. rewrite !rmatch_Lit', !eat_ci.
  change (lit "*") with [ch "*"].
  unfold step1. cbn [rest cap].
  destruct t as [|a t].
  - reflexivity.
  - cbn [ci_prefix]. destruct (char_matches true (ch "*") a); [reflexivity|].
    cbn [andb orb].
    destruct (ci_prefix (lit "Contains:") (a :: t)); [reflexivity|].
    destruct (ci_prefix (lit "Allergen") (a :: t)); [reflexivity|].
    destruct (ci_prefix (lit "Nutrition") (a :: t)); reflexivity.
Qed.

Lemma upto_delimiter_at t : at_delimiter t = true -> upto_delimiter t = [].
Proof. destruct t; [reflexivity|]. cbn [upto_delimiter]. now intros ->. Qed.

Lemma upto_delimiter_step a t :
  at_delimiter (a :: t) = false ->
  upto_delimiter (a :: t) = a :: upto_delimiter t.
Proof. cbn [upto_delimiter]. now intros ->. Qed.

(** The lazy group in front of the lookahead captures the text up to the
    first delimiter. *)
Lemma lazy_group_upto (t0 : str) (K : cont) :
  (forall s, K s = if at_delimiter (rest s) then Some s else None) ->
  forall t u pv cp,
    t0 = u ++ t ->
    exists m,
      lazy_scan (fun _ => true)
        (fun s' => K (MState (rest s') (prev s')
                        (Some (firstn (length t0 - length (rest s')) t0))))
        t pv cp = Some m
      /\ cap m = Some (u ++ upto_delimiter t).
Proof.
  intros HK. induction t as [|a t IH]; intros u pv cp Ht.
  - cbn [lazy_scan rest prev]. rewrite HK. cbn [rest].
    change (at_delimiter []) with true. cbn iota.
    eexists. split; [reflexivity|].
    cbn [cap]. subst t0. rewrite firstn_consumed.
    cbn [upto_delimiter]. now rewrite app_nil_r.
  - cbn [lazy_scan rest prev]. rewrite HK. cbn [rest].
    destruct (at_delimiter (a :: t)) eqn:E.
    + eexists. split; [reflexivity|]. cbn [cap]. subst t0.
      rewrite firstn_consumed, upto_delimiter_at by exact E.
      now rewrite app_nil_r.
    + destruct (IH (u ++ [a]) (Some a) cp) as (m & Hm & Hc).
      { rewrite <- app_assoc. exact Ht. }
      exists m. split; [exact Hm|]. rewrite Hc.
      rewrite upto_delimiter_step by exact E. now rewrite <- app_assoc.
Qed.

Lemma exec_ingredients text n :
  find_ci (lit "Ingredients:") text = Some n ->
  exists m,
    exec Pat.ingredients text = Some m
    /\ group1 m = Some (upto_delimiter (drop_space (skipn (n + 12) text))).
Proof.
  intros Hf. unfold exec, Pat.ingredients.
  set (look := Lookahead _).
  change (seqs [Lit "Ingredients:"; Star true Space; Group (Star false AnyChar); look])
    with (Seq (Lit' (lit "Ingredients:"))
              (Seq (Star true Space) (Seq (Group (Star false AnyChar)) look))).
  rewrite (@scan_literal_skip _ _ _ _ _ _ Hf), Nat.add_0_l.
  destruct (find_ci_some _ _ Hf) as [Hp _].
  set (s2 := after_run (class_matches true false [CSpace])
               (MState (skipn 12 (skipn n text))
                       (last_char (last_char None (firstn n text))
                                  (firstn 12 (skipn n text))) None)).
  destruct (@lazy_group_upto (rest s2) (rmatch true look Some)
              (fun s => lookahead_delimiter s) (rest s2) [] (prev s2) (cap s2) eq_refl)
    as (m & Hm & Hc).
  exists (JsMatch n m). split.
  - apply scan_here. cbn [ignoreCase source re_i rmatch].
    rewrite rmatch_Lit', eat_ci, Hp.
    unfold Space. apply rmatch_star_greedy.
    change (length (lit "Ingredients:")) with 12. fold s2.
    cbn [rmatch]. unfold AnyChar.
    destruct s2 as [t2 pv2 cp2] eqn:Es2. cbn [rest prev cap] in *.
    change (rmatch true (Class true []))
      with (step1 (class_matches true true [])).
    rewrite (star_lazy_eq (class_matches true true [])) by lia.
    exact Hm.
  - unfold group1. cbn [final]. rewrite Hc. cbn [app]. unfold s2, after_run.
    cbn [rest]. rewrite (drop_while_ext _ is_space) by apply class_space.
    rewrite drop_space_drop_while, skipn_skipn. 
    replace (12 + n) with (n + 12) by lia. reflexivity.
Qed.

(** C4.  When the modal text holds an [Ingredients:] label, the field is
    the text after the first label up to the first section delimiter,
    trimmed, with every whitespace run collapsed to one space, cut at
    2000 characters.  So it never exceeds 2000 characters; it has exactly
    2000 whenever the trimmed and collapsed block has that many; and a
    block of 3000 characters whose whitespace is already single and
    interior yields its first 2000 characters.  Without a label the field
    is the empty string. *)
Theorem ingredients_extraction :
  (forall text n,
      find_ci (lit "Ingredients:") text = Some n ->
      extractIngredients text = Ok (ingredients_of (skipn (n + 12) text))
      /\ length (ingredients_of (skipn (n + 12) text)) <= 2000)
  /\ (forall text n,
      find_ci (lit "Ingredients:") text = Some n ->
      2000 <= length (collapse_spaces (trim (upto_delimiter (skipn (n + 12) text)))) ->
      exists v, extractIngredients text = Ok v /\ length v = 2000)
  /\ (forall text n block,
      find_ci (lit "Ingredients:") text = Some n ->
      upto_delimiter (skipn (n + 12) text) = block ->
      length block = 3000 ->
      collapse_spaces (trim block) = block ->
      extractIngredients text = Ok (firstn 2000 block)
      /\ length (firstn 2000 block) = 2000)
  /\ (forall text,
      find_ci (lit "Ingredients:") text = None ->
      extractIngredients text = Ok []).
Proof.
  assert (A : forall text n,
      find_ci (lit "Ingredients:") text = Some n ->
      extractIngredients text = Ok (ingredients_of (skipn (n + 12) text))).
  { intros text n Hf. destruct (exec_ingredients _ Hf) as (m & Hm & Hg).
    unfold extractIngredients, ingredients_of, substring0.
    rewrite Hm, Hg, replace_spaces, trim_upto_delimiter. reflexivity. }
  split; [|split; [|split]].
  - intros text n Hf. split; [now apply A|].
    unfold ingredients_of. rewrite length_firstn. lia.
  - intros text n Hf Hl. exists (ingredients_of (skipn (n + 12) text)).
    split; [apply (A _ _ Hf)|].
    unfold ingredients_of. rewrite length_firstn. lia.
  - intros text n block Hf Hb Hl Hc. rewrite (A _ _ Hf).
    unfold ingredients_of. rewrite Hb, Hc. split; [reflexivity|].
    rewrite length_firstn. lia.
  - intros text Hf. unfold extractIngredients, exec, Pat.ingredients.
    set (look := Lookahead _).
    change (seqs [Lit "Ingredients:"; Star true Space; Group (Star false AnyChar); look])
      with (Seq (Lit' (lit "Ingredients:"))
                (Seq (Star true Space) (Seq (Group (Star false AnyChar)) look))).
    now rewrite scan_literal_none.
Qed.

(* ================================================================= *)
(** * The run: what each step does to [allData] *)

Section RunFacts.

Variable B : Browser.

Lemma keeps_ret A (a : A) : keeps (@ret B A a).
Proof. intros w. reflexivity. Qed.

Lemma keeps_throw A e : keeps (@throw B A e).
Proof. intros w. reflexivity. Qed.

Lemma keeps_getPage : keeps (@getPage B).
Proof. intros w. reflexivity. Qed.

Lemma keeps_print l x : keeps (@print B l x).
Proof. intros w. reflexivity. Qed.

Lemma keeps_sleep ms : keeps (@sleep B ms).
Proof. intros w. reflexivity. Qed.

Lemma keeps_doClick (elem : Elem B) : keeps (doClick elem).
Proof.
  intros w. unfold doClick.
  destruct (click B (page w) elem) as [p [e|]]; reflexivity.
Qed.

Lemma keeps_liftR A (r : result A) : keeps (@liftR B A r).
Proof. intros w. reflexivity. Qed.

Lemma keeps_bind A C (c : M B A) (f : A -> M B C) :
  keeps c -> (forall a, keeps (f a)) -> keeps (bind c f).
Proof.
  intros Hc Hf w. unfold bind. specialize (Hc w).
  destruct (c w) as [[a|e] w1]; simpl in *; [|exact Hc].
  rewrite Hf. exact Hc.
Qed.

Lemma keeps_try_catch A (c : M B A) (h : exn -> M B A) :
  keeps c -> (forall e, keeps (h e)) -> keeps (try_catch c h).
Proof.
  intros Hc Hh w. unfold try_catch. specialize (Hc w).
  destruct (c w) as [[a|e] w1]; simpl in *; [exact Hc|].
  rewrite Hh. exact Hc.
Qed.

Lemma keeps_forOf A (xs : list A) (body : A -> M B unit) :
  (forall x, keeps (body x)) -> keeps (forOf xs body).
Proof.
  intros H. induction xs as [|x xs IH]; simpl.
  - apply keeps_ret.
  - apply keeps_bind; auto.
Qed.

Lemma keeps_adds A P (c : M B A) : keeps c -> adds P c.
Proof.
  intros H w. exists []. rewrite app_nil_r. split; [apply H | constructor].
Qed.

Lemma adds_bind A C P (c : M B A) (f : A -> M B C) :
  adds P c -> (forall a, adds P (f a)) -> adds P (bind c f).
Proof.
  intros Hc Hf w. unfold bind. destruct (Hc w) as (l1 & E1 & F1).
  destruct (c w) as [[a|e] w1]; simpl in *.
  - destruct (Hf a w1) as (l2 & E2 & F2). exists (l1 ++ l2).
    rewrite E2, E1, app_assoc. split; [reflexivity|].
    apply Forall_app; auto.
  - exists l1. auto.
Qed.

Lemma adds_try_catch A P (c : M B A) (h : exn -> M B A) :
  adds P c -> (forall e, adds P (h e)) -> adds P (try_catch c h).
Proof.
  intros Hc Hh w. unfold try_catch. destruct (Hc w) as (l1 & E1 & F1).
  destruct (c w) as [[a|e] w1]; simpl in *.
  - exists l1. auto.
  - destruct (Hh e w1) as (l2 & E2 & F2). exists (l1 ++ l2).
    rewrite E2, E1, app_assoc. split; [reflexivity|].
    apply Forall_app; auto.
Qed.

Lemma adds_forOf A P (xs : list A) (body : A -> M B unit) :
  (forall x, adds P (body x)) -> adds P (forOf xs body).
Proof.
  intros H. induction xs as [|x xs IH]; simpl.
  - apply keeps_adds, keeps_ret.
  - apply adds_bind; auto.
Qed.

Lemma adds_forIndex A P (xs : list A) (body : nat -> A -> M B unit) i :
  (forall i x, adds P (body i x)) -> adds P (forIndex i xs body).
Proof.
  intros H. revert i. induction xs as [|x xs IH]; intros i; simpl.
  - apply keeps_adds, keeps_ret.
  - apply adds_bind; auto.
Qed.

Lemma adds_pushData (P : object -> Prop) d : P d -> adds P (@pushData B d).
Proof.
  intros H w. exists [d]. split; [reflexivity | constructor; auto].
Qed.

Lemma keeps_closeWith sels : keeps (@closeWith B sels).
Proof.
  induction sels as [|sel sels IH]; cbn [closeWith].
  - apply keeps_bind; [intros w; reflexivity | intros _; apply keeps_sleep].
  - apply keeps_bind; [apply keeps_getPage|]. intros p.
    destruct (querySelector B p None sel) as [btn|]; [|exact IH].
    destruct (offsetParent B p btn); [|exact IH].
    apply keeps_bind; [apply keeps_doClick | intros _; apply keeps_sleep].
Qed.

Lemma keeps_extractNutritionFromModal : keeps (@extractNutritionFromModal B).
Proof.
  unfold extractNutritionFromModal. apply keeps_bind; [apply keeps_getPage|].
  intros p. destruct (findModal B p).
  - apply keeps_liftR.
  - apply keeps_bind; [apply keeps_print | intros _; apply keeps_ret].
Qed.

Lemma keeps_scrapeItemRow row rn mp : keeps (@scrapeItemRow B row rn mp).
Proof.
  unfold scrapeItemRow. apply keeps_bind; [apply keeps_getPage|]. intros p.
  destruct (querySelector B p (Some row) SelItemLink) as [itemLink|].
  - destruct (_ || _); [apply keeps_ret|].
    apply keeps_bind; [apply keeps_doClick | intros _].
    apply keeps_bind; [apply keeps_sleep | intros _].
    apply keeps_bind; [apply keeps_extractNutritionFromModal | intros nd].
    apply keeps_bind; [apply keeps_closeWith | intros _; apply keeps_ret].
  - apply keeps_bind; [apply keeps_print | intros _; apply keeps_ret].
Qed.

Lemma keeps_expandAllCategories : keeps (@expandAllCategories B).
Proof.
  unfold expandAllCategories. apply keeps_forOf. intros sel.
  apply keeps_bind; [apply keeps_getPage | intros p].
  apply keeps_forOf. intros elem.
  apply keeps_bind; [apply keeps_getPage | intros p'].
  destruct (_ || _); [|apply keeps_ret].
  apply keeps_bind; [apply keeps_doClick | intros _; apply keeps_sleep].
Qed.

End RunFacts.

(* ================================================================= *)
(** * One item row *)

Section ItemFacts.

Variable B : Browser.

(** What a record returned by [scrapeItemRow] is made of. *)
Lemma scrapeItemRow_spec (row : Elem B) rn mp w itemData w' :
  scrapeItemRow row rn mp w = (Ok (Some itemData), w') ->
  exists itemLink p1 nutritionData,
    querySelector B (page w) (Some row) SelItemLink = Some itemLink
    /\ pageAfterClick B (page w) row = Some p1
    /\ match findModal B p1 with
       | Some modal => extractNutrition (textContent B p1 modal) = Ok nutritionData
       | None => nutritionData = []
       end
    /\ itemData =
       assign
         (assign [] [
            (lit "restaurant", JStr rn);
            (lit "meal_period", JStr mp);
            (lit "item_name", JStr (trim (textContent B (page w) itemLink)));
            (lit "serving_size", JStr (getServingSize B (page w) row));
            (lit "dietary_labels", JStr (getDietaryLabels B (page w) row))])
         nutritionData.
Proof.
  unfold scrapeItemRow, pageAfterClick. intros H.
  destruct w as [p ad n con dl]. cbn [page].
  cbv beta iota zeta delta
      [bind ret getPage sleep doClick liftR print extractNutritionFromModal
       setPage page allData totalItemsScraped console downloads] in H.
  destruct (querySelector B p (Some row) SelItemLink) as [itemLink|];
    [|discriminate H].
  destruct (_ || _); [discriminate H|].
  destruct (click B p itemLink) as [p' [e|]]; [discriminate H|].
  set (p1 := wait B CONFIG.delayBetweenClicks p') in *.
  destruct (findModal B p1) as [modal|] eqn:Em.
  - destruct (extractNutrition (textContent B p1 modal)) as [nd|e] eqn:En;
      [|discriminate H].
    destruct (closeModal _) as [[[]|e] w2]; [|discriminate H].
    injection H as <- _.
    exists itemLink, p1, nd. rewrite Em. repeat split. exact En.
  - destruct (closeModal _) as [[[]|e] w2]; [|discriminate H].
    injection H as <- _.
    exists itemLink, p1, []. rewrite Em. repeat split.
Qed.

End ItemFacts.

(* ================================================================= *)
(** * The text extractor never throws *)

Lemma extractMatch_total text R :
  captures (source R) = true ->
  exists v, extractMatch text R = Ok v /\ (exec R text = None -> v = []).
Proof.
  intros HR. unfold extractMatch.
  destruct (exec R text) as [m|] eqn:E.
  - pose proof (scan_group1 _ _ _ _ HR E) as Hg.
    destruct (group1 m) as [g|]; [|congruence].
    exists (trim g). split; [reflexivity | discriminate].
  - exists []. split; reflexivity.
Qed.

Lemma extractCalories_total text :
  exists v,
    extractCalories text = Ok (JStr v)
    /\ (exec Pat.calories1 text = None -> exec Pat.calories2 text = None ->
        exec Pat.calories3 text = None -> exec Pat.calories4 text = None ->
        v = []).
Proof.
  unfold extractCalories.
  destruct (@extractMatch_total text Pat.calories1 eq_refl) as (v1 & E1 & M1).
  destruct (@extractMatch_total text Pat.calories2 eq_refl) as (v2 & E2 & M2).
  destruct (@extractMatch_total text Pat.calories3 eq_refl) as (v3 & E3 & M3).
  rewrite E1. cbn [rbind].
  destruct v1 as [|c1 v1]; cbn [truthy].
  2:{ eexists. split; [reflexivity|]. intros H. now apply M1 in H. }
  rewrite E2. cbn [rbind].
  destruct v2 as [|c2 v2]; cbn [truthy].
  2:{ eexists. split; [reflexivity|]. intros _ H. now apply M2 in H. }
  rewrite E3. cbn [rbind].
  destruct v3 as [|c3 v3]; cbn [truthy].
  2:{ eexists. split; [reflexivity|]. intros _ _ H. now apply M3 in H. }
  destruct (exec Pat.calories4 text) as [m|] eqn:E4.
  - pose proof (@scan_group1 Pat.calories4 _ _ _ _ eq_refl E4) as Hg.
    destruct (group1 m) as [g|]; [|congruence].
    exists g. split; [reflexivity|]. discriminate.
  - exists []. split; reflexivity.
Qed.

Lemma extractServing_total text :
  exists v,
    extractServing text = Ok v
    /\ (exec Pat.serving1 text = None -> exec Pat.serving2 text = None ->
        exec Pat.serving3 text = None -> v = []).
Proof.
  unfold extractServing.
  destruct (@extractMatch_total text Pat.serving1 eq_refl) as (v1 & E1 & M1).
  destruct (@extractMatch_total text Pat.serving2 eq_refl) as (v2 & E2 & M2).
  destruct (@extractMatch_total text Pat.serving3 eq_refl) as (v3 & E3 & M3).
  rewrite E1. cbn [rbind].
  destruct v1 as [|c1 v1]; cbn [truthy].
  2:{ eexists. split; [reflexivity|]. intros H. now apply M1 in H. }
  rewrite E2. cbn [rbind].
  destruct v2 as [|c2 v2]; cbn [truthy].
  2:{ eexists. split; [reflexivity|]. intros _ H. now apply M2 in H. }
  rewrite E3. exists v3. split; [reflexivity|]. intros _ _. exact M3.
Qed.

Lemma extractIngredients_total text :
  exists v,
    extractIngredients text = Ok v
    /\ (exec Pat.ingredients text = None -> v = []).
Proof.
  unfold extractIngredients.
  destruct (exec Pat.ingredients text) as [m|] eqn:E.
  - pose proof (@scan_group1 Pat.ingredients _ _ _ _ eq_refl E) as Hg.
    destruct (group1 m) as [g|]; [|congruence].
    eexists. split; [reflexivity | discriminate].
  - exists []. split; reflexivity.
Qed.

(** The nutrition object of a modal text: twelve string properties, in
    source order, each empty when its patterns found nothing. *)
Lemma extractNutrition_shape text :
  exists sv cal tf sf trf cho sod tc fib sug pro ing,
    extractNutrition text = Ok [
      (lit "serving_size", JStr sv); (lit "calories", JStr cal);
      (lit "total_fat_g", JStr tf); (lit "saturated_fat_g", JStr sf);
      (lit "trans_fat_g", JStr trf); (lit "cholesterol_mg", JStr cho);
      (lit "sodium_mg", JStr sod); (lit "total_carbs_g", JStr tc);
      (lit "fiber_g", JStr fib); (lit "sugars_g", JStr sug);
      (lit "protein_g", JStr pro); (lit "ingredients", JStr ing)]
    /\ extractServing text = Ok sv
    /\ (Forall (fun R => exec R text = None)
               [Pat.serving1; Pat.serving2; Pat.serving3] -> sv = [])
    /\ (Forall (fun R => exec R text = None)
               [Pat.calories1; Pat.calories2; Pat.calories3; Pat.calories4] ->
        cal = [])
    /\ (exec Pat.total_fat text = None -> tf = [])
    /\ (exec Pat.saturated_fat text = None -> sf = [])
    /\ (exec Pat.trans_fat text = None -> trf = [])
    /\ (exec Pat.cholesterol text = None -> cho = [])
    /\ (exec Pat.sodium text = None -> sod = [])
    /\ (exec Pat.total_carbs text = None -> tc = [])
    /\ (exec Pat.fiber text = None -> fib = [])
    /\ (exec Pat.sugars text = None -> sug = [])
    /\ (exec Pat.protein text = None -> pro = [])
    /\ (exec Pat.ingredients text = None -> ing = []).
Proof.
  destruct (extractCalories_total text) as (cal & Ecal & Mcal).
  destruct (extractServing_total text) as (sv & Esv & Msv).
  destruct (@extractMatch_total text Pat.total_fat eq_refl) as (tf & Etf & Mtf).
  destruct (@extractMatch_total text Pat.saturated_fat eq_refl) as (sf & Esf & Msf).
  destruct (@extractMatch_total text Pat.trans_fat eq_refl) as (trf & Etrf & Mtrf).
  destruct (@extractMatch_total text Pat.cholesterol eq_refl) as (cho & Echo & Mcho).
  destruct (@extractMatch_total text Pat.sodium eq_refl) as (sod & Esod & Msod).
  destruct (@extractMatch_total text Pat.total_carbs eq_refl) as (tc & Etc & Mtc).
  destruct (@extractMatch_total text Pat.fiber eq_refl) as (fib & Efib & Mfib).
  destruct (@extractMatch_total text Pat.sugars eq_refl) as (sug & Esug & Msug).
  destruct (@extractMatch_total text Pat.protein eq_refl) as (pro & Epro & Mpro).
  destruct (extractIngredients_total text) as (ing & Eing & Ming).
  exists sv, cal, tf, sf, trf, cho, sod, tc, fib, sug, pro, ing.
  split.
  { unfold extractNutrition.
    rewrite Ecal, Esv, Etf, Esf, Etrf, Echo, Esod, Etc, Efib, Esug, Epro, Eing.
    reflexivity. }
  split; [exact Esv|].
  split.
  { intros H. inversion H as [|? ? H1 H']; subst.
    inversion H' as [|? ? H2 H'']; subst.
    inversion H'' as [|? ? H3 _]; subst. auto. }
  split.
  { intros H. inversion H as [|? ? H1 H']; subst.
    inversion H' as [|? ? H2 H'']; subst.
    inversion H'' as [|? ? H3 H''']; subst.
    inversion H''' as [|? ? H4 _]; subst. auto. }
  repeat split; assumption.
Qed.

Section RecordFacts.

Variable B : Browser.

(** The record of an item whose modal was found. *)
Lemma record_with_modal (row : Elem B) rn mp w itemData w' p1 modal :
  scrapeItemRow row rn mp w = (Ok (Some itemData), w') ->
  pageAfterClick B (page w) row = Some p1 ->
  findModal B p1 = Some modal ->
  exists itemName sv cal tf sf trf cho sod tc fib sug pro ing,
    extractNutrition (textContent B p1 modal) = Ok [
      (lit "serving_size", JStr sv); (lit "calories", JStr cal);
      (lit "total_fat_g", JStr tf); (lit "saturated_fat_g", JStr sf);
      (lit "trans_fat_g", JStr trf); (lit "cholesterol_mg", JStr cho);
      (lit "sodium_mg", JStr sod); (lit "total_carbs_g", JStr tc);
      (lit "fiber_g", JStr fib); (lit "sugars_g", JStr sug);
      (lit "protein_g", JStr pro); (lit "ingredients", JStr ing)]
    /\ itemData = [
      (lit "restaurant", JStr rn); (lit "meal_period", JStr mp);
      (lit "item_name", JStr itemName); (lit "serving_size", JStr sv);
      (lit "dietary_labels", JStr (getDietaryLabels B (page w) row));
      (lit "calories", JStr cal);
      (lit "total_fat_g", JStr tf); (lit "saturated_fat_g", JStr sf);
      (lit "trans_fat_g", JStr trf); (lit "cholesterol_mg", JStr cho);
      (lit "sodium_mg", JStr sod); (lit "total_carbs_g", JStr tc);
      (lit "fiber_g", JStr fib); (lit "sugars_g", JStr sug);
      (lit "protein_g", JStr pro); (lit "ingredients", JStr ing)].
Proof.
  intros H Hp Hm.
  destruct (scrapeItemRow_spec _ _ _ _ H) as (itemLink & p1' & nd & _ & Hp' & Hnd & ->).
  rewrite Hp in Hp'. injection Hp' as <-. rewrite Hm in Hnd.
  destruct (extractNutrition_shape (textContent B p1 modal))
    as (sv & cal & tf & sf & trf & cho & sod & tc & fib & sug & pro & ing & E & _).
  rewrite E in Hnd. injection Hnd as <-.
  exists (trim (textContent B (page w) itemLink)),
    sv, cal, tf, sf, trf, cho, sod, tc, fib, sug, pro, ing.
  split; [exact E | reflexivity].
Qed.

(** The record of an item whose modal was not found. *)
Lemma record_without_modal (row : Elem B) rn mp w itemData w' p1 :
  scrapeItemRow row rn mp w = (Ok (Some itemData), w') ->
  pageAfterClick B (page w) row = Some p1 ->
  findModal B p1 = None ->
  exists itemName,
    itemData = [
      (lit "restaurant", JStr rn); (lit "meal_period", JStr mp);
      (lit "item_name", JStr itemName);
      (lit "serving_size", JStr (getServingSize B (page w) row));
      (lit "dietary_labels", JStr (getDietaryLabels B (page w) row))].
Proof.
  intros H Hp Hm.
  destruct (scrapeItemRow_spec _ _ _ _ H) as (itemLink & p1' & nd & _ & Hp' & Hnd & ->).
  rewrite Hp in Hp'. injection Hp' as <-. rewrite Hm in Hnd. subst nd.
  exists (trim (textContent B (page w) itemLink)). reflexivity.
Qed.

(** Whatever the modal, the record names its restaurant, meal period and
    item. *)
Lemma record_base (row : Elem B) rn mp w itemData w' :
  scrapeItemRow row rn mp w = (Ok (Some itemData), w') ->
  exists itemName,
    get itemData (lit "restaurant") = Some (JStr rn)
    /\ get itemData (lit "meal_period") = Some (JStr mp)
    /\ get itemData (lit "item_name") = Some (JStr itemName)
    /\ (exists v, get itemData (lit "serving_size") = Some (JStr v))
    /\ get itemData (lit "dietary_labels")
       = Some (JStr (getDietaryLabels B (page w) row)).
Proof.
  intros H.
  destruct (scrapeItemRow_spec _ _ _ _ H) as (itemLink & p1 & nd & _ & Hp & Hnd & E).
  destruct (findModal B p1) as [modal|] eqn:Hm.
  - destruct (record_with_modal _ _ _ _ H Hp Hm)
      as (n & sv & cal & tf & sf & trf & cho & sod & tc & fib & sug & pro & ing & _ & ->).
    exists n. repeat split; try reflexivity. exists sv. reflexivity.
  - destruct (record_without_modal _ _ _ _ H Hp Hm) as (n & ->).
    exists n. repeat split; try reflexivity. eexists. reflexivity.
Qed.

End RecordFacts.

(* ================================================================= *)
(** * Serving size: row capture and modal value *)

(** C5.  When the nutrition modal is found, the record's [serving_size]
    is the value the modal's serving-size chain produced, whatever the
    row-level capture was: the spread overwrites the row value. *)
Theorem serving_size_precedence (B : Browser) (row : Elem B) rn mp w
        itemData w' p1 modal :
  scrapeItemRow row rn mp w = (Ok (Some itemData), w') ->
  pageAfterClick B (page w) row = Some p1 ->
  findModal B p1 = Some modal ->
  exists v,
    extractServing (textContent B p1 modal) = Ok v
    /\ get itemData (lit "serving_size") = Some (JStr v).
Proof.
  intros H Hp Hm.
  destruct (record_with_modal _ _ _ _ H Hp Hm)
    as (n & sv & cal & tf & sf & trf & cho & sod & tc & fib & sug & pro & ing & E & ->).
  destruct (extractNutrition_shape (textContent B p1 modal))
    as (sv' & cal' & tf' & sf' & trf' & cho' & sod' & tc' & fib' & sug' & pro'
        & ing' & E' & Esv & _).
  rewrite E in E'. injection E' as -> _.
  exists sv'. split; [exact Esv | reflexivity].
Qed.

Lemma serving_size_precedence_witness :
  exists v,
    extractServing
      (textContent Fixture.browser (Examples.cafe_open 0) Fixture.Overlay) = Ok v
    /\ get Examples.chicken_record (lit "serving_size") = Some (JStr v).
Proof.
  apply (@serving_size_precedence Fixture.browser (Fixture.Row 0)
           (lit "Cafe") (lit "All Day") (Fixture.start Fixture.cafe)
           Examples.chicken_record
           (snd (scrapeItemRow (B := Fixture.browser) (Fixture.Row 0)
                   (lit "Cafe") (lit "All Day") (Fixture.start Fixture.cafe)))
           (Examples.cafe_open 0) Fixture.Overlay);
    vm_compute; reflexivity.
Defined.

(** C10.  With the modal found and no serving-size pattern matching its
    text, the record's [serving_size] is the empty string, whatever the
    row held; the row capture is what the record holds when no modal is
    found. *)
Theorem serving_size_row_capture (B : Browser) (row : Elem B) rn mp w
        itemData w' p1 :
  scrapeItemRow row rn mp w = (Ok (Some itemData), w') ->
  pageAfterClick B (page w) row = Some p1 ->
  (forall modal,
      findModal B p1 = Some modal ->
      Forall (fun R => exec R (textContent B p1 modal) = None)
             [Pat.serving1; Pat.serving2; Pat.serving3] ->
      get itemData (lit "serving_size") = Some (JStr []))
  /\ (findModal B p1 = None ->
      get itemData (lit "serving_size")
      = Some (JStr (getServingSize B (page w) row))).
Proof.
  intros H Hp. split.
  - intros modal Hm HF.
    destruct (record_with_modal _ _ _ _ H Hp Hm)
      as (n & sv & cal & tf & sf & trf & cho & sod & tc & fib & sug & pro & ing & E & ->).
    destruct (extractNutrition_shape (textContent B p1 modal))
      as (sv' & cal' & tf' & sf' & trf' & cho' & sod' & tc' & fib' & sug' & pro'
          & ing' & E' & _ & Msv & _).
    rewrite E in E'. injection E' as -> _.
    rewrite (Msv HF). reflexivity.
  - intros Hm. destruct (record_without_modal _ _ _ _ H Hp Hm) as (n & ->).
    reflexivity.
Qed.

Lemma serving_size_row_capture_witness :
  (forall modal,
      findModal Fixture.browser (Examples.cafe_open 3) = Some modal ->
      Forall (fun R => exec R (textContent Fixture.browser (Examples.cafe_open 3) modal) = None)
             [Pat.serving1; Pat.serving2; Pat.serving3] ->
      get Examples.salad_record (lit "serving_size") = Some (JStr []))
  /\ (findModal Fixture.browser (Examples.cafe_open 3) = None ->
      get Examples.salad_record (lit "serving_size")
      = Some (JStr (getServingSize Fixture.browser
                      (page (Fixture.start Fixture.cafe)) (Fixture.Row 3)))).
Proof.
  apply (@serving_size_row_capture Fixture.browser (Fixture.Row 3)
           (lit "Cafe") (lit "All Day") (Fixture.start Fixture.cafe)
           Examples.salad_record
           (snd (scrapeItemRow (B := Fixture.browser) (Fixture.Row 3)
                   (lit "Cafe") (lit "All Day") (Fixture.start Fixture.cafe)))
           (Examples.cafe_open 3));
    vm_compute; reflexivity.
Defined.

(* ================================================================= *)
(** * Nutrition fields of a record *)

(** C3, as the code has it.  When the nutrition modal is found, each of
    the twelve nutrition fields is present in the record with a string
    value, which is the empty string when none of the field's patterns
    matched the modal text (no extraction step throws).  When the modal
    is not found the record has the five row-level fields only:
    [serving_size] is the row capture and the other eleven nutrition
    fields are absent. *)
Theorem nutrition_fields_of_record (B : Browser) (row : Elem B) rn mp w
        itemData w' p1 :
  scrapeItemRow row rn mp w = (Ok (Some itemData), w') ->
  pageAfterClick B (page w) row = Some p1 ->
  (forall modal,
      findModal B p1 = Some modal ->
      forall k pats,
        In (k, pats) field_patterns ->
        exists v,
          get itemData k = Some (JStr v)
          /\ (Forall (fun R => exec R (textContent B p1 modal) = None) pats ->
              v = []))
  /\ (findModal B p1 = None ->
      keys itemData = [lit "restaurant"; lit "meal_period"; lit "item_name";
                       lit "serving_size"; lit "dietary_labels"]
      /\ get itemData (lit "serving_size")
         = Some (JStr (getServingSize B (page w) row))
      /\ forall k pats,
           In (k, pats) field_patterns -> k <> lit "serving_size" ->
           get itemData k = None).
Proof.
  intros H Hp. split.
  - intros modal Hm k pats Hin.
    destruct (record_with_modal _ _ _ _ H Hp Hm)
      as (n & sv & cal & tf & sf & trf & cho & sod & tc & fib & sug & pro & ing & E & ->).
    destruct (extractNutrition_shape (textContent B p1 modal))
      as (sv' & cal' & tf' & sf' & trf' & cho' & sod' & tc' & fib' & sug' & pro'
          & ing' & E' & _ & Msv & Mcal & Mtf & Msf & Mtrf & Mcho & Msod & Mtc
          & Mfib & Msug & Mpro & Ming).
    rewrite E in E'.
    injection E' as -> -> -> -> -> -> -> -> -> -> -> ->.
    assert (single : forall R (P : Prop),
               (exec R (textContent B p1 modal) = None -> P) ->
               Forall (fun R => exec R (textContent B p1 modal) = None) [R] -> P).
    { intros R P HP HF. inversion HF; auto. }
    unfold field_patterns in Hin. cbn [In] in Hin.
    repeat (destruct Hin as [Hin|Hin];
            [injection Hin as <- <-; eexists; split;
             [reflexivity | first [assumption | now apply single]] |]).
    contradiction.
  - intros Hm. destruct (record_without_modal _ _ _ _ H Hp Hm) as (n & ->).
    split; [reflexivity|]. split; [reflexivity|].
    intros k pats Hin Hk. unfold field_patterns in Hin. cbn [In] in Hin.
    destruct Hin as [Hin|Hin]; [injection Hin as <- _; congruence|].
    repeat (destruct Hin as [Hin|Hin]; [injection Hin as <- _; reflexivity|]).
    contradiction.
Qed.

Lemma nutrition_fields_of_record_witness :
  (forall modal,
      findModal Fixture.browser (Examples.cafe_open 0) = Some modal ->
      forall k pats,
        In (k, pats) field_patterns ->
        exists v,
          get Examples.chicken_record k = Some (JStr v)
          /\ (Forall (fun R => exec R (textContent Fixture.browser
                                         (Examples.cafe_open 0) modal) = None) pats ->
              v = []))
  /\ (findModal Fixture.browser (Examples.cafe_open 0) = None ->
      keys Examples.chicken_record
      = [lit "restaurant"; lit "meal_period"; lit "item_name";
         lit "serving_size"; lit "dietary_labels"]
      /\ get Examples.chicken_record (lit "serving_size")
         = Some (JStr (getServingSize Fixture.browser
                         (page (Fixture.start Fixture.cafe)) (Fixture.Row 0)))
      /\ forall k pats,
           In (k, pats) field_patterns -> k <> lit "serving_size" ->
           get Examples.chicken_record k = None).
Proof.
  apply (@nutrition_fields_of_record Fixture.browser (Fixture.Row 0)
           (lit "Cafe") (lit "All Day") (Fixture.start Fixture.cafe)
           Examples.chicken_record
           (snd (scrapeItemRow (B := Fixture.browser) (Fixture.Row 0)
                   (lit "Cafe") (lit "All Day") (Fixture.start Fixture.cafe)))
           (Examples.cafe_open 0));
    vm_compute; reflexivity.
Defined.

(** C3 as stated fails: the soup row of the cafe, whose overlay never
    appears, is emitted as a record without a [calories] field. *)
Lemma nutrition_fields_missing_without_modal :
  fst (scrapeItemRow (B := Fixture.browser) (Fixture.Row 2)
         (lit "Cafe") (lit "All Day") (Fixture.start Fixture.cafe))
  = Ok (Some Examples.soup_record)
  /\ findModal Fixture.browser (Examples.cafe_open 2) = None
  /\ get Examples.soup_record (lit "calories") = None
  /\ get Examples.soup_record (lit "ingredients") = None.
Proof. vm_compute. repeat split. Qed.

(* ================================================================= *)
(** * Empty export *)

(** C7.  Exporting no records prints the error and leaves the downloads
    as they were; a download only ever comes from a non-empty dataset,
    and then holds the header row and one row per record. *)
Theorem empty_export_guard (B : Browser) :
  (forall w : World B,
      downloadCSV [] w
      = (Ok tt, mkWorld B (page w) (allData w) (totalItemsScraped w)
                        (console w ++ [(LError, NoDataToExport)])
                        (downloads w)))
  /\ (forall data (w : World B),
      downloads (snd (downloadCSV data w)) = downloads w /\ data = []
      \/ exists file,
           downloads (snd (downloadCSV data w))
           = downloads w ++ [(file, csvContent data)]
           /\ data <> []).
Proof.
  split.
  - intros w. reflexivity.
  - intros data w. destruct data as [|d data].
    + left. split; reflexivity.
    + right. eexists. split; [reflexivity | discriminate].
Qed.

(* ================================================================= *)
(** * Dietary labels *)

Lemma NoDup_snoc (l : list str) x : NoDup l -> ~ In x l -> NoDup (l ++ [x]).
Proof.
  intros Hl Hx. induction l as [|a l IH]; simpl.
  - constructor; [intros [] | constructor].
  - inversion Hl as [|? ? Ha Hl']; subst. constructor.
    + rewrite in_app_iff. intros [H|[H|[]]]; [auto | subst; apply Hx; now left].
    + apply IH; [exact Hl' | intros H; apply Hx; now right].
Qed.

Lemma array_includes_In labels x : array_includes labels x = true <-> In x labels.
Proof.
  unfold array_includes. rewrite existsb_exists. split.
  - intros (y & Hy & E). apply str_eqb_eq in E. now subst.
  - intros H. exists x. split; [exact H | apply str_eqb_refl].
Qed.

(** The text pass only appends labels that are not there yet: what it
    adds is duplicate-free, disjoint from the image labels, and comes
    from keywords whose pattern matches the row text. *)
Lemma text_pass_adds_new_labels (B : Browser) (p : Page B) (row : Elem B) :
  exists extra,
    collectLabels B p row = imageLabels B p row ++ extra
    /\ NoDup extra
    /\ (forall l, In l extra -> ~ In l (imageLabels B p row))
    /\ (forall l, In l extra ->
          exists regex, In (l, regex) keywords
                        /\ test regex (textContent B p row) = true).
Proof.
  unfold collectLabels.
  set (base := imageLabels B p row). set (text := textContent B p row).
  assert (G : forall entries extra0,
             NoDup extra0 ->
             (forall l, In l extra0 -> ~ In l base) ->
             (forall l, In l extra0 ->
                exists regex, In (l, regex) (keywords) /\ test regex text = true) ->
             (forall e, In e entries -> In e keywords) ->
             exists extra,
               fold_left
                 (fun labels (entry : str * RegExp) =>
                    let '(label, regex) := entry in
                    if test regex text && negb (array_includes labels label)
                    then labels ++ [label] else labels)
                 entries (base ++ extra0) = base ++ extra
               /\ NoDup extra
               /\ (forall l, In l extra -> ~ In l base)
               /\ (forall l, In l extra ->
                     exists regex, In (l, regex) keywords /\ test regex text = true)).
  { induction entries as [|[label regex] entries IH]; intros extra0 Hn Hd Hk Hsub.
    - exists extra0. cbn [fold_left]. auto.
    - cbn [fold_left].
      assert (Hsub' : forall e, In e entries -> In e keywords)
        by (intros e He; apply Hsub; now right).
      destruct (test regex text) eqn:Et; cbn [andb]; [|now apply IH].
      destruct (array_includes (base ++ extra0) label) eqn:Ei; cbn [negb];
        [now apply IH|].
      assert (Hnot : ~ In label (base ++ extra0)).
      { intros H. apply array_includes_In in H. congruence. }
      rewrite <- app_assoc. apply IH; auto.
      + apply NoDup_snoc; [exact Hn|]. intros H. apply Hnot, in_app_iff. now right.
      + intros l Hl. apply in_app_iff in Hl as [Hl|[<-|[]]]; [now apply Hd|].
        intros H. apply Hnot, in_app_iff. now left.
      + intros l Hl. apply in_app_iff in Hl as [Hl|[<-|[]]]; [now apply Hk|].
        exists regex. split; [apply Hsub; now left | exact Et]. }
  destruct (G keywords [] (NoDup_nil _) (fun l H => match H with end)
              (fun l H => match H with end) (fun e H => H))
    as (extra & E & H).
  rewrite app_nil_r in E. exists extra. split; [exact E | exact H].
Qed.

(** C9.  The chicken row of the cafe (image alt [Vegan option], row text
    with [Vegetarian]) yields [Vegan; Vegetarian]: image pass first, then
    the text pass, which skips a label already collected.  The image pass
    has no such check: a row with two images that both say vegan yields
    [Vegan; Vegan]. *)
Theorem dietary_labels_image_pass_duplicates :
  getDietaryLabels Fixture.browser (page (Fixture.start Fixture.cafe))
                   (Fixture.Row 0)
  = lit "Vegan; Vegetarian"
  /\ imageLabels Fixture.browser Examples.wrap_page (Fixture.Row 0)
     = [lit "Vegan"; lit "Vegan"]
  /\ getDietaryLabels Fixture.browser Examples.wrap_page (Fixture.Row 0)
     = lit "Vegan; Vegan".
Proof. repeat split; vm_compute; reflexivity. Qed.

(* ================================================================= *)
(** * Failure isolation *)

Section Isolation.

Variable B : Browser.

(** One turn of the item loop never throws, and appends the record of a
    successful row and nothing else. *)
Lemma itemIteration_spec rn mp maxItems i (row : Elem B) w :
  fst (itemIteration rn mp maxItems i row w) = Ok tt
  /\ allData (snd (itemIteration rn mp maxItems i row w))
     = allData w ++ produced [itemOutcome rn mp row w].
Proof.
  unfold itemIteration, itemOutcome.
  pose proof (keeps_scrapeItemRow row rn mp w) as Hk.
  destruct (scrapeItemRow row rn mp w) as [[[d|]|e] [p1 ad1 n1 c1 d1]] eqn:E;
    cbn [snd allData] in Hk; subst ad1.
  - destruct (record_base _ _ _ _ E) as (n & _ & _ & Hn & _).
    cbv beta iota delta [bind try_catch]. rewrite E.
    cbv beta iota delta [pushData countItem]. rewrite Hn.
    split; reflexivity.
  - cbv beta iota delta [bind try_catch]. rewrite E.
    cbn. rewrite app_nil_r. split; reflexivity.
  - cbv beta iota delta [bind try_catch]. rewrite E.
    cbn. rewrite app_nil_r. split; reflexivity.
Qed.

Lemma forIndex_step A (body : nat -> A -> M B unit) i x xs w :
  fst (body i x w) = Ok tt ->
  forIndex i (x :: xs) body w = forIndex (S i) xs body (snd (body i x w)).
Proof.
  intros H. cbn [forIndex]. unfold bind.
  destruct (body i x w) as [[[]|e] w1]; [reflexivity | discriminate].
Qed.

Lemma item_loop_spec rn mp maxItems (rows : list (Elem B)) i w :
  fst (forIndex i rows (itemIteration rn mp maxItems) w) = Ok tt
  /\ allData (snd (forIndex i rows (itemIteration rn mp maxItems) w))
     = allData w ++ produced (itemOutcomes rn mp maxItems i rows w).
Proof.
  revert i w. induction rows as [|row rows IH]; intros i w.
  - cbn. rewrite app_nil_r. split; reflexivity.
  - destruct (itemIteration_spec rn mp maxItems i row w) as [H1 H2].
    rewrite (@forIndex_step _ (itemIteration rn mp maxItems) i row rows w H1).
    destruct (IH (S i) (snd (itemIteration rn mp maxItems i row w))) as [I1 I2].
    split; [exact I1|]. rewrite I2, H2, <- app_assoc.
    cbn [itemOutcomes produced].
    destruct (itemOutcome rn mp row w); reflexivity.
Qed.

Lemma itemOutcomes_length rn mp maxItems (rows : list (Elem B)) i w :
  length (itemOutcomes rn mp maxItems i rows w) = length rows.
Proof.
  revert i w. induction rows as [|row rows IH]; intros i w; [reflexivity|].
  cbn [itemOutcomes length]. now rewrite IH.
Qed.

(** One failure among otherwise successful rows costs one record. *)
Lemma produced_all_but_one (os : list outcome) k e :
  nth_error os k = Some (Failed e) ->
  (forall j, j <> k -> j < length os ->
             exists d, nth_error os j = Some (Produced d)) ->
  length (produced os) = length os - 1.
Proof.
  assert (All : forall l : list outcome,
             (forall j, j < length l -> exists d, nth_error l j = Some (Produced d)) ->
             length (produced l) = length l).
  { induction l as [|o l IHl]; intros H; [reflexivity|].
    destruct (H 0 ltac:(simpl; lia)) as (d & Hd). injection Hd as ->.
    cbn [produced length]. rewrite IHl; [reflexivity|].
    intros j Hj. apply (H (S j)). simpl. lia. }
  revert k. induction os as [|o os IH]; intros k Hk Ho.
  - destruct k; discriminate.
  - destruct k as [|k].
    + injection Hk as ->. cbn [produced length]. rewrite All; [lia|].
      intros j Hj. apply (Ho (S j)); simpl; lia.
    + destruct (Ho 0 ltac:(lia) ltac:(simpl; lia)) as (d & Hd). injection Hd as ->.
      cbn [produced length]. rewrite (IH k Hk).
      * destruct os; [destruct k; discriminate | simpl; lia].
      * intros j Hj Hl. apply (Ho (S j)); simpl; lia.
Qed.

(** One turn of the restaurant loop never throws. *)
Lemma restaurantIteration_ok i r (w : World B) :
  fst (restaurantIteration i r w) = Ok tt.
Proof.
  unfold restaurantIteration.
  cbv beta iota delta [bind print try_catch sleep fst snd].
  destruct (scrapeRestaurant r _) as [[[]|e] w1]; reflexivity.
Qed.

Lemma restaurant_loop_ok rs i (w : World B) :
  fst (forIndex i rs (@restaurantIteration B) w) = Ok tt.
Proof.
  revert i w. induction rs as [|r rs IH]; intros i w; [reflexivity|].
  rewrite (@forIndex_step _ (@restaurantIteration B) i r rs w (restaurantIteration_ok i r w)). apply IH.
Qed.

End Isolation.

(* ================================================================= *)
(** * Meal periods *)

Section MealPeriods.

Variable B : Browser.

Lemma existsb_names (periods : list (period B)) text :
  existsb (fun q => str_eqb (period_name q) text) periods = true
  <-> In text (List.map (@period_name B) periods).
Proof.
  rewrite existsb_exists, in_map_iff. split.
  - intros (q & Hq & E). apply str_eqb_eq in E. now exists q.
  - intros (q & E & Hq). exists q. split; [exact Hq|]. now apply str_eqb_eq.
Qed.

Lemma keyword_match text :
  existsb (fun keyword => str_eqb text keyword || includes text keyword)
          MEAL_PERIOD_KEYWORDS = true
  <-> exists keyword,
        In keyword MEAL_PERIOD_KEYWORDS
        /\ (text = keyword \/ includes text keyword = true).
Proof.
  rewrite existsb_exists. split; intros (k & Hk & H); exists k; (split; [exact Hk|]).
  - apply orb_prop in H as [H|H]; [left; now apply str_eqb_eq | now right].
  - apply orb_true_iff. destruct H as [H|H]; [left; now apply str_eqb_eq | now right].
Qed.

Lemma findMealPeriods_fold (p : Page B) (all els : list (Elem B)) acc :
  (forall el, In el els -> In el all) ->
  all = querySelectorAll B p None SelClickable ->
  let step := fun periods el =>
    let text := trim (textContent B p el) in
    let isMatch :=
      existsb (fun keyword => str_eqb text keyword || includes text keyword)
              MEAL_PERIOD_KEYWORDS in
    if isMatch && offsetParent B p el && Nat.ltb (length text) 100
    then if negb (existsb (fun q => str_eqb (period_name q) text) periods)
         then periods ++ [Period B text el]
         else periods
    else periods in
  let res := fold_left step els acc in
  (forall q, In q res ->
             In q acc \/ period_like B p (period_name q) (element q))
  /\ (NoDup (List.map (@period_name B) acc) -> NoDup (List.map (@period_name B) res))
  /\ (forall text, In text (List.map (@period_name B) acc) ->
                   In text (List.map (@period_name B) res))
  /\ (forall el, In el els ->
                 period_like B p (trim (textContent B p el)) el ->
                 In (trim (textContent B p el)) (List.map (@period_name B) res)).
Proof.
  intros Hsub Hall step. revert acc.
  induction els as [|el els IH]; intros acc; cbn [fold_left].
  - repeat split; auto. intros el [].
  - assert (Hsub' : forall x, In x els -> In x all)
      by (intros x Hx; apply Hsub; now right).
    destruct (IH Hsub' (step acc el)) as (I1 & I2 & I3 & I4).
    assert (Hstep : (forall q, In q (step acc el) ->
                       In q acc \/ period_like B p (period_name q) (element q))
                    /\ (NoDup (List.map (@period_name B) acc) ->
                        NoDup (List.map (@period_name B) (step acc el)))
                    /\ (forall text, In text (List.map (@period_name B) acc) ->
                          In text (List.map (@period_name B) (step acc el)))
                    /\ (period_like B p (trim (textContent B p el)) el ->
                        In (trim (textContent B p el))
                           (List.map (@period_name B) (step acc el)))).
    { unfold step.
      set (text := trim (textContent B p el)).
      destruct (existsb _ MEAL_PERIOD_KEYWORDS) eqn:Ek.
      2:{ cbn [andb]. repeat split; auto.
          intros (_ & _ & _ & Hk & _). apply keyword_match in Hk.
          fold text in Hk. congruence. }
      destruct (offsetParent B p el) eqn:Ev.
      2:{ cbn [andb]. repeat split; auto.
          intros (_ & Hv & _). congruence. }
      destruct (Nat.ltb (length text) 100) eqn:El.
      2:{ cbn [andb]. repeat split; auto.
          intros (_ & _ & _ & _ & Hl). apply Nat.ltb_lt in Hl. congruence. }
      cbn [andb].
      destruct (existsb (fun q => str_eqb (period_name q) text) acc) eqn:Ed;
        cbn [negb].
      - repeat split; auto. intros _. now apply existsb_names.
      - split; [|split; [|split]].
        + intros q Hq. apply in_app_iff in Hq as [Hq|[<-|[]]]; [now left|].
          right. cbn [period_name element]. unfold period_like.
          split; [rewrite <- Hall; apply Hsub; now left|]. split; [exact Ev|].
          split; [reflexivity|]. split; [now apply keyword_match|].
          now apply Nat.ltb_lt.
        + intros Hn. rewrite map_app. cbn [List.map period_name].
          apply NoDup_snoc; [exact Hn|].
          intros Hin. apply existsb_names in Hin. congruence.
        + intros t Ht. rewrite map_app, in_app_iff. now left.
        + intros _. rewrite map_app, in_app_iff. right. now left. }
    destruct Hstep as (S1 & S2 & S3 & S4).
    split; [|split; [|split]].
    + intros q Hq. destruct (I1 q Hq) as [Hq'|Hq']; [now apply S1 | now right].
    + intros Hn. apply I2, S2, Hn.
    + intros t Ht. apply I3, S3, Ht.
    + intros x [<-|Hx] Hp; [apply I3, S4, Hp | now apply I4].
Qed.

Lemma adds_itemIteration rn mp maxItems i (row : Elem B) :
  adds (fun d => get d (lit "meal_period") = Some (JStr mp))
       (itemIteration rn mp maxItems i row).
Proof.
  intros w. destruct (itemIteration_spec rn mp maxItems i row w) as [_ H].
  eexists. split; [exact H|].
  unfold itemOutcome.
  destruct (scrapeItemRow row rn mp w) as [[[d|]|e] w1] eqn:E; cbn [produced];
    constructor; [|constructor].
  destruct (record_base _ _ _ _ E) as (n & _ & Hm & _). exact Hm.
Qed.

Lemma adds_scrapeCurrentPage rn mp :
  adds (fun d => get d (lit "meal_period") = Some (JStr mp))
       (@scrapeCurrentPage B rn mp).
Proof.
  unfold scrapeCurrentPage.
  apply adds_bind; [apply keeps_adds, keeps_expandAllCategories | intros _].
  apply adds_bind; [apply keeps_adds, keeps_getPage | intros p].
  apply adds_bind; [apply keeps_adds, keeps_print | intros _].
  apply adds_bind.
  - apply adds_forIndex. intros i row. apply adds_itemIteration.
  - intros _. destruct TEST_MODE; apply keeps_adds;
      [apply keeps_print | apply keeps_ret].
Qed.

End MealPeriods.

(** C8.  [findMealPeriods] returns only visible clickable elements whose
    trimmed text equals or contains a keyword of the vocabulary and is
    shorter than 100 characters, each under that text; no label comes
    twice, and every such element's label is among those returned.  When
    the opened restaurant page has none, every record the restaurant
    adds to the dataset has [meal_period] equal to [All Day]. *)
Theorem meal_period_detection (B : Browser) :
  (forall p q,
      In q (findMealPeriods B p) -> period_like B p (period_name q) (element q))
  /\ (forall p, NoDup (List.map (@period_name B) (findMealPeriods B p)))
  /\ (forall p el,
      period_like B p (trim (textContent B p el)) el ->
      In (trim (textContent B p el)) (List.map (@period_name B) (findMealPeriods B p)))
  /\ (forall r (w : World B) p1,
      pageAfterOpen B (page w) r = Some p1 ->
      findMealPeriods B p1 = [] ->
      exists added,
        allData (snd (scrapeRestaurant r w)) = allData w ++ added
        /\ Forall (fun d => get d (lit "meal_period") = Some (JStr (lit "All Day")))
                  added).
Proof.
  split; [|split; [|split]].
  - intros p q Hq.
    destruct (@findMealPeriods_fold B p _ (querySelectorAll B p None SelClickable) []
                (fun el H => H) eq_refl) as (H1 & _).
    destruct (H1 q Hq) as [[]|H]. exact H.
  - intros p.
    destruct (@findMealPeriods_fold B p _ (querySelectorAll B p None SelClickable) []
                (fun el H => H) eq_refl) as (_ & H2 & _).
    apply H2. constructor.
  - intros p el Hp.
    destruct (@findMealPeriods_fold B p _ (querySelectorAll B p None SelClickable) []
                (fun el H => H) eq_refl) as (_ & _ & _ & H4).
    apply H4; [|exact Hp]. destruct Hp as (Hin & _). exact Hin.
  - intros r w p1 Hp Hf. unfold scrapeRestaurant, pageAfterOpen in *.
    destruct w as [p ad n con dl]. cbn [page] in *.
    cbv beta iota delta [bind getPage doClick sleep setPage page allData
                         totalItemsScraped console downloads].
    destruct (findRestaurantLink B p (name r)) as [link|]; [|discriminate Hp].
    destruct (click B p link) as [p' [e|]]; [discriminate Hp|].
    injection Hp as <-. rewrite Hf. cbn [length Nat.ltb Nat.leb].
    cbv beta iota delta [bind print].
    destruct (@adds_scrapeCurrentPage B (name r) (lit "All Day")
                (mkWorld B (wait B CONFIG.delayAfterRestaurant p') ad n
                         (con ++ [(LLog, NoMealPeriods)]) dl))
      as (added & E & F).
    exists added. split; [exact E | exact F].
Qed.

Lemma meal_period_detection_witness :
  period_like Fixture.browser (Fixture.State Fixture.grill None)
              (lit "Breakfast") (Fixture.PeriodLink 0)
  /\ exists added,
       allData (snd (scrapeRestaurant (Restaurant (lit "Cafe") 14)
                       (Fixture.start Fixture.cafe)))
       = allData (Fixture.start Fixture.cafe) ++ added
       /\ Forall (fun d => get d (lit "meal_period") = Some (JStr (lit "All Day")))
                 added.
Proof.
  destruct (meal_period_detection Fixture.browser) as (H1 & _ & _ & H4).
  split.
  - apply (H1 (Fixture.State Fixture.grill None)
              (Period Fixture.browser (lit "Breakfast") (Fixture.PeriodLink 0))).
    vm_compute. left. reflexivity.
  - apply (H4 (Restaurant (lit "Cafe") 14) (Fixture.start Fixture.cafe)
              (Fixture.State Fixture.cafe None)); vm_compute; reflexivity.
Defined.

(* ================================================================= *)
(** * Failure isolation in a run *)

Section ConsoleFacts.

Variable B : Browser.

Lemma logs_ret A (a : A) : logs (@ret B A a).
Proof. intros w. exists []. now rewrite app_nil_r. Qed.

Lemma logs_throw A e : logs (@throw B A e).
Proof. intros w. exists []. now rewrite app_nil_r. Qed.

Lemma logs_getPage : logs (@getPage B).
Proof. intros w. exists []. now rewrite app_nil_r. Qed.

Lemma logs_liftR A (r : result A) : logs (@liftR B A r).
Proof. intros w. exists []. now rewrite app_nil_r. Qed.

Lemma logs_print l x : logs (@print B l x).
Proof. intros w. now exists [(l, x)]. Qed.

Lemma logs_sleep ms : logs (@sleep B ms).
Proof. intros w. exists []. now rewrite app_nil_r. Qed.

Lemma logs_pushData d : logs (@pushData B d).
Proof. intros w. exists []. now rewrite app_nil_r. Qed.

Lemma logs_countItem : logs (@countItem B).
Proof. intros w. exists []. now rewrite app_nil_r. Qed.

Lemma logs_doClick (elem : Elem B) : logs (doClick elem).
Proof.
  intros w. exists []. rewrite app_nil_r. unfold doClick.
  destruct (click B (page w) elem) as [p [e|]]; reflexivity.
Qed.

Lemma logs_bind A C (c : M B A) (f : A -> M B C) :
  logs c -> (forall a, logs (f a)) -> logs (bind c f).
Proof.
  intros Hc Hf w. unfold bind. destruct (Hc w) as (l1 & E1).
  destruct (c w) as [[a|e] w1]; cbn [snd] in *.
  - destruct (Hf a w1) as (l2 & E2). exists (l1 ++ l2).
    now rewrite E2, E1, app_assoc.
  - now exists l1.
Qed.

Lemma logs_try_catch A (c : M B A) (h : exn -> M B A) :
  logs c -> (forall e, logs (h e)) -> logs (try_catch c h).
Proof.
  intros Hc Hh w. unfold try_catch. destruct (Hc w) as (l1 & E1).
  destruct (c w) as [[a|e] w1]; cbn [snd] in *.
  - now exists l1.
  - destruct (Hh e w1) as (l2 & E2). exists (l1 ++ l2).
    now rewrite E2, E1, app_assoc.
Qed.

Lemma logs_forOf A (xs : list A) (body : A -> M B unit) :
  (forall x, logs (body x)) -> logs (forOf xs body).
Proof.
  intros H. induction xs as [|x xs IH]; cbn [forOf].
  - apply logs_ret.
  - apply logs_bind; auto.
Qed.

Lemma logs_forIndex A (xs : list A) (body : nat -> A -> M B unit) i :
  (forall i x, logs (body i x)) -> logs (forIndex i xs body).
Proof.
  intros H. revert i. induction xs as [|x xs IH]; intros i; cbn [forIndex].
  - apply logs_ret.
  - apply logs_bind; auto.
Qed.

Lemma logs_closeWith sels : logs (@closeWith B sels).
Proof.
  induction sels as [|sel sels IH]; cbn [closeWith].
  - apply logs_bind; [|intros _; apply logs_sleep].
    intros w. exists []. now rewrite app_nil_r.
  - apply logs_bind; [apply logs_getPage|]. intros p.
    destruct (querySelector B p None sel) as [btn|]; [|exact IH].
    destruct (offsetParent B p btn); [|exact IH].
    apply logs_bind; [apply logs_doClick | intros _; apply logs_sleep].
Qed.

Lemma logs_extractNutritionFromModal : logs (@extractNutritionFromModal B).
Proof.
  unfold extractNutritionFromModal. apply logs_bind; [apply logs_getPage|].
  intros p. destruct (findModal B p).
  - apply logs_liftR.
  - apply logs_bind; [apply logs_print | intros _; apply logs_ret].
Qed.

Lemma logs_scrapeItemRow row rn mp : logs (@scrapeItemRow B row rn mp).
Proof.
  unfold scrapeItemRow. apply logs_bind; [apply logs_getPage|]. intros p.
  destruct (querySelector B p (Some row) SelItemLink) as [itemLink|].
  - destruct (_ || _); [apply logs_ret|].
    apply logs_bind; [apply logs_doClick | intros _].
    apply logs_bind; [apply logs_sleep | intros _].
    apply logs_bind; [apply logs_extractNutritionFromModal | intros nd].
    apply logs_bind; [apply logs_closeWith | intros _; apply logs_ret].
  - apply logs_bind; [apply logs_print | intros _; apply logs_ret].
Qed.

Lemma logs_expandAllCategories : logs (@expandAllCategories B).
Proof.
  unfold expandAllCategories. apply logs_forOf. intros sel.
  apply logs_bind; [apply logs_getPage | intros p].
  apply logs_forOf. intros elem.
  apply logs_bind; [apply logs_getPage | intros p'].
  destruct (_ || _); [|apply logs_ret].
  apply logs_bind; [apply logs_doClick | intros _; apply logs_sleep].
Qed.

Lemma logs_itemIteration rn mp maxItems i (row : Elem B) :
  logs (itemIteration rn mp maxItems i row).
Proof.
  unfold itemIteration.
  apply logs_bind; [|intros _; apply logs_sleep].
  apply logs_try_catch; [|intros e; apply logs_print].
  apply logs_bind; [apply logs_scrapeItemRow | intros [d|]]; [|apply logs_ret].
  apply logs_bind; [apply logs_pushData | intros _].
  apply logs_bind; [apply logs_countItem | intros _].
  destruct (get d (lit "item_name")) as [[|n]|];
    [apply logs_throw | apply logs_print | apply logs_throw].
Qed.

Lemma logs_scrapeCurrentPage rn mp : logs (@scrapeCurrentPage B rn mp).
Proof.
  unfold scrapeCurrentPage.
  apply logs_bind; [apply logs_expandAllCategories | intros _].
  apply logs_bind; [apply logs_getPage | intros p].
  apply logs_bind; [apply logs_print | intros _].
  apply logs_bind.
  - apply logs_forIndex. intros i row. apply logs_itemIteration.
  - intros _. destruct TEST_MODE; [apply logs_print | apply logs_ret].
Qed.

Lemma logs_scrapeRestaurant r : logs (@scrapeRestaurant B r).
Proof.
  unfold scrapeRestaurant.
  apply logs_bind; [apply logs_getPage | intros p].
  destruct (findRestaurantLink B p (name r)) as [link|]; [|apply logs_print].
  apply logs_bind; [apply logs_doClick | intros _].
  apply logs_bind; [apply logs_sleep | intros _].
  apply logs_bind; [apply logs_getPage | intros p1].
  cbv zeta. destruct (Nat.ltb 0 (length (findMealPeriods B p1))).
  - apply logs_bind; [apply logs_print | intros _].
    apply logs_forOf. intros q.
    apply logs_bind; [apply logs_print | intros _].
    apply logs_bind; [apply logs_doClick | intros _].
    apply logs_bind; [apply logs_sleep | intros _].
    apply logs_scrapeCurrentPage.
  - apply logs_bind; [apply logs_print | intros _].
    apply logs_scrapeCurrentPage.
Qed.

Lemma logs_restaurantIteration i r : logs (@restaurantIteration B i r).
Proof.
  unfold restaurantIteration.
  apply logs_bind; [apply logs_print | intros _].
  apply logs_bind; [apply logs_print | intros _].
  apply logs_bind; [apply logs_print | intros _].
  apply logs_bind; [|intros _; apply logs_sleep].
  apply logs_try_catch; [apply logs_scrapeRestaurant | intros e; apply logs_print].
Qed.

Lemma logs_downloadCSV data : logs (@downloadCSV B data).
Proof.
  unfold downloadCSV. destruct (Nat.eqb (length data) 0); [apply logs_print|].
  apply logs_bind; [apply logs_print | intros _].
  apply logs_bind; [apply logs_getPage | intros p].
  cbv zeta. apply logs_bind; [|intros _; apply logs_print].
  intros w. exists []. now rewrite app_nil_r.
Qed.

(** A line once printed stays on the console. *)
Lemma logs_keeps_line A (c : M B A) w x :
  logs c -> In x (console w) -> In x (console (snd (c w))).
Proof.
  intros H Hx. destruct (H w) as (l & ->). apply in_or_app. now left.
Qed.

End ConsoleFacts.

Section IsolationInARun.

Variable B : Browser.

(** The item loop catches what [scrapeItemRow] throws, and logs it. *)
Lemma itemIteration_caught rn mp maxItems i (row : Elem B) w e w1 :
  scrapeItemRow row rn mp w = (Throw e, w1) ->
  itemIteration rn mp maxItems i row w
  = (Ok tt, rested CONFIG.delayBetweenClicks
              (logged LWarn (ErrorOnItem (i + 1) (message e)) w1)).
Proof.
  intros H. unfold itemIteration.
  cbv beta iota delta [bind try_catch]. rewrite H. reflexivity.
Qed.

Lemma item_loop_logged rn mp maxItems (rows : list (Elem B)) i w k e :
  nth_error (itemOutcomes rn mp maxItems i rows w) k = Some (Failed e) ->
  In (LWarn, ErrorOnItem (i + k + 1) (message e))
     (console (snd (forIndex i rows (itemIteration rn mp maxItems) w))).
Proof.
  revert i w k. induction rows as [|row rows IH]; intros i w k H.
  - destruct k; discriminate H.
  - destruct (itemIteration_spec rn mp maxItems i row w) as [Hok _].
    rewrite (@forIndex_step B _ (itemIteration rn mp maxItems) i row rows w Hok).
    destruct k as [|k]; cbn [itemOutcomes nth_error] in H.
    + unfold itemOutcome in H.
      destruct (scrapeItemRow row rn mp w) as [[[d|]|e'] w1] eqn:E;
        try discriminate H.
      injection H as ->.
      rewrite (@itemIteration_caught rn mp maxItems i row w e w1 E). cbn [snd].
      apply logs_keeps_line.
      * apply logs_forIndex. intros j x. apply logs_itemIteration.
      * rewrite Nat.add_0_r. unfold rested, logged. cbn [console].
        apply in_or_app. right. now left.
    + replace (i + S k + 1) with (S i + k + 1) by lia. now apply IH.
Qed.

Lemma produced_in (os : list outcome) j d :
  nth_error os j = Some (Produced d) -> In d (produced os).
Proof.
  revert j. induction os as [|o os IH]; intros j H.
  - destruct j; discriminate H.
  - destruct j as [|j]; cbn [nth_error] in H.
    + injection H as ->. now left.
    + destruct o; cbn [produced]; [right|..]; now apply IH with j.
Qed.

(** With the categories expanded, [scrapeCurrentPage] is the item loop
    over the rows [findAllItemRows] returns. *)
Lemma scrapeCurrentPage_run rn mp (w w1 : World B) :
  expandAllCategories w = (Ok tt, w1) ->
  scrapeCurrentPage rn mp w
  = forIndex 0 (pageRows w1) (itemIteration rn mp (length (pageRows w1)))
            (loopStart w1).
Proof.
  intros H. unfold scrapeCurrentPage. unfold bind at 1. rewrite H.
  unfold bind at 1, getPage at 1. unfold bind at 1, print at 1.
  cbv delta [TEST_MODE] iota. fold (pageRows w1).
  rewrite firstn_all. fold (logged LLog (FoundItems (length (pageRows w1))) w1).
  fold (loopStart w1). unfold bind.
  destruct (forIndex 0 (pageRows w1) _ (loopStart w1)) as [[[]|e] w2];
    reflexivity.
Qed.

(** The restaurant loop catches what [scrapeRestaurant] throws, and logs
    it. *)
Lemma restaurantIteration_run i r (w : World B) :
  restaurantIteration i r w
  = (Ok tt,
     rested CONFIG.delayAfterRestaurant
       match scrapeRestaurant r (announced i r w) with
       | (Ok _, w1) => w1
       | (Throw e, w1) => logged LError (ErrorScraping (name r) e) w1
       end).
Proof.
  unfold restaurantIteration.
  unfold bind at 1, print at 1. unfold bind at 1, print at 1.
  unfold bind at 1, print at 1.
  fold (logged LLog Rule w).
  fold (logged LLog (RestaurantBanner (i + 1) (length RESTAURANTS) (name r))
               (logged LLog Rule w)).
  fold (logged LLog Rule
          (logged LLog (RestaurantBanner (i + 1) (length RESTAURANTS) (name r))
             (logged LLog Rule w))).
  fold (announced i r w).
  unfold bind, try_catch.
  destruct (scrapeRestaurant r (announced i r w)) as [[[]|e] w1]; reflexivity.
Qed.

Lemma forIndex_app A (body : nat -> A -> M B unit) xs ys i w :
  (forall i x w, fst (body i x w) = Ok tt) ->
  forIndex i (xs ++ ys) body w
  = forIndex (i + length xs) ys body (snd (forIndex i xs body w)).
Proof.
  intros H. revert i w. induction xs as [|x xs IH]; intros i w.
  - cbn [app length forIndex]. now rewrite Nat.add_0_r.
  - cbn [app length].
    rewrite (@forIndex_step _ _ body i x (xs ++ ys) w (H i x w)).
    rewrite (@forIndex_step _ _ body i x xs w (H i x w)).
    rewrite IH. now rewrite Nat.add_succ_r.
Qed.

Lemma adds_any A P (c : M B A) : adds P c -> adds (fun _ => True) c.
Proof.
  intros H w. destruct (H w) as (added & E & _). exists added.
  split; [exact E|]. apply Forall_forall. auto.
Qed.

Lemma appends_scrapeRestaurant r : adds (fun _ => True) (@scrapeRestaurant B r).
Proof.
  unfold scrapeRestaurant.
  apply adds_bind; [apply keeps_adds, keeps_getPage | intros p].
  destruct (findRestaurantLink B p (name r)) as [link|];
    [|apply keeps_adds, keeps_print].
  apply adds_bind; [apply keeps_adds, keeps_doClick | intros _].
  apply adds_bind; [apply keeps_adds, keeps_sleep | intros _].
  apply adds_bind; [apply keeps_adds, keeps_getPage | intros p1].
  cbv zeta. destruct (Nat.ltb 0 (length (findMealPeriods B p1))).
  - apply adds_bind; [apply keeps_adds, keeps_print | intros _].
    apply adds_forOf. intros q.
    apply adds_bind; [apply keeps_adds, keeps_print | intros _].
    apply adds_bind; [apply keeps_adds, keeps_doClick | intros _].
    apply adds_bind; [apply keeps_adds, keeps_sleep | intros _].
    exact (adds_any (@adds_scrapeCurrentPage B (name r) (period_name q))).
  - apply adds_bind; [apply keeps_adds, keeps_print | intros _].
    exact (adds_any (@adds_scrapeCurrentPage B (name r) (lit "All Day"))).
Qed.

Lemma appends_restaurant_loop i rs :
  adds (fun _ => True) (forIndex i rs (@restaurantIteration B)).
Proof.
  apply adds_forIndex. intros j r. unfold restaurantIteration.
  apply adds_bind; [apply keeps_adds, keeps_print | intros _].
  apply adds_bind; [apply keeps_adds, keeps_print | intros _].
  apply adds_bind; [apply keeps_adds, keeps_print | intros _].
  apply adds_bind; [|intros _; apply keeps_adds, keeps_sleep].
  apply adds_try_catch; [apply appends_scrapeRestaurant|].
  intros e. apply keeps_adds, keeps_print.
Qed.

(** A run is the restaurant loop, four lines and the export. *)
Lemma scrapeAllRestaurants_end (w : World B) :
  scrapeAllRestaurants w
  = downloadCSV
      (allData (turnStart RESTAURANTS w))
      (logged LLog Rule
         (logged LLog (TotalItems (totalItemsScraped (turnStart RESTAURANTS w)))
            (logged LLog ScrapingComplete
               (logged LLog Rule (turnStart RESTAURANTS w))))).
Proof.
  unfold scrapeAllRestaurants, turnStart.
  unfold bind at 1, print at 1.
  fold (logged LLog (StartingScrape (length RESTAURANTS)) w).
  unfold bind at 1.
  pose proof (restaurant_loop_ok RESTAURANTS 0
                (logged LLog (StartingScrape (length RESTAURANTS)) w)) as L.
  destruct (forIndex 0 RESTAURANTS (@restaurantIteration B) _) as [[[]|e] w3];
    [|discriminate L].
  cbn [snd]. reflexivity.
Qed.

Lemma turnStart_split before r after (w : World B) :
  turnStart (before ++ r :: after) w
  = snd (forIndex (S (length before)) after (@restaurantIteration B)
           (snd (restaurantIteration (length before) r (turnStart before w)))).
Proof.
  unfold turnStart.
  rewrite (@forIndex_app _ (@restaurantIteration B) before (r :: after) 0 _
             (@restaurantIteration_ok B)).
  cbn [Nat.add].
  rewrite (@forIndex_step _ _ (@restaurantIteration B) (length before) r after _
             (restaurantIteration_ok (length before) r _)).
  reflexivity.
Qed.

End IsolationInARun.

(** C1.  Failures are isolated at the item and at the restaurant
    boundary, in every run.  An exception of [scrapeItemRow] is caught by
    the item loop, logged as a warning, and the loop goes on with the
    next row: with the categories expanded, [scrapeCurrentPage] gives
    every row that [findAllItemRows] returns its turn, never throws, and
    appends exactly the records of the rows that succeeded; so when row
    [k] throws its warning is on the console, every record of another
    row is in the dataset, and when all the others succeed the dataset
    grows by one less than the number of rows.  An exception of
    [scrapeRestaurant] is caught by the restaurant loop and logged as an
    error, and the loop goes on: in a run of [scrapeAllRestaurants] every
    restaurant of the list gets its turn in the world the turns before it
    left, whatever these threw; the run never throws, what a restaurant
    had collected when its scrape ended is in the final dataset, and the
    error of one that threw is on the final console. *)
Theorem failure_isolation (B : Browser) :
  (forall rn mp maxItems i (row : Elem B) rows w,
      fst (itemIteration rn mp maxItems i row w) = Ok tt
      /\ forIndex i (row :: rows) (itemIteration rn mp maxItems) w
         = forIndex (S i) rows (itemIteration rn mp maxItems)
                    (snd (itemIteration rn mp maxItems i row w))
      /\ (forall e w1,
            scrapeItemRow row rn mp w = (Throw e, w1) ->
            itemIteration rn mp maxItems i row w
            = (Ok tt, rested CONFIG.delayBetweenClicks
                        (logged LWarn (ErrorOnItem (i + 1) (message e)) w1))))
  /\ (forall rn mp maxItems i (rows : list (Elem B)) w,
      fst (forIndex i rows (itemIteration rn mp maxItems) w) = Ok tt
      /\ length (itemOutcomes rn mp maxItems i rows w) = length rows
      /\ allData (snd (forIndex i rows (itemIteration rn mp maxItems) w))
         = allData w ++ produced (itemOutcomes rn mp maxItems i rows w))
  /\ (forall rn mp maxItems i (rows : list (Elem B)) w k e,
      nth_error (itemOutcomes rn mp maxItems i rows w) k = Some (Failed e) ->
      (forall j, j <> k -> j < length rows ->
         exists d, nth_error (itemOutcomes rn mp maxItems i rows w) j
                   = Some (Produced d)) ->
      length (allData (snd (forIndex i rows (itemIteration rn mp maxItems) w)))
      = length (allData w) + (length rows - 1))
  /\ (forall rn mp (w w1 : World B),
      expandAllCategories w = (Ok tt, w1) ->
      scrapeCurrentPage rn mp w
      = forIndex 0 (pageRows w1) (itemIteration rn mp (length (pageRows w1)))
                (loopStart w1)
      /\ fst (scrapeCurrentPage rn mp w) = Ok tt
      /\ length (pageOutcomes rn mp w1) = length (pageRows w1)
      /\ allData (snd (scrapeCurrentPage rn mp w))
         = allData w ++ produced (pageOutcomes rn mp w1))
  /\ (forall rn mp (w w1 : World B) k e,
      expandAllCategories w = (Ok tt, w1) ->
      nth_error (pageOutcomes rn mp w1) k = Some (Failed e) ->
      In (LWarn, ErrorOnItem (k + 1) (message e))
         (console (snd (scrapeCurrentPage rn mp w)))
      /\ (forall j d,
            nth_error (pageOutcomes rn mp w1) j = Some (Produced d) ->
            In d (allData (snd (scrapeCurrentPage rn mp w))))
      /\ ((forall j, j <> k -> j < length (pageRows w1) ->
             exists d, nth_error (pageOutcomes rn mp w1) j = Some (Produced d)) ->
          length (allData (snd (scrapeCurrentPage rn mp w)))
          = length (allData w) + (length (pageRows w1) - 1)))
  /\ (forall i r rs (w : World B),
      restaurantIteration i r w
      = (Ok tt,
         rested CONFIG.delayAfterRestaurant
           match scrapeRestaurant r (announced i r w) with
           | (Ok _, w1) => w1
           | (Throw e, w1) => logged LError (ErrorScraping (name r) e) w1
           end)
      /\ forIndex i (r :: rs) (@restaurantIteration B) w
         = forIndex (S i) rs (@restaurantIteration B)
                    (snd (restaurantIteration i r w)))
  /\ (forall w : World B,
      fst (forIndex 0 RESTAURANTS (@restaurantIteration B) w) = Ok tt
      /\ fst (scrapeAllRestaurants w) = Ok tt
      /\ allData (snd (scrapeAllRestaurants w)) = allData (turnStart RESTAURANTS w))
  /\ (forall before r after (w : World B),
      RESTAURANTS = before ++ r :: after ->
      turnStart RESTAURANTS w
      = snd (forIndex (S (length before)) after (@restaurantIteration B)
               (snd (restaurantIteration (length before) r (turnStart before w))))
      /\ (exists later,
            allData (snd (scrapeAllRestaurants w))
            = allData (snd (scrapeRestaurant r
                              (announced (length before) r (turnStart before w))))
              ++ later)
      /\ (forall e,
            fst (scrapeRestaurant r
                   (announced (length before) r (turnStart before w))) = Throw e ->
            In (LError, ErrorScraping (name r) e)
               (console (snd (scrapeAllRestaurants w))))).
Proof.
  assert (Run : forall w : World B,
             fst (scrapeAllRestaurants w) = Ok tt
             /\ allData (snd (scrapeAllRestaurants w))
                = allData (turnStart RESTAURANTS w)
             /\ forall x, In x (console (turnStart RESTAURANTS w)) ->
                          In x (console (snd (scrapeAllRestaurants w)))).
  { intros w. rewrite scrapeAllRestaurants_end.
    set (w3 := turnStart RESTAURANTS w).
    set (w4 := logged LLog Rule _).
    split; [|split].
    - unfold downloadCSV. destruct (Nat.eqb (length (allData w3)) 0); reflexivity.
    - unfold downloadCSV. destruct (Nat.eqb (length (allData w3)) 0); reflexivity.
    - intros x Hx. apply logs_keeps_line; [apply logs_downloadCSV|].
      unfold w4, logged. cbn [console].
      repeat (apply in_or_app; left). exact Hx. }
  split; [|split; [|split; [|split; [|split; [|split; [|split]]]]]].
  - intros rn mp maxItems i row rows w.
    destruct (itemIteration_spec rn mp maxItems i row w) as [H _].
    split; [exact H|]. split; [now apply forIndex_step|].
    intros e w1. apply itemIteration_caught.
  - intros rn mp maxItems i rows w.
    destruct (item_loop_spec rn mp maxItems rows i w) as [H1 H2].
    split; [exact H1|]. split; [apply itemOutcomes_length | exact H2].
  - intros rn mp maxItems i rows w k e Hk Ho.
    destruct (item_loop_spec rn mp maxItems rows i w) as [_ H2].
    rewrite H2, length_app.
    rewrite (produced_all_but_one _ Hk).
    + now rewrite itemOutcomes_length.
    + intros j Hj Hl. apply Ho; [exact Hj|].
      now rewrite itemOutcomes_length in Hl.
  - intros rn mp w w1 H.
    pose proof (keeps_expandAllCategories w) as Hk. rewrite H in Hk.
    cbn [snd] in Hk.
    rewrite (@scrapeCurrentPage_run B rn mp w w1 H).
    destruct (item_loop_spec rn mp (length (pageRows w1)) (pageRows w1) 0
                             (loopStart w1)) as [H1 H2].
    split; [reflexivity|]. split; [exact H1|].
    split; [apply itemOutcomes_length|].
    rewrite H2. change (allData (loopStart w1)) with (allData w1).
    rewrite Hk. reflexivity.
  - intros rn mp w w1 k e H Hf.
    pose proof (keeps_expandAllCategories w) as Hk. rewrite H in Hk.
    cbn [snd] in Hk.
    rewrite (@scrapeCurrentPage_run B rn mp w w1 H).
    destruct (item_loop_spec rn mp (length (pageRows w1)) (pageRows w1) 0
                             (loopStart w1)) as [_ H2].
    fold (pageOutcomes rn mp w1) in H2.
    split; [|split].
    + exact (@item_loop_logged B rn mp (length (pageRows w1)) (pageRows w1) 0
               (loopStart w1) k e Hf).
    + intros j d Hj. rewrite H2. apply in_or_app. right.
      apply produced_in with j. exact Hj.
    + intros Ho. rewrite H2, length_app.
      rewrite (produced_all_but_one _ Hf).
      * unfold pageOutcomes. rewrite itemOutcomes_length.
        change (allData (loopStart w1)) with (allData w1). now rewrite Hk.
      * intros j Hj Hl. apply Ho; [exact Hj|].
        unfold pageOutcomes in Hl. now rewrite itemOutcomes_length in Hl.
  - intros i r rs w. split; [apply restaurantIteration_run|].
    apply forIndex_step, restaurantIteration_ok.
  - intros w. split; [apply restaurant_loop_ok|].
    destruct (Run w) as (R1 & R2 & _). split; [exact R1 | exact R2].
  - intros before r after w E.
    destruct (Run w) as (_ & R2 & R3).
    pose proof (turnStart_split before r after w) as Sp. rewrite <- E in Sp.
    split; [exact Sp|].
    set (w0 := turnStart before w) in *.
    set (n := length before) in *.
    assert (T : snd (restaurantIteration n r w0)
                = rested CONFIG.delayAfterRestaurant
                    match scrapeRestaurant r (announced n r w0) with
                    | (Ok _, w1) => w1
                    | (Throw e, w1) => logged LError (ErrorScraping (name r) e) w1
                    end)
      by (now rewrite restaurantIteration_run).
    split.
    + destruct (appends_restaurant_loop (S n) after (snd (restaurantIteration n r w0)))
        as (later & L & _).
      exists later. rewrite R2, Sp, L, T.
      destruct (scrapeRestaurant r (announced n r w0)) as [[[]|e] w1]; reflexivity.
    + intros e He. apply R3. rewrite Sp.
      apply logs_keeps_line.
      * apply logs_forIndex. intros j x. apply logs_restaurantIteration.
      * rewrite T.
        destruct (scrapeRestaurant r (announced n r w0)) as [[[]|e'] w1];
          cbn [fst] in He; [discriminate He|].
        injection He as ->. unfold rested, logged. cbn [console].
        apply in_or_app. right. now left.
Qed.

Lemma failure_isolation_witness :
  length (allData (snd (scrapeCurrentPage (lit "Cafe") (lit "All Day")
                          (Fixture.start Fixture.cafe))))
  = 0 + (4 - 1)
  /\ In (LWarn, ErrorOnItem 2 (lit "itemLink.click is not a function"))
        (console (snd (scrapeCurrentPage (lit "Cafe") (lit "All Day")
                         (Fixture.start Fixture.cafe))))
  /\ In (LError, ErrorScraping (lit "Cafe")
                   (JsError (lit "restaurantLink.click is not a function")))
        (console (snd (scrapeAllRestaurants Examples.locked_start)))
  /\ 3 <= length (allData (snd (scrapeAllRestaurants Examples.locked_start))).
Proof.
  destruct (failure_isolation Fixture.browser) as (_ & _ & _ & _ & P & _).
  destruct (failure_isolation Examples.locked) as (_ & _ & _ & _ & _ & _ & _ & R).
  destruct (P (lit "Cafe") (lit "All Day") (Fixture.start Fixture.cafe)
              (Fixture.start Fixture.cafe) 1
              (JsError (lit "itemLink.click is not a function")))
    as (P1 & _ & P3); [vm_compute; reflexivity | vm_compute; reflexivity |].
  split; [|split; [exact P1|]].
  - apply P3. intros j Hj Hl.
    destruct j as [|[|[|[|j]]]];
      [ | exfalso; apply Hj; reflexivity | | | exfalso; vm_compute in Hl; lia ];
      vm_compute; eexists; reflexivity.
  - split.
    + destruct (R (firstn 3 RESTAURANTS) (Restaurant (lit "Cafe") 14)
                  (skipn 4 RESTAURANTS) Examples.locked_start eq_refl)
        as (_ & _ & E).
      apply E. vm_compute. reflexivity.
    + destruct (R (firstn 4 RESTAURANTS) (Restaurant (lit "Duke Marine Lab") 2)
                  (skipn 5 RESTAURANTS) Examples.locked_start eq_refl)
        as (_ & (later & E) & _).
      rewrite E, length_app.
      apply Nat.le_trans with (2 := Nat.le_add_r _ _).
      vm_compute. apply le_n.
Defined.

(* ================================================================= *)
(** * CSV export *)

Lemma double_quotes_cons c t :
  double_quotes (c :: t) =
  (if N.eqb c 34 then [34%N; 34%N] else [c]) ++ double_quotes t.
Proof. reflexivity. Qed.

Lemma scan_dquote i p t :
  match scan Pat.dquote i p t with
  | None => double_quotes t = t
  | Some m =>
      length (rest (final m)) < length (skipn (index m - i) t)
      /\ i <= index m
      /\ double_quotes t =
         firstn (index m - i) t ++ [34%N; 34%N] ++ double_quotes (rest (final m))
  end.
Proof.
  revert i p. induction t as [|c t IH]; intros i p.
  - reflexivity.
  - cbn [scan Pat.dquote re ignoreCase source rmatch].
    unfold step1. cbn [rest cap]. unfold char_matches, char_eqb.
    rewrite N.eqb_sym.
    destruct (N.eqb c 34) eqn:Hc.
    + cbn [index final rest]. rewrite Nat.sub_diag. cbn [skipn firstn app].
      split; [simpl; lia|]. split; [lia|].
      rewrite double_quotes_cons, Hc. reflexivity.
    + specialize (IH (S i) (Some c)). fold (re (Char 34%N)). fold Pat.dquote.
      destruct (scan Pat.dquote (S i) (Some c) t) as [m|].
      * destruct IH as (H1 & H2 & H3).
        replace (index m - i) with (S (index m - S i)) by lia.
        cbn [skipn firstn app]. split; [exact H1|]. split; [lia|].
        rewrite double_quotes_cons, Hc, H3. reflexivity.
      * rewrite double_quotes_cons, Hc, IH. reflexivity.
Qed.

Lemma replace_dquote t :
  replace_all Pat.dquote [34%N; 34%N] t = double_quotes t.
Proof.
  unfold replace_all. apply replace_loop_spec; [|lia].
  intros p u. pose proof (scan_dquote 0 p u) as H.
  destruct (scan Pat.dquote 0 p u) as [m|]; [|exact H].
  rewrite Nat.sub_0_r in H. destruct H as (H1 & _ & H3). now split.
Qed.

(** A data cell is the record's string, quotes doubled, in quotes; an
    absent or empty field is an empty quoted string. *)
Lemma csvCell_spec row header :
  csvCell row header = [34%N] ++ double_quotes (field_of row header) ++ [34%N].
Proof.
  unfold csvCell, field_of. rewrite replace_dquote.
  destruct (get row header) as [[|v]|]; reflexivity.
Qed.

Lemma run_app st a b : Csv.run st (a ++ b) = Csv.run (Csv.run st a) b.
Proof. unfold Csv.run. apply fold_left_app. Qed.

Lemma run_quoted_body v rs r f :
  Csv.run (Csv.PState rs r f Csv.Quoted) (double_quotes v)
  = Csv.PState rs r (f ++ v) Csv.Quoted.
Proof.
  revert f. induction v as [|c v IH]; intros f.
  - simpl. now rewrite app_nil_r.
  - rewrite double_quotes_cons, run_app.
    replace (f ++ c :: v) with ((f ++ [c]) ++ v) by (now rewrite <- app_assoc).
    rewrite <- IH. f_equal.
    destruct (N.eqb c 34) eqn:Hc.
    + apply N.eqb_eq in Hc. subst c. reflexivity.
    + cbn [Csv.run fold_left Csv.step Csv.now]. rewrite Hc. reflexivity.
Qed.

Lemma run_quoted v rs r :
  Csv.run (Csv.PState rs r [] Csv.FieldStart) (quoted v)
  = Csv.PState rs r v Csv.QuoteInQuoted.
Proof.
  unfold quoted. rewrite run_app.
  change (Csv.run (Csv.PState rs r [] Csv.FieldStart) [34%N])
    with (Csv.PState rs r [] Csv.Quoted).
  rewrite run_app, run_quoted_body. reflexivity.
Qed.

Lemma join_cons2 sep (x y : str) l :
  join sep (x :: y :: l) = x ++ sep ++ join sep (y :: l).
Proof. reflexivity. Qed.

(** A line of quoted cells reads back as its values. *)
Lemma run_data_row vs :
  vs <> [] ->
  forall rs r,
  exists r' f',
    Csv.run (Csv.PState rs r [] Csv.FieldStart)
            (join (lit ",") (List.map quoted vs))
    = Csv.PState rs r' f' Csv.QuoteInQuoted
    /\ r' ++ [f'] = r ++ vs.
Proof.
  induction vs as [|v vs IH]; intros Hne rs r; [congruence|].
  destruct vs as [|v2 vs].
  - exists r, v. split; [apply run_quoted | reflexivity].
  - cbn [List.map]. rewrite join_cons2, run_app, run_quoted, run_app.
    change (Csv.run (Csv.PState rs r v Csv.QuoteInQuoted) (lit ","))
      with (Csv.PState rs (r ++ [v]) [] Csv.FieldStart).
    destruct (IH ltac:(discriminate) rs (r ++ [v])) as (r' & f' & E & Er).
    exists r', f'. split; [exact E|]. rewrite Er, <- app_assoc. reflexivity.
Qed.

Lemma run_plain name rs r f m :
  plain name = true -> open_mode m ->
  exists m',
    open_mode m'
    /\ Csv.run (Csv.PState rs r f m) name = Csv.PState rs r (f ++ name) m'.
Proof.
  revert f m. induction name as [|c name IH]; intros f m Hp Hm.
  - exists m. split; [exact Hm|]. simpl. now rewrite app_nil_r.
  - unfold plain in Hp. cbn [forallb] in Hp. apply andb_prop in Hp as [Hc Hp].
    apply negb_true_iff in Hc. rewrite !orb_false_iff in Hc.
    destruct Hc as (((H34 & H44) & H10) & H13).
    assert (E : Csv.step (Csv.PState rs r f m) c
                = Csv.PState rs r (f ++ [c]) Csv.Unquoted).
    { destruct Hm as [-> | ->]; unfold Csv.step, Csv.outside; cbn [Csv.now];
        rewrite ?H34, H44, H10, H13; reflexivity. }
    destruct (IH (f ++ [c]) Csv.Unquoted Hp (or_intror eq_refl)) as (m' & Hm' & E').
    exists m'. split; [exact Hm'|].
    cbn [Csv.run fold_left]. rewrite E. unfold Csv.run in E'. rewrite E'.
    now rewrite <- app_assoc.
Qed.

(** The header line reads back as the headers. *)
Lemma run_header_row hs :
  hs <> [] -> forallb plain hs = true ->
  forall rs r,
  exists r' f' m',
    open_mode m'
    /\ Csv.run (Csv.PState rs r [] Csv.FieldStart) (join (lit ",") hs)
       = Csv.PState rs r' f' m'
    /\ r' ++ [f'] = r ++ hs.
Proof.
  induction hs as [|h hs IH]; intros Hne Hp rs r; [congruence|].
  cbn [forallb] in Hp. apply andb_prop in Hp as [Hh Hp].
  destruct hs as [|h2 hs].
  - destruct (run_plain h rs r [] Hh (or_introl eq_refl)) as (m' & Hm' & E).
    exists r, h, m'. split; [exact Hm'|]. split; [exact E | reflexivity].
  - rewrite join_cons2, run_app.
    destruct (run_plain h rs r [] Hh (or_introl eq_refl)) as (m' & Hm' & E).
    rewrite E, run_app. cbn [app].
    assert (Ec : Csv.run (Csv.PState rs r h m') (lit ",")
                 = Csv.PState rs (r ++ [h]) [] Csv.FieldStart)
      by (destruct Hm' as [-> | ->]; reflexivity).
    rewrite Ec.
    destruct (IH ltac:(discriminate) Hp rs (r ++ [h])) as (r' & f' & m2 & Hm2 & E2 & Er).
    exists r', f', m2. split; [exact Hm2|]. split; [exact E2|].
    rewrite Er, <- app_assoc. reflexivity.
Qed.

(** Lines of quoted cells read back as the rows of values. *)
Lemma run_data_lines (vals : list (list str)) :
  vals <> [] -> Forall (fun vs => vs <> []) vals ->
  forall rs,
    Csv.finish
      (Csv.run (Csv.PState rs [] [] Csv.FieldStart)
         (join [10%N] (List.map (fun vs => join (lit ",") (List.map quoted vs)) vals)))
    = rs ++ vals.
Proof.
  induction vals as [|vs vals IH]; intros Hne Hall rs; [congruence|].
  inversion Hall as [|? ? Hvs Hall']; subst.
  destruct (run_data_row Hvs rs []) as (r' & f' & E & Er). cbn [app] in Er.
  destruct vals as [|vs2 vals].
  - cbn [List.map join]. rewrite E. unfold Csv.finish. cbn.
    rewrite Er. reflexivity.
  - cbn [List.map]. rewrite join_cons2, run_app, E, run_app.
    change (Csv.run (Csv.PState rs r' f' Csv.QuoteInQuoted) [10%N])
      with (Csv.PState (rs ++ [r' ++ [f']]) [] [] Csv.FieldStart).
    rewrite Er.
    change (join [10%N]
              ((fun vs => join (lit ",") (List.map quoted vs)) vs2
               :: List.map (fun vs => join (lit ",") (List.map quoted vs)) vals))
      with (join [10%N]
              (List.map (fun vs => join (lit ",") (List.map quoted vs)) (vs2 :: vals))).
    rewrite IH; [now rewrite <- app_assoc | discriminate | exact Hall'].
Qed.

Lemma csvContent_format data :
  csvContent data =
  join [10%N]
       (join (lit ",") (keys (hd [] data))
        :: List.map
             (fun vs => join (lit ",") (List.map quoted vs))
             (List.map (fun row => List.map (field_of row) (keys (hd [] data))) data)).
Proof.
  unfold csvContent. f_equal. f_equal. rewrite map_map.
  apply map_ext. intros row. f_equal. rewrite map_map.
  apply map_ext. intros h. apply csvCell_spec.
Qed.

(** C6.  For a non-empty dataset whose headers (the keys of the first
    record, in insertion order) need no quoting, the export is the header
    line followed by one line per record, each cell the record's string
    with quotes doubled and enclosed in quotes (an empty quoted string
    for an empty field); a standard CSV reader gives back the header row
    and, for each record in order, its fields under the headers, whatever
    quotes, commas or line breaks they hold; and with uniform records
    these are the records' own values. *)
Theorem csv_round_trip data headers :
  data <> [] ->
  headers = keys (hd [] data) ->
  headers <> [] ->
  forallb plain headers = true ->
  csvContent data
  = join [10%N]
      (join (lit ",") headers
       :: List.map (fun row =>
            join (lit ",") (List.map (fun h => quoted (field_of row h)) headers))
            data)
  /\ Csv.parse (csvContent data)
     = headers :: List.map (fun row => List.map (field_of row) headers) data
  /\ length (Csv.parse (csvContent data)) = 1 + length data
  /\ (well_formed headers data ->
      forall row h, In row data -> In h headers ->
                    get row h = Some (JStr (field_of row h))).
Proof.
  intros Hd Hh Hne Hp.
  assert (P : Csv.parse (csvContent data)
              = headers :: List.map (fun row => List.map (field_of row) headers) data).
  { rewrite csvContent_format, <- Hh. unfold Csv.parse.
    destruct data as [|d data]; [congruence|].
    cbn [List.map]. rewrite join_cons2, run_app.
    destruct (run_header_row Hne Hp [] []) as (r' & f' & m' & Hm' & E & Er).
    rewrite E, run_app. cbn [app] in Er.
    assert (Ec : Csv.run (Csv.PState [] r' f' m') [10%N]
                 = Csv.PState [r' ++ [f']] [] [] Csv.FieldStart)
      by (destruct Hm' as [-> | ->]; reflexivity).
    rewrite Ec, Er.
    change (join [10%N]
              (join (lit ",") (List.map quoted (List.map (field_of d) headers))
               :: List.map (fun vs => join (lit ",") (List.map quoted vs))
                    (List.map (fun row => List.map (field_of row) headers) data)))
      with (join [10%N]
              (List.map (fun vs => join (lit ",") (List.map quoted vs))
                 (List.map (fun row => List.map (field_of row) headers) (d :: data)))).
    rewrite run_data_lines; [reflexivity | discriminate |].
    apply Forall_forall. intros vs Hvs. apply in_map_iff in Hvs as (row & <- & _).
    destruct headers; [congruence | discriminate]. }
  split; [|split; [|split]].
  - rewrite csvContent_format, <- Hh. f_equal. f_equal. rewrite map_map.
    apply map_ext. intros row. now rewrite map_map.
  - exact P.
  - rewrite P. cbn [length]. now rewrite length_map.
  - intros Hwf row h Hrow Hin. destruct (Hwf row h Hrow Hin) as (v & Hv).
    unfold field_of. now rewrite Hv.
Qed.

Lemma csv_round_trip_witness :
  Csv.parse (csvContent Examples.quoted_records)
  = [lit "item_name"; lit "ingredients"]
    :: List.map (fun row => List.map (field_of row)
                              [lit "item_name"; lit "ingredients"])
                Examples.quoted_records
  /\ get (hd [] Examples.quoted_records) (lit "item_name")
     = Some (JStr (field_of (hd [] Examples.quoted_records) (lit "item_name"))).
Proof.
  destruct (@csv_round_trip Examples.quoted_records
              [lit "item_name"; lit "ingredients"]
              ltac:(discriminate) eq_refl ltac:(discriminate) eq_refl)
    as (_ & H & _ & W).
  split; [exact H|].
  apply W.
  - intros row h Hr Hh. vm_compute in Hr, Hh.
    destruct Hr as [<-|[<-|[]]]; destruct Hh as [<-|[<-|[]]];
      eexists; vm_compute; reflexivity.
  - vm_compute. left. reflexivity.
  - vm_compute. left. reflexivity.
Defined.

(* ================================================================= *)
(** * Calorie fallback chain *)

Lemma take_drop_while p t : take_while p t ++ drop_while p t = t.
Proof.
  induction t as [|c t IH]; [reflexivity|]. cbn [take_while drop_while].
  destruct (p c); [|reflexivity]. cbn [app]. now rewrite IH.
Qed.

Lemma drop_while_head p t : head_fails p (drop_while p t).
Proof.
  induction t as [|c t IH]; [exact I|]. cbn [drop_while].
  destruct (p c) eqn:E; [exact IH | exact E].
Qed.

Lemma digits_at_some t v :
  digits_at t = Some v -> forallb is_digit v = true /\ v <> [].
Proof.
  unfold digits_at. destruct (starts_with_digit t) eqn:E; [|discriminate].
  intros H; injection H as <-. split; [apply take_while_all|].
  destruct t as [|d t]; [discriminate E|]. cbn [starts_with_digit] in E.
  cbn [take_while]. rewrite E. discriminate.
Qed.

Lemma trim_digits v : forallb is_digit v = true -> trim v = v.
Proof.
  assert (D : forall u, forallb is_digit u = true -> drop_space u = u).
  { intros [|c u] H; [reflexivity|]. cbn [forallb] in H.
    apply andb_prop in H as [H _]. cbn [drop_space].
    now rewrite (digit_not_space _ H). }
  intros H. unfold trim. rewrite (D v H), D; [apply rev_involutive|].
  apply forallb_forall. intros c Hc. apply in_rev in Hc.
  exact (proj1 (forallb_forall _ _) H c Hc).
Qed.

(** [(\d+)] at the end of a pattern: it takes the whole run of digits
    the text starts with, and fails where there is none. *)
Lemma group_digits ic t pv cp :
  rmatch ic (Group (Plus Digit)) Some (MState t pv cp) =
  match digits_at t with
  | Some v => Some (MState (drop_while is_digit t) (last_char pv v) (Some v))
  | None => None
  end.
Proof.
  unfold digits_at. destruct (starts_with_digit t) eqn:E.
  - destruct t as [|d t]; [discriminate|]. cbn [starts_with_digit] in E.
    cbn [take_while drop_while]. rewrite E.
    rewrite <- (take_drop_while is_digit t) at 1.
    apply group_digits_end; [exact E | apply take_while_all |].
    pose proof (drop_while_head is_digit t) as H.
    destruct (drop_while is_digit t); [reflexivity | exact H].
  - cbn [rmatch]. unfold Digit. apply rmatch_plus_fail. cbn [rest].
    destruct t as [|c t]; [exact I|]. rewrite class_digit. exact E.
Qed.

Lemma group_digits_at_space ic s :
  match rest s with a :: _ => is_space a = true | [] => False end ->
  rmatch ic (Group (Plus Digit)) Some s = None.
Proof.
  destruct s as [[|a t] pv cp]; cbn [rest]; [contradiction|]. intros H.
  rewrite group_digits. unfold digits_at. cbn [starts_with_digit].
  now rewrite (space_not_digit _ H).
Qed.

(** A greedy quantifier over a class gives way only to a continuation
    that can start inside the run; when it cannot, the whole run is
    taken. *)
Lemma star_greedy_exact p fuel k t pv cp :
  length t <= fuel ->
  (forall s', match rest s' with a :: _ => p a = true | [] => False end ->
              k s' = None) ->
  star_loop fuel (step1 p) true k (MState t pv cp)
  = k (after_run p (MState t pv cp)).
Proof.
  intros Hl Hk. revert t pv Hl.
  induction fuel as [|fuel IH]; intros t pv Hl.
  - destruct t; [reflexivity | simpl in Hl; lia].
  - cbn [star_loop]. unfold step1 at 1. cbn [rest cap].
    destruct t as [|a t]; [reflexivity|].
    unfold after_run. cbn [rest prev cap take_while drop_while].
    destruct (p a) eqn:Pa; [|reflexivity].
    cbn [rest length].
    replace (Nat.ltb (length t) (S (length t))) with true
      by (symmetry; apply Nat.ltb_lt; lia).
    rewrite IH by (simpl in Hl; lia).
    unfold after_run. cbn [rest prev cap].
    change (last_char pv (a :: take_while p t))
      with (last_char (Some a) (take_while p t)).
    destruct (k _) eqn:E; [reflexivity|].
    apply Hk. cbn [rest]. exact Pa.
Qed.

Lemma rmatch_star_exact ic negated items k t pv cp :
  (forall s', match rest s' with
              | a :: _ => class_matches ic negated items a = true
              | [] => False
              end -> k s' = None) ->
  rmatch ic (Star true (Class negated items)) k (MState t pv cp)
  = k (after_run (class_matches ic negated items) (MState t pv cp)).
Proof.
  intros Hk. cbn [rmatch rest].
  apply (star_greedy_exact (class_matches ic negated items)); [lia | exact Hk].
Qed.

Lemma rmatch_plus_exact ic negated items k t pv cp :
  (forall s', match rest s' with
              | a :: _ => class_matches ic negated items a = true
              | [] => False
              end -> k s' = None) ->
  rmatch ic (Plus (Class negated items)) k (MState t pv cp)
  = match t with
    | a :: _ =>
        if class_matches ic negated items a
        then k (after_run (class_matches ic negated items) (MState t pv cp))
        else None
    | [] => None
    end.
Proof.
  intros Hk. unfold Plus. cbn [rmatch]. unfold step1 at 1. cbn [rest cap].
  destruct t as [|a t]; [reflexivity|].
  destruct (class_matches ic negated items a) eqn:Pa; [|reflexivity].
  cbn [rest].
  transitivity (k (after_run (class_matches ic negated items)
                             (MState t (Some a) cp))).
  - apply (star_greedy_exact (class_matches ic negated items)); [lia | exact Hk].
  - unfold after_run. cbn [rest prev cap take_while drop_while]. rewrite Pa.
    reflexivity.
Qed.

Lemma class_space_nl c :
  class_matches true false [CSpace; CChar 10%N] c = is_space c.
Proof.
  unfold class_matches. cbn [existsb citem_matches xorb].
  destruct (is_space c) eqn:S; [reflexivity|].
  destruct (char_matches true 10%N c) eqn:M; [|reflexivity].
  exfalso. unfold char_matches, char_eqb in M. apply N.eqb_eq in M.
  change (canonicalize 10%N) with 10%N in M. unfold canonicalize in M.
  destruct (in_range 97%N 122%N c) eqn:R.
  - apply in_range_spec in R. lia.
  - subst c. discriminate S.
Qed.

(** Pattern 1 matches exactly at a no-space token, and captures its
    digits. *)
Lemma calories1_here t p :
  match no_space_token t with
  | Some v =>
      exists m, rmatch (ignoreCase Pat.calories1) (source Pat.calories1) Some
                       (MState t p None) = Some m
                /\ cap m = Some v
  | None =>
      rmatch (ignoreCase Pat.calories1) (source Pat.calories1) Some
             (MState t p None) = None
  end.
Proof.
  unfold Pat.calories1, seqs. cbn [ignoreCase source re_i].
  change (rmatch true (Seq (Lit "Calories") (Group (Plus Digit))) Some
                 (MState t p None))
    with (rmatch true (Lit' (lit "Calories"))
                 (rmatch true (Group (Plus Digit)) Some) (MState t p None)).
  rewrite rmatch_Lit', eat_ci. unfold no_space_token.
  destruct (ci_prefix (lit "Calories") t); [|reflexivity].
  change (length (lit "Calories")) with 8. rewrite group_digits.
  destruct (digits_at (skipn 8 t)); [|reflexivity].
  eexists. split; reflexivity.
Qed.

(** Pattern 2 matches exactly at a spaced token. *)
Lemma calories2_here t p :
  match spaced_token t with
  | Some v =>
      exists m, rmatch (ignoreCase Pat.calories2) (source Pat.calories2) Some
                       (MState t p None) = Some m
                /\ cap m = Some v
  | None =>
      rmatch (ignoreCase Pat.calories2) (source Pat.calories2) Some
             (MState t p None) = None
  end.
Proof.
  unfold Pat.calories2, seqs. cbn [ignoreCase source re_i].
  change (rmatch true (Seq (Lit "Calories") (Seq (Plus Space) (Group (Plus Digit))))
                 Some (MState t p None))
    with (rmatch true (Lit' (lit "Calories"))
                 (rmatch true (Plus Space) (rmatch true (Group (Plus Digit)) Some))
                 (MState t p None)).
  rewrite rmatch_Lit', eat_ci. unfold spaced_token.
  destruct (ci_prefix (lit "Calories") t); [|reflexivity].
  change (length (lit "Calories")) with 8. unfold Space.
  rewrite rmatch_plus_exact.
  2:{ intros s' H. apply group_digits_at_space.
      destruct (rest s'); [exact H|]. now rewrite class_space in H. }
  destruct (skipn 8 t) as [|c r]; [reflexivity|].
  rewrite class_space. destruct (is_space c) eqn:Sc; [|reflexivity].
  unfold after_run. cbn [rest prev cap]. rewrite group_digits.
  rewrite (@drop_while_ext (class_matches true false [CSpace]) is_space _
             (class_space true)).
  cbn [drop_while]. rewrite Sc.
  destruct (digits_at (drop_while is_space r)); [|reflexivity].
  eexists. split; reflexivity.
Qed.

(** The looser tail of patterns 3 and 4, the word, any whitespace, the
    digits, matches only at a no-space or a spaced token. *)
Lemma calories_tail_token items t pv cp x :
  (forall c, class_matches true false items c = is_space c) ->
  rmatch true (Seq (Lit "Calories")
                   (Seq (Star true (Class false items)) (Group (Plus Digit))))
         Some (MState t pv cp) = Some x ->
  no_space_token t <> None \/ spaced_token t <> None.
Proof.
  intros Hc H.
  change (rmatch true (Seq (Lit "Calories")
                           (Seq (Star true (Class false items)) (Group (Plus Digit))))
                 Some (MState t pv cp))
    with (rmatch true (Lit' (lit "Calories"))
                 (rmatch true (Star true (Class false items))
                         (rmatch true (Group (Plus Digit)) Some))
                 (MState t pv cp)) in H.
  rewrite rmatch_Lit', eat_ci in H. unfold no_space_token, spaced_token.
  destruct (ci_prefix (lit "Calories") t); [|discriminate H].
  change (length (lit "Calories")) with 8 in H.
  rewrite rmatch_star_exact in H.
  2:{ intros s' Hs. apply group_digits_at_space.
      destruct (rest s'); [exact Hs|]. now rewrite Hc in Hs. }
  unfold after_run in H. cbn [rest prev cap] in H. rewrite group_digits in H.
  rewrite (@drop_while_ext (class_matches true false items) is_space _ Hc) in H.
  destruct (skipn 8 t) as [|c r]; [discriminate H|].
  cbn [drop_while] in H. destruct (is_space c).
  - right. destruct (digits_at (drop_while is_space r)); discriminate.
  - left. destruct (digits_at (c :: r)); discriminate.
Qed.

Lemma first_token_tail token a t :
  first_token token (a :: t) = None -> first_token token t = None.
Proof. cbn [first_token]. destruct (token (a :: t)); [discriminate | auto]. Qed.

Lemma first_token_here token t :
  first_token token t = None -> token t = None.
Proof.
  destruct t; cbn [first_token]; destruct (token _); congruence.
Qed.

Lemma first_token_suffix token u v :
  first_token token (u ++ v) = None -> token v = None.
Proof.
  induction u as [|a u IH]; [apply first_token_here|].
  intros H. apply IH. exact (first_token_tail _ _ _ H).
Qed.

Lemma first_token_some token t v :
  first_token token t = Some v -> exists u, token u = Some v.
Proof.
  induction t as [|a t IH]; cbn [first_token].
  - destruct (token []) eqn:E; [|discriminate].
    intros H; injection H as <-. now exists [].
  - destruct (token (a :: t)) eqn:E.
    + intros H; injection H as <-. now exists (a :: t).
    + exact IH.
Qed.

(** The leftmost token is the one after a stretch where none begins. *)
Lemma first_token_skip token pre t :
  (forall i, i < length pre -> token (skipn i (pre ++ t)) = None) ->
  first_token token (pre ++ t) = first_token token t.
Proof.
  induction pre as [|a pre IH]; intros H; [reflexivity|].
  cbn [app first_token].
  pose proof (H 0 ltac:(simpl; lia)) as H0. cbn [skipn app] in H0. rewrite H0.
  apply IH. intros i Hi. apply (H (S i)). simpl. lia.
Qed.

Lemma first_token_word (token : str -> option str) w t :
  (forall u, ci_prefix w u = false -> token u = None) ->
  find_ci w t = None -> first_token token t = None.
Proof.
  intros Hw. induction t as [|a t IH]; intros H.
  - cbn [first_token]. now rewrite (Hw _ (find_ci_none_prefix _ _ H)).
  - cbn [first_token]. rewrite (Hw _ (find_ci_none_prefix _ _ H)).
    apply IH. exact (find_ci_none_tail _ _ _ H).
Qed.

(** Scanning from left to right finds the leftmost token. *)
Lemma scan_first_token R token :
  (forall t p,
      match token t with
      | Some v =>
          exists m, rmatch (ignoreCase R) (source R) Some (MState t p None) = Some m
                    /\ cap m = Some v
      | None => rmatch (ignoreCase R) (source R) Some (MState t p None) = None
      end) ->
  forall t i p,
    match first_token token t with
    | Some v => exists m, scan R i p t = Some m /\ group1 m = Some v
    | None => scan R i p t = None
    end.
Proof.
  intros H. induction t as [|a t IH]; intros i p; cbn [first_token scan].
  - specialize (H [] p). destruct (token []) as [v|].
    + destruct H as (m & -> & Hm). eexists. split; [reflexivity | exact Hm].
    + now rewrite H.
  - specialize (H (a :: t) p). destruct (token (a :: t)) as [v|].
    + destruct H as (m & -> & Hm). eexists. split; [reflexivity | exact Hm].
    + rewrite H. apply IH.
Qed.

Lemma extractMatch_first_token R token text :
  (forall t p,
      match token t with
      | Some v =>
          exists m, rmatch (ignoreCase R) (source R) Some (MState t p None) = Some m
                    /\ cap m = Some v
      | None => rmatch (ignoreCase R) (source R) Some (MState t p None) = None
      end) ->
  (forall t v, token t = Some v -> trim v = v) ->
  extractMatch text R
  = Ok (match first_token token text with Some v => v | None => [] end).
Proof.
  intros H Ht. unfold extractMatch, exec.
  pose proof (scan_first_token R token H text 0 None) as S.
  destruct (first_token token text) as [v|] eqn:F.
  - destruct S as (m & -> & ->).
    destruct (first_token_some _ _ F) as (u & Hu). now rewrite (Ht _ _ Hu).
  - now rewrite S.
Qed.

(** A pattern that matches only where a token begins further on finds
    nothing in a text without tokens. *)
Lemma scan_no_token R :
  (forall t pv x,
      rmatch (ignoreCase R) (source R) Some (MState t pv None) = Some x ->
      exists u v, t = u ++ v
                  /\ (no_space_token v <> None \/ spaced_token v <> None)) ->
  forall t i p,
    first_token no_space_token t = None ->
    first_token spaced_token t = None ->
    scan R i p t = None.
Proof.
  intros H.
  assert (Here : forall t pv,
             first_token no_space_token t = None ->
             first_token spaced_token t = None ->
             rmatch (ignoreCase R) (source R) Some (MState t pv None) = None).
  { intros t pv H1 H2.
    destruct (rmatch _ _ _ _) as [x|] eqn:E; [exfalso | reflexivity].
    destruct (H _ _ _ E) as (u & v & -> & [Hv|Hv]); apply Hv.
    - exact (first_token_suffix _ _ _ H1).
    - exact (first_token_suffix _ _ _ H2). }
  induction t as [|a t IH]; intros i p H1 H2; cbn [scan].
  - now rewrite Here.
  - rewrite Here by assumption.
    apply IH; [exact (first_token_tail _ _ _ H1) | exact (first_token_tail _ _ _ H2)].
Qed.

Lemma no_space_token_digits t v : no_space_token t = Some v -> trim v = v.
Proof.
  unfold no_space_token. destruct (ci_prefix _ _); [|discriminate].
  intros H. apply digits_at_some in H as [H _]. now apply trim_digits.
Qed.

Lemma spaced_token_digits t v : spaced_token t = Some v -> trim v = v.
Proof.
  unfold spaced_token. destruct (ci_prefix _ _); [|discriminate].
  destruct (skipn 8 t) as [|c r]; [discriminate|].
  destruct (is_space c); [|discriminate].
  intros H. apply digits_at_some in H as [H _]. now apply trim_digits.
Qed.

Lemma first_token_nonempty token text v :
  (forall t u, token t = Some u -> u <> []) ->
  first_token token text = Some v -> truthy v = true.
Proof.
  intros H F. destruct (first_token_some _ _ F) as (u & Hu).
  apply H in Hu. destruct v; [congruence | reflexivity].
Qed.

Lemma no_space_token_nonempty t v : no_space_token t = Some v -> v <> [].
Proof.
  unfold no_space_token. destruct (ci_prefix _ _); [|discriminate].
  intros H. now apply digits_at_some in H as [_ H].
Qed.

Lemma spaced_token_nonempty t v : spaced_token t = Some v -> v <> [].
Proof.
  unfold spaced_token. destruct (ci_prefix _ _); [|discriminate].
  destruct (skipn 8 t) as [|c r]; [discriminate|].
  destruct (is_space c); [|discriminate].
  intros H. now apply digits_at_some in H as [_ H].
Qed.

Lemma extractMatch_calories1 text :
  extractMatch text Pat.calories1
  = Ok (match first_token no_space_token text with Some v => v | None => [] end).
Proof.
  apply extractMatch_first_token;
    [apply calories1_here | apply no_space_token_digits].
Qed.

Lemma extractMatch_calories2 text :
  extractMatch text Pat.calories2
  = Ok (match first_token spaced_token text with Some v => v | None => [] end).
Proof.
  apply extractMatch_first_token;
    [apply calories2_here | apply spaced_token_digits].
Qed.

(** Patterns 3 and 4 find nothing that patterns 1 and 2 did not. *)
Lemma calories34_none text :
  first_token no_space_token text = None ->
  first_token spaced_token text = None ->
  exec Pat.calories3 text = None /\ exec Pat.calories4 text = None.
Proof.
  intros H1 H2. split; unfold exec; apply scan_no_token; try assumption.
  - intros t pv x E. unfold Pat.calories3, seqs in E.
    cbn [ignoreCase source re_i] in E.
    change (rmatch true
              (Seq (Lit "Amount Per Serving")
                 (Seq (Plus Space)
                    (Seq (Lit "Calories") (Seq (Star true Space) (Group (Plus Digit))))))
              Some (MState t pv None))
      with (rmatch true (Lit "Amount Per Serving")
              (rmatch true (Plus Space)
                 (rmatch true
                    (Seq (Lit "Calories") (Seq (Star true Space) (Group (Plus Digit))))
                    Some))
              (MState t pv None)) in E.
    apply rmatch_reaches in E. destruct E as (s1 & E1 & (u1 & Hu1) & _).
    apply rmatch_reaches in E1. destruct E1 as (s2 & E2 & (u2 & Hu2) & _).
    destruct s2 as [t2 pv2 cp2]. cbn [rest] in *.
    exists (u1 ++ u2), t2. split; [rewrite Hu1, Hu2; apply app_assoc|].
    unfold Space in E2.
    exact (@calories_tail_token [CSpace] t2 pv2 cp2 x (class_space true) E2).
  - intros t pv x E. unfold Pat.calories4, seqs in E.
    cbn [ignoreCase source re_i] in E.
    exists [], t. split; [reflexivity|].
    exact (@calories_tail_token [CSpace; CChar 10%N] t pv None x class_space_nl E).
Qed.

(** The chain computes the value by priority. *)
Lemma extractCalories_law text :
  extractCalories text = Ok (JStr (calories_of text)).
Proof.
  unfold extractCalories, calories_of.
  rewrite extractMatch_calories1.
  destruct (first_token no_space_token text) as [v1|] eqn:F1.
  - cbn [rbind].
    rewrite (first_token_nonempty _ _ no_space_token_nonempty F1).
    cbn [rbind].
    rewrite (first_token_nonempty _ _ no_space_token_nonempty F1).
    cbn [rbind].
    rewrite (first_token_nonempty _ _ no_space_token_nonempty F1).
    reflexivity.
  - cbn [rbind truthy]. rewrite extractMatch_calories2.
    destruct (first_token spaced_token text) as [v2|] eqn:F2.
    + cbn [rbind].
      rewrite (first_token_nonempty _ _ spaced_token_nonempty F2).
      cbn [rbind].
      rewrite (first_token_nonempty _ _ spaced_token_nonempty F2).
      reflexivity.
    + cbn [rbind truthy].
      destruct (calories34_none _ F1 F2) as [E3 E4].
      unfold extractMatch. rewrite E3. cbn [rbind truthy]. rewrite E4.
      reflexivity.
Qed.

Lemma no_space_token_at ds post :
  match ds with d :: _ => is_digit d = true | [] => False end ->
  forallb is_digit ds = true ->
  starts_with_digit post = false ->
  no_space_token (lit "Calories" ++ ds ++ post) = Some ds.
Proof.
  intros Hd Hds Hp. unfold no_space_token.
  rewrite ci_prefix_self_app.
  change 8 with (length (lit "Calories")). rewrite skipn_length_app.
  unfold digits_at. destruct ds as [|d ds]; [contradiction|].
  cbn [app starts_with_digit]. rewrite Hd.
  change (d :: ds ++ post) with ((d :: ds) ++ post).
  rewrite take_while_app; [reflexivity | exact Hds |].
  destruct post; [exact I | exact Hp].
Qed.

Lemma spaced_token_at w ws ds post :
  forallb is_space (w :: ws) = true ->
  match ds with d :: _ => is_digit d = true | [] => False end ->
  forallb is_digit ds = true ->
  starts_with_digit post = false ->
  spaced_token (lit "Calories" ++ (w :: ws) ++ ds ++ post) = Some ds.
Proof.
  intros Hw Hd Hds Hp. unfold spaced_token.
  rewrite ci_prefix_self_app.
  change 8 with (length (lit "Calories")). rewrite skipn_length_app.
  cbn [app forallb] in *. apply andb_prop in Hw as [Hw Hws]. rewrite Hw.
  destruct ds as [|d ds]; [contradiction|].
  rewrite drop_while_app;
    [|exact Hws | unfold head_fails; cbn [app]; now apply digit_not_space].
  unfold digits_at. cbn [app starts_with_digit]. rewrite Hd.
  change (d :: ds ++ post) with ((d :: ds) ++ post).
  rewrite take_while_app; [reflexivity | exact Hds |].
  destruct post; [exact I | exact Hp].
Qed.

Lemma token_needs_word u :
  ci_prefix (lit "Calories") u = false ->
  no_space_token u = None /\ spaced_token u = None.
Proof. intros H. unfold no_space_token, spaced_token. now rewrite H. Qed.

(** C2.  The calorie chain tries its patterns in order, the no-space
    pattern first, and is not one merged pattern.  Its result is the value
    of the leftmost no-space token wherever that stands, spaced tokens
    before it or not; for want of one, the value of the leftmost spaced
    token; else the empty string: pattern 1 matches exactly the former
    tokens, pattern 2 the latter, and patterns 3 and 4 nothing that these
    two left.  So when [Calories123] is the leftmost no-space token
    (no digit following), pattern 1 wins and the result is [123]; when the
    text has no no-space token and [Calories  456] is its leftmost spaced
    one, pattern 1 finds nothing and pattern 2 yields [456]; and a text
    with no token, in particular one without the word, gives the empty
    string.  This value is the [calories] field of the nutrition object
    read off a modal.  On the text [two_tokens] the chain and the merged
    pattern differ. *)
Theorem calories_fallback_order :
  (forall text, extractCalories text = Ok (JStr (calories_of text)))
  /\ (forall text,
      extractMatch text Pat.calories1
      = Ok (match first_token no_space_token text with
            | Some v => v
            | None => []
            end)
      /\ extractMatch text Pat.calories2
         = Ok (match first_token spaced_token text with
               | Some v => v
               | None => []
               end)
      /\ (first_token no_space_token text = None ->
          first_token spaced_token text = None ->
          exec Pat.calories3 text = None /\ exec Pat.calories4 text = None))
  /\ (forall pre post,
      (forall i, i < length pre ->
         no_space_token (skipn i (pre ++ lit "Calories123" ++ post)) = None) ->
      starts_with_digit post = false ->
      extractMatch (pre ++ lit "Calories123" ++ post) Pat.calories1 = Ok (lit "123")
      /\ extractCalories (pre ++ lit "Calories123" ++ post) = Ok (JStr (lit "123")))
  /\ (forall pre post,
      first_token no_space_token (pre ++ lit "Calories  456" ++ post) = None ->
      (forall i, i < length pre ->
         spaced_token (skipn i (pre ++ lit "Calories  456" ++ post)) = None) ->
      starts_with_digit post = false ->
      extractMatch (pre ++ lit "Calories  456" ++ post) Pat.calories1 = Ok []
      /\ extractMatch (pre ++ lit "Calories  456" ++ post) Pat.calories2
         = Ok (lit "456")
      /\ extractCalories (pre ++ lit "Calories  456" ++ post) = Ok (JStr (lit "456")))
  /\ (forall text,
      (first_token no_space_token text = None ->
       first_token spaced_token text = None ->
       extractCalories text = Ok (JStr []))
      /\ (find_ci (lit "Calories") text = None ->
          extractCalories text = Ok (JStr [])))
  /\ (forall text nutrition,
      extractNutrition text = Ok nutrition ->
      get nutrition (lit "calories") = Some (JStr (calories_of text)))
  /\ (forall (B : Browser) (w : World B) modal,
      findModal B (page w) = Some modal ->
      exists nutrition,
        extractNutritionFromModal w = (Ok nutrition, w)
        /\ get nutrition (lit "calories")
           = Some (JStr (calories_of (textContent B (page w) modal))))
  /\ (extractCalories Examples.two_tokens = Ok (JStr (lit "250"))
      /\ extractMatch Examples.two_tokens Pat.calories4 = Ok (lit "100")).
Proof.
  assert (Nut : forall text nutrition,
             extractNutrition text = Ok nutrition ->
             get nutrition (lit "calories") = Some (JStr (calories_of text))).
  { intros text nutrition. unfold extractNutrition.
    rewrite extractCalories_law. cbn [rbind].
    destruct (extractServing text) as [sv|e]; [|discriminate].
    destruct (extractMatch text Pat.total_fat) as [tf|e]; [|discriminate].
    destruct (extractMatch text Pat.saturated_fat) as [sf|e]; [|discriminate].
    destruct (extractMatch text Pat.trans_fat) as [trf|e]; [|discriminate].
    destruct (extractMatch text Pat.cholesterol) as [cho|e]; [|discriminate].
    destruct (extractMatch text Pat.sodium) as [sod|e]; [|discriminate].
    destruct (extractMatch text Pat.total_carbs) as [tc|e]; [|discriminate].
    destruct (extractMatch text Pat.fiber) as [fib|e]; [|discriminate].
    destruct (extractMatch text Pat.sugars) as [sug|e]; [|discriminate].
    destruct (extractMatch text Pat.protein) as [pro|e]; [|discriminate].
    destruct (extractIngredients text) as [ing|e]; [|discriminate].
    cbn [rbind]. intros H; injection H as <-. reflexivity. }
  assert (T1 : forall post,
             first_token no_space_token (lit "Calories123" ++ post)
             = no_space_token (lit "Calories123" ++ post)
               \/ no_space_token (lit "Calories123" ++ post) = None).
  { intros post. cbn [lit List.map list_ascii_of_string app first_token].
    destruct (no_space_token _); [now left | now right]. }
  assert (T2 : forall post,
             first_token spaced_token (lit "Calories  456" ++ post)
             = spaced_token (lit "Calories  456" ++ post)
               \/ spaced_token (lit "Calories  456" ++ post) = None).
  { intros post. cbn [lit List.map list_ascii_of_string app first_token].
    destruct (spaced_token _); [now left | now right]. }
  assert (N1 : forall post, starts_with_digit post = false ->
             first_token no_space_token (lit "Calories123" ++ post)
             = Some (lit "123")).
  { intros post Hp.
    assert (E : no_space_token (lit "Calories123" ++ post) = Some (lit "123"))
      by (apply (@no_space_token_at (lit "123") post); auto; reflexivity).
    destruct (T1 post) as [-> | H]; [exact E | congruence]. }
  assert (N2 : forall post, starts_with_digit post = false ->
             first_token spaced_token (lit "Calories  456" ++ post)
             = Some (lit "456")).
  { intros post Hp.
    assert (E : spaced_token (lit "Calories  456" ++ post) = Some (lit "456"))
      by (apply (@spaced_token_at (ch " ") (lit " ") (lit "456") post);
          auto; reflexivity).
    destruct (T2 post) as [-> | H]; [exact E | congruence]. }
  split; [apply extractCalories_law|].
  split.
  { intros text. split; [apply extractMatch_calories1|].
    split; [apply extractMatch_calories2|].
    intros H1 H2. now apply calories34_none. }
  split.
  { intros pre post Hpre Hp. split.
    - rewrite extractMatch_calories1, first_token_skip by assumption.
      now rewrite N1.
    - rewrite extractCalories_law. unfold calories_of.
      rewrite first_token_skip by assumption. now rewrite N1. }
  split.
  { intros pre post H Hpre Hp. split; [|split].
    - rewrite extractMatch_calories1. now rewrite H.
    - rewrite extractMatch_calories2, first_token_skip by assumption.
      now rewrite N2.
    - rewrite extractCalories_law. unfold calories_of. rewrite H.
      rewrite first_token_skip by assumption. now rewrite N2. }
  split.
  { intros text. split.
    - intros H1 H2. rewrite extractCalories_law. unfold calories_of.
      now rewrite H1, H2.
    - intros H. rewrite extractCalories_law. unfold calories_of.
      rewrite (@first_token_word no_space_token (lit "Calories") text);
        [|intros u Hu; apply (token_needs_word u Hu) | exact H].
      rewrite (@first_token_word spaced_token (lit "Calories") text);
        [reflexivity | intros u Hu; apply (token_needs_word u Hu) | exact H]. }
  split; [exact Nut|].
  split.
  { intros B w modal Hm. unfold extractNutritionFromModal.
    unfold bind at 1, getPage at 1. rewrite Hm. unfold liftR.
    destruct (extractNutrition_shape (textContent B (page w) modal))
      as (sv & cal & tf & sf & trf & cho & sod & tc & fib & sug & pro & ing & En & _).
    eexists. split; [rewrite En; reflexivity|].
    exact (Nut _ _ En). }
  split; vm_compute; reflexivity.
Qed.

Lemma calories_fallback_order_witness :
  extractCalories Examples.modal_spaced_then_tight = Ok (JStr (lit "123"))
  /\ extractCalories Examples.modal_spaced_twice = Ok (JStr (lit "456"))
  /\ extractCalories (lit "Nutrition Information Total Fat 5g") = Ok (JStr []).
Proof.
  destruct calories_fallback_order as (_ & _ & H1 & H2 & H3 & _).
  split; [|split].
  - destruct (H1 (lit "Nutrition Information Calories 100 kcal Serving Size 6 oz ")
                 (lit " Total Fat 5g")) as [_ E].
    + intros i Hi.
      repeat (destruct i as [|i]; [vm_compute; reflexivity|]).
      simpl in Hi. lia.
    + reflexivity.
    + exact E.
  - destruct (H2 (lit "Nutrition Information ")
                 (lit " Calories from Fat 90 Calories 12")) as (_ & _ & E).
    + vm_compute. reflexivity.
    + intros i Hi.
      repeat (destruct i as [|i]; [vm_compute; reflexivity|]).
      simpl in Hi. lia.
    + reflexivity.
    + exact E.
  - apply (H3 (lit "Nutrition Information Total Fat 5g")). vm_compute. reflexivity.
Defined.

Lemma ingredients_extraction_witness :
  extractIngredients Examples.modal_ingredients = Ok (lit "Water, Salt Pepper")
  /\ extractIngredients Examples.modal_long = Ok (firstn 2000 Examples.long_block)
  /\ length (firstn 2000 Examples.long_block) = 2000
  /\ extractIngredients (lit "Nutrition Information Calories 90") = Ok [].
Proof.
  destruct ingredients_extraction as (H1 & _ & H2 & H3).
  split; [|split; [|split]].
  - destruct (H1 Examples.modal_ingredients 22) as [E _];
      [vm_compute; reflexivity|].
    rewrite E. vm_compute. reflexivity.
  - apply (H2 Examples.modal_long 0 Examples.long_block);
      vm_compute; reflexivity.
  - apply (H2 Examples.modal_long 0 Examples.long_block);
      vm_compute; reflexivity.
  - apply H3. vm_compute; reflexivity.
Defined.

(* ================================================================= *)
(** * Further properties of the script *)

(* ----------------------------------------------------------------- *)
(** ** Locating elements *)

Lemma find_first A (f : A -> bool) (l : list A) x :
  find f l = Some x ->
  exists l1 l2, l = l1 ++ x :: l2 /\ f x = true
                /\ forall y, In y l1 -> f y = false.
Proof.
  induction l as [|a l IH]; simpl; [discriminate|].
  destruct (f a) eqn:Fa.
  - intros H; injection H as <-. exists [], l. repeat split; auto.
    intros y [].
  - intros H. destruct (IH H) as (l1 & l2 & -> & Fx & Hl).
    exists (a :: l1), l2. repeat split; auto.
    intros y [<-|Hy]; auto.
Qed.

Lemma find_map A C (f : C -> bool) (g : A -> C) (l : list A) :
  find f (List.map g l) = option_map g (find (fun a => f (g a)) l).
Proof.
  induction l as [|a l IH]; simpl; [reflexivity|].
  destruct (f (g a)); [reflexivity | exact IH].
Qed.

(** X1.  [findRestaurantLink] returns the first clickable element, in
    document order, that is visible and whose trimmed text is the name;
    it returns nothing exactly when there is no such element. *)
Theorem findRestaurantLink_first_visible (B : Browser) (p : Page B) name :
  match findRestaurantLink B p name with
  | Some link =>
      exists before after,
        querySelectorAll B p None SelClickable = before ++ link :: after
        /\ trim (textContent B p link) = name
        /\ offsetParent B p link = true
        /\ forall x, In x before ->
             trim (textContent B p x) <> name \/ offsetParent B p x = false
  | None =>
      forall x, In x (querySelectorAll B p None SelClickable) ->
        trim (textContent B p x) <> name \/ offsetParent B p x = false
  end.
Proof.
  assert (Neg : forall x,
             str_eqb (trim (textContent B p x)) name && offsetParent B p x = false ->
             trim (textContent B p x) <> name \/ offsetParent B p x = false).
  { intros x H. apply andb_false_iff in H as [H|H]; [left | now right].
    intros E. apply str_eqb_eq in E. congruence. }
  unfold findRestaurantLink.
  destruct (find _ _) as [link|] eqn:E.
  - destruct (find_first _ _ E) as (l1 & l2 & El & Fx & Hl).
    apply andb_prop in Fx as [F1 F2]. apply str_eqb_eq in F1.
    exists l1, l2. repeat split; auto.
  - intros x Hx. apply Neg. exact (find_none _ _ E x Hx).
Qed.

(** X2.  The serving size of a row is the trimmed text of its first cell that
    matches the unit pattern, and then it is not empty; it is the empty
    string exactly when no cell matches. *)
Theorem getServingSize_first_match (B : Browser) (p : Page B) (row : Elem B) :
  (getServingSize B p row = []
   /\ forall cell, In cell (querySelectorAll B p (Some row) SelTd) ->
        test Pat.row_serving (trim (textContent B p cell)) = false)
  \/ (exists before cell after,
        querySelectorAll B p (Some row) SelTd = before ++ cell :: after
        /\ getServingSize B p row = trim (textContent B p cell)
        /\ test Pat.row_serving (trim (textContent B p cell)) = true
        /\ getServingSize B p row <> []
        /\ forall c, In c before ->
             test Pat.row_serving (trim (textContent B p c)) = false).
Proof.
  unfold getServingSize. rewrite find_map.
  destruct (find _ (querySelectorAll B p (Some row) SelTd)) as [cell|] eqn:E;
    cbn [option_map].
  - right. destruct (find_first _ _ E) as (l1 & l2 & El & Fx & Hl).
    exists l1, cell, l2. repeat split; auto.
    intros H. rewrite H in Fx. vm_compute in Fx. discriminate.
  - left. split; [reflexivity|]. intros cell Hc.
    exact (find_none _ _ E cell Hc).
Qed.

(* ----------------------------------------------------------------- *)
(** ** Rows that are skipped *)

Section Skipped.

Variable B : Browser.

Lemma scrapeItemRow_none (row : Elem B) rn mp w w' :
  scrapeItemRow row rn mp w = (Ok None, w') ->
  page w' = page w /\ allData w' = allData w
  /\ totalItemsScraped w' = totalItemsScraped w /\ downloads w' = downloads w
  /\ (querySelector B (page w) (Some row) SelItemLink = None
      \/ exists link,
           querySelector B (page w) (Some row) SelItemLink = Some link
           /\ length (trim (textContent B (page w) link)) < 2).
Proof.
  unfold scrapeItemRow. intros H.
  destruct w as [p ad n con dl]. cbn [page allData totalItemsScraped downloads].
  cbv beta iota zeta delta
      [bind ret getPage sleep doClick liftR print extractNutritionFromModal
       setPage page allData totalItemsScraped console downloads] in H.
  destruct (querySelector B p (Some row) SelItemLink) as [itemLink|].
  - destruct (negb (truthy (trim (textContent B p itemLink)))
              || Nat.ltb (length (trim (textContent B p itemLink))) 2) eqn:Ec.
    + injection H as <-. repeat split; auto. right. exists itemLink.
      split; [reflexivity|].
      apply orb_prop in Ec as [Ec|Ec]; [|now apply Nat.ltb_lt].
      destruct (trim (textContent B p itemLink)); [simpl; lia | discriminate].
    + destruct (click B p itemLink) as [p' [e|]]; [discriminate H|].
      destruct (findModal B _) as [modal|].
      * destruct (extractNutrition _) as [nd|e]; [|discriminate H].
        destruct (closeModal _) as [[[]|e] w2]; discriminate H.
      * destruct (closeModal _) as [[[]|e] w2]; discriminate H.
  - injection H as <-. repeat split; auto.
Qed.

Lemma findAllItemRows_in (p : Page B) (row : Elem B) :
  In row (findAllItemRows B p) ->
  exists table link,
    In table (querySelectorAll B p None SelTable)
    /\ In row (querySelectorAll B p (Some table) SelTr)
    /\ querySelector B p (Some row) SelTh = None
    /\ querySelectorAll B p (Some row) SelTd <> []
    /\ querySelector B p (Some row) SelItemLink = Some link
    /\ 2 <= length (trim (textContent B p link))
    /\ trim (textContent B p link) <> lit "Back"
    /\ trim (textContent B p link) <> lit "Compare Items".
Proof.
  unfold findAllItemRows. intros H.
  apply in_flat_map in H as (table & Ht & H).
  apply filter_In in H as (Hr & H).
  destruct (querySelector B p (Some row) SelTh); [discriminate|].
  destruct (querySelectorAll B p (Some row) SelTd) as [|c cs] eqn:Ec;
    [discriminate|].
  cbn [length Nat.eqb] in H.
  destruct (querySelector B p (Some row) SelItemLink) as [link|]; [|discriminate].
  apply negb_true_iff in H. rewrite !orb_false_iff in H.
  destruct H as ((H1 & H2) & H3).
  exists table, link. repeat split; auto.
  - discriminate.
  - apply Nat.ltb_ge in H1. exact H1.
  - intros E. apply str_eqb_eq in E. congruence.
  - intros E. apply str_eqb_eq in E. congruence.
Qed.

End Skipped.

(** X3.  A row that [scrapeItemRow] skips (returns [null] for) has no item
    link or a link text shorter than two characters, and skipping it
    changes nothing but the console: no click, no record, no count. *)
Theorem skipped_row_untouched (B : Browser) (row : Elem B) rn mp w w' :
  scrapeItemRow row rn mp w = (Ok None, w') ->
  page w' = page w /\ allData w' = allData w
  /\ totalItemsScraped w' = totalItemsScraped w /\ downloads w' = downloads w
  /\ (querySelector B (page w) (Some row) SelItemLink = None
      \/ exists link,
           querySelector B (page w) (Some row) SelItemLink = Some link
           /\ length (trim (textContent B (page w) link)) < 2).
Proof. apply scrapeItemRow_none. Qed.

Lemma skipped_row_untouched_witness :
  page (snd (scrapeItemRow (B := Fixture.browser) (Fixture.Row 0)
               (lit "Cafe") (lit "All Day")
               (mkWorld Fixture.browser MoreExamples.stub_page [] 0 [] [])))
  = MoreExamples.stub_page
  /\ allData (snd (scrapeItemRow (B := Fixture.browser) (Fixture.Row 0)
               (lit "Cafe") (lit "All Day")
               (mkWorld Fixture.browser MoreExamples.stub_page [] 0 [] []))) = [].
Proof.
  destruct (@skipped_row_untouched Fixture.browser (Fixture.Row 0)
              (lit "Cafe") (lit "All Day")
              (mkWorld Fixture.browser MoreExamples.stub_page [] 0 [] [])
              (snd (scrapeItemRow (B := Fixture.browser) (Fixture.Row 0)
                      (lit "Cafe") (lit "All Day")
                      (mkWorld Fixture.browser MoreExamples.stub_page [] 0 [] []))))
    as (H1 & H2 & _).
  - vm_compute. reflexivity.
  - split; [exact H1 | exact H2].
Defined.

(** X4.  A row that [findAllItemRows] returns is never skipped when it is
    scraped on the page it was found on: it yields a record or throws. *)
Theorem found_row_is_scraped (B : Browser) (row : Elem B) rn mp w :
  In row (findAllItemRows B (page w)) ->
  (exists itemData, fst (scrapeItemRow row rn mp w) = Ok (Some itemData))
  \/ (exists e, fst (scrapeItemRow row rn mp w) = Throw e).
Proof.
  intros H. destruct (findAllItemRows_in _ _ _ H)
    as (table & link & _ & _ & _ & _ & Hl & Hn & _).
  destruct (scrapeItemRow row rn mp w) as [[[d|]|e] w'] eqn:E; cbn [fst].
  - left. now exists d.
  - exfalso. destruct (scrapeItemRow_none _ _ _ _ E) as (_ & _ & _ & _ & [Hq|Hq]).
    + congruence.
    + destruct Hq as (link' & Hq & Hs). rewrite Hl in Hq. injection Hq as <-. lia.
  - right. now exists e.
Qed.

Lemma found_row_is_scraped_witness :
  (exists itemData,
      fst (scrapeItemRow (B := Fixture.browser) (Fixture.Row 0) (lit "Cafe")
             (lit "All Day") (Fixture.start Fixture.cafe)) = Ok (Some itemData))
  \/ (exists e,
      fst (scrapeItemRow (B := Fixture.browser) (Fixture.Row 0) (lit "Cafe")
             (lit "All Day") (Fixture.start Fixture.cafe)) = Throw e).
Proof.
  apply (@found_row_is_scraped Fixture.browser (Fixture.Row 0) (lit "Cafe")
           (lit "All Day") (Fixture.start Fixture.cafe)).
  vm_compute. left. reflexivity.
Defined.

(* ----------------------------------------------------------------- *)
(** ** What a capture can hold *)

Lemma star_loop_reads P fuel (m : cont -> cont) greedy :
  (forall k s x, m k s = Some x ->
     exists s' u, k s' = Some x /\ rest s = u ++ rest s' /\ forallb P u = true) ->
  forall k s x, star_loop fuel m greedy k s = Some x ->
    exists s' u, k s' = Some x /\ rest s = u ++ rest s' /\ forallb P u = true.
Proof.
  intros Hm. induction fuel as [|fuel IH]; intros k s x; cbn [star_loop].
  - intros H. exists s, []. auto.
  - set (k' := fun s' : mstate =>
        if Nat.ltb (length (rest s')) (length (rest s))
        then star_loop fuel m greedy k s' else None).
    assert (Hk' : forall y, m k' s = Some y ->
              exists s' u, k s' = Some y /\ rest s = u ++ rest s' /\ forallb P u = true).
    { intros y Hy. apply Hm in Hy. destruct Hy as (s1 & u1 & H1 & E1 & P1).
      unfold k' in H1. destruct (Nat.ltb _ _); [|discriminate].
      apply IH in H1. destruct H1 as (s2 & u2 & H2 & E2 & P2).
      exists s2, (u1 ++ u2). split; [exact H2|]. split.
      - rewrite E1, E2. apply app_assoc.
      - rewrite forallb_app, P1, P2. reflexivity. }
    assert (Hk : forall y, k s = Some y ->
              exists s' u, k s' = Some y /\ rest s = u ++ rest s' /\ forallb P u = true).
    { intros y Hy. exists s, []. auto. }
    destruct greedy.
    + destruct (m k' s) eqn:E; [intros H; injection H as <-; now apply Hk' | apply Hk].
    + destruct (k s) eqn:E; [intros H; injection H as <-; now apply Hk | apply Hk'].
Qed.

(** What a pattern reads lies between where it started and where its
    continuation took over. *)
Lemma rmatch_reads ic P r :
  reads ic P r ->
  forall k s x, rmatch ic r k s = Some x ->
    exists s' u, k s' = Some x /\ rest s = u ++ rest s' /\ forallb P u = true.
Proof.
  induction r; intros Hr k s x; cbn [rmatch reads] in *.
  - intros H. exists s, []. auto.
  - unfold step1. destruct s as [[|a t] pv cp]; cbn [rest cap]; [discriminate|].
    destruct (char_matches ic c a) eqn:E; [|discriminate]. intros H.
    exists (MState t (Some a) cp), [a]. cbn [rest forallb].
    rewrite (Hr a E). auto.
  - unfold step1. destruct s as [[|a t] pv cp]; cbn [rest cap]; [discriminate|].
    destruct (class_matches ic negated items a) eqn:E; [|discriminate]. intros H.
    exists (MState t (Some a) cp), [a]. cbn [rest forallb].
    rewrite (Hr a E). auto.
  - destruct Hr as [H1 H2]. intros H.
    apply (IHr1 H1) in H. destruct H as (s1 & u1 & K1 & E1 & P1).
    apply (IHr2 H2) in K1. destruct K1 as (s2 & u2 & K2 & E2 & P2).
    exists s2, (u1 ++ u2). split; [exact K2|]. split.
    + rewrite E1, E2. apply app_assoc.
    + rewrite forallb_app, P1, P2. reflexivity.
  - destruct Hr as [H1 H2].
    destruct (rmatch ic r1 k s) eqn:E.
    + intros H; injection H as <-. now apply (IHr1 H1).
    + now apply (IHr2 H2).
  - apply star_loop_reads. intros k0 s0 x0. now apply IHr.
  - intros H. apply (IHr Hr) in H. destruct H as (s1 & u & K & E & Pu).
    eexists. exists u. split; [exact K|]. cbn [rest]. auto.
  - destruct (rmatch ic r Some s) as [s1|]; [|discriminate]. intros H.
    eexists. exists []. split; [exact H|]. cbn [rest]. auto.
  - destruct (xorb _ _); [|discriminate]. intros H. exists s, []. auto.
  - destruct (rest s) eqn:E; [|discriminate]. intros H. exists s, [].
    rewrite E. auto.
Qed.

Lemma star_loop_cap_good P fuel (m : cont -> cont) greedy :
  (forall k s x, m k s = Some x ->
     exists s', k s' = Some x /\ (cap_good P s -> cap_good P s')) ->
  forall k s x, star_loop fuel m greedy k s = Some x ->
    exists s', k s' = Some x /\ (cap_good P s -> cap_good P s').
Proof.
  intros Hm. induction fuel as [|fuel IH]; intros k s x; cbn [star_loop].
  - intros H. exists s. auto.
  - set (k' := fun s' : mstate =>
        if Nat.ltb (length (rest s')) (length (rest s))
        then star_loop fuel m greedy k s' else None).
    assert (Hk' : forall y, m k' s = Some y ->
              exists s', k s' = Some y /\ (cap_good P s -> cap_good P s')).
    { intros y Hy. apply Hm in Hy. destruct Hy as (s1 & H1 & G1).
      unfold k' in H1. destruct (Nat.ltb _ _); [|discriminate].
      apply IH in H1. destruct H1 as (s2 & H2 & G2).
      exists s2. split; [exact H2 | auto]. }
    destruct greedy.
    + destruct (m k' s) eqn:E; [intros H; injection H as <-; now apply Hk'|].
      intros H. exists s. auto.
    + destruct (k s) eqn:E; [|apply Hk'].
      intros H; injection H as <-. exists s. auto.
Qed.

(** If every group of a pattern reads characters satisfying [P] only,
    matching keeps the capture within [P]. *)
Lemma rmatch_cap_good ic P r :
  groups_read ic P r ->
  forall k s x, rmatch ic r k s = Some x ->
    exists s', k s' = Some x /\ (cap_good P s -> cap_good P s').
Proof.
  induction r; intros Hr k s x; cbn [rmatch groups_read] in *.
  - intros H. exists s. auto.
  - unfold step1. destruct s as [[|a t] pv cp]; cbn [rest cap]; [discriminate|].
    destruct (char_matches ic c a); [|discriminate]. intros H.
    exists (MState t (Some a) cp). auto.
  - unfold step1. destruct s as [[|a t] pv cp]; cbn [rest cap]; [discriminate|].
    destruct (class_matches ic negated items a); [|discriminate]. intros H.
    exists (MState t (Some a) cp). auto.
  - destruct Hr as [H1 H2]. intros H.
    apply (IHr1 H1) in H. destruct H as (s1 & K1 & G1).
    apply (IHr2 H2) in K1. destruct K1 as (s2 & K2 & G2).
    exists s2. auto.
  - destruct Hr as [H1 H2].
    destruct (rmatch ic r1 k s) eqn:E.
    + intros H; injection H as <-. now apply (IHr1 H1).
    + now apply (IHr2 H2).
  - apply star_loop_cap_good. intros k0 s0 x0. now apply IHr.
  - intros H. apply (rmatch_reads _ _ _ Hr) in H.
    destruct H as (s1 & u & K & E & Pu).
    eexists. split; [exact K|]. intros _. unfold cap_good. cbn [cap].
    rewrite E, firstn_consumed. exact Pu.
  - destruct (rmatch ic r Some s) as [s1|] eqn:E; [|discriminate]. intros H.
    apply (IHr Hr) in E. destruct E as (s' & K & G). injection K as ->.
    eexists. split; [exact H|]. exact G.
  - destruct (xorb _ _); [|discriminate]. intros H. exists s. auto.
  - destruct (rest s); [|discriminate]. intros H. exists s. auto.
Qed.

Lemma scan_cap_good R P i p t m g :
  groups_read (ignoreCase R) P (source R) ->
  scan R i p t = Some m -> group1 m = Some g -> forallb P g = true.
Proof.
  intros HR. revert i p.
  assert (Here : forall p0 t0 x,
             rmatch (ignoreCase R) (source R) Some (MState t0 p0 None) = Some x ->
             cap x = Some g -> forallb P g = true).
  { intros p0 t0 x E Hg. apply (rmatch_cap_good _ _ _ HR) in E.
    destruct E as (s' & K & G). injection K as ->.
    specialize (G I). unfold cap_good in G. now rewrite Hg in G. }
  induction t as [|c t IH]; intros i p; cbn [scan].
  - destruct (rmatch _ _ _ _) eqn:E; [|discriminate].
    intros H; injection H as <-. unfold group1. cbn [final]. now apply Here with (1 := E).
  - destruct (rmatch _ _ _ _) eqn:E.
    + intros H; injection H as <-. unfold group1. cbn [final].
      now apply Here with (1 := E).
    + apply IH.
Qed.

Lemma forallb_drop_space P s : forallb P s = true -> forallb P (drop_space s) = true.
Proof.
  induction s as [|c s IH]; [auto|]. cbn [drop_space].
  destruct (is_space c); [|auto]. cbn [forallb]. intros H.
  apply andb_prop in H as [_ H]. now apply IH.
Qed.

Lemma forallb_rev P (s : str) : forallb P s = true -> forallb P (rev s) = true.
Proof.
  rewrite !forallb_forall. intros H x Hx. apply H. now apply in_rev.
Qed.

Lemma forallb_trim P s : forallb P s = true -> forallb P (trim s) = true.
Proof.
  intros H. unfold trim.
  now apply forallb_rev, forallb_drop_space, forallb_rev, forallb_drop_space.
Qed.

Lemma extractMatch_reads text R P v :
  groups_read (ignoreCase R) P (source R) ->
  extractMatch text R = Ok v -> forallb P v = true.
Proof.
  intros HR. unfold extractMatch, exec.
  destruct (scan R 0 None text) as [m|] eqn:E.
  - destruct (group1 m) as [g|] eqn:Hg; [|discriminate].
    intros H; injection H as <-.
    apply forallb_trim. exact (@scan_cap_good R P _ _ _ _ _ HR E Hg).
  - intros H; injection H as <-. reflexivity.
Qed.

Lemma groups_read_Lit' ic P w : groups_read ic P (Lit' w).
Proof.
  induction w as [|c w IH]; [exact I|].
  destruct w; [exact I|]. split; [exact I | exact IH].
Qed.

Lemma groups_read_Lit ic P s : groups_read ic P (Lit s).
Proof. apply groups_read_Lit'. Qed.

Lemma groups_read_class_plus ic P negated items :
  groups_read ic P (Plus (Class negated items)).
Proof. split; exact I. Qed.

Lemma reads_plus ic P r : reads ic P r -> reads ic P (Plus r).
Proof. intros H. split; exact H. Qed.

Lemma reads_star ic P greedy r : reads ic P r -> reads ic P (Star greedy r).
Proof. intros H. exact H. Qed.

Lemma reads_Digit ic : reads ic is_digit Digit.
Proof. intros a H. now rewrite class_digit in H. Qed.

Lemma reads_Digit_decimal ic : reads ic is_decimal_char Digit.
Proof.
  intros a H. rewrite class_digit in H. unfold is_decimal_char. now rewrite H.
Qed.

Lemma char_matches_dot a : char_matches true (ch ".") a = true -> a = 46%N.
Proof.
  unfold char_matches, char_eqb, canonicalize.
  change (in_range 97%N 122%N (ch ".")) with false. cbn iota.
  change (ch ".") with 46%N.
  destruct (in_range 97%N 122%N a) eqn:E.
  - apply in_range_spec in E. intros H. apply N.eqb_eq in H. lia.
  - intros H. apply N.eqb_eq in H. congruence.
Qed.

Lemma reads_decimal : reads true is_decimal_char Pat.decimal.
Proof.
  unfold Pat.decimal, seqs, Opt. cbn [reads].
  split; [apply reads_plus, reads_Digit_decimal|].
  split; [|apply reads_Digit_decimal].
  split; [|exact I].
  intros a H. apply char_matches_dot in H. subst a. reflexivity.
Qed.

Create HintDb regex.

#[local] Hint Resolve groups_read_Lit groups_read_class_plus reads_plus
  reads_star reads_Digit reads_decimal : regex.

Lemma calories_patterns_read_digits :
  groups_read true is_digit (source Pat.calories1)
  /\ groups_read true is_digit (source Pat.calories2)
  /\ groups_read true is_digit (source Pat.calories3)
  /\ groups_read true is_digit (source Pat.calories4)
  /\ groups_read true is_digit (source Pat.sodium).
Proof.
  unfold Pat.calories1, Pat.calories2, Pat.calories3, Pat.calories4, Pat.sodium,
    seqs, Space.
  cbn [source re_i groups_read]. repeat split; auto with regex.
Qed.

Lemma decimal_patterns_read_decimals :
  groups_read true is_decimal_char (source Pat.total_fat)
  /\ groups_read true is_decimal_char (source Pat.total_carbs)
  /\ groups_read true is_decimal_char (source Pat.protein).
Proof.
  unfold Pat.total_fat, Pat.total_carbs, Pat.protein, seqs, Space.
  cbn [source re_i groups_read].
  repeat match goal with |- _ /\ _ => split end; auto with regex.
Qed.

Lemma extractCalories_digits text v :
  extractCalories text = Ok (JStr v) -> forallb is_digit v = true.
Proof.
  destruct calories_patterns_read_digits as (G1 & G2 & G3 & G4 & _).
  unfold extractCalories.
  destruct (extractMatch text Pat.calories1) as [v1|e] eqn:E1; [|discriminate].
  cbn [rbind]. destruct (truthy v1) eqn:T1.
  { cbn [rbind]. rewrite T1. cbn [rbind]. rewrite T1.
    intros H; injection H as <-. exact (@extractMatch_reads text Pat.calories1 is_digit _ G1 E1). }
  destruct (extractMatch text Pat.calories2) as [v2|e] eqn:E2; [|discriminate].
  cbn [rbind]. destruct (truthy v2) eqn:T2.
  { cbn [rbind]. rewrite T2.
    intros H; injection H as <-. exact (@extractMatch_reads text Pat.calories2 is_digit _ G2 E2). }
  destruct (extractMatch text Pat.calories3) as [v3|e] eqn:E3; [|discriminate].
  cbn [rbind]. destruct (truthy v3) eqn:T3.
  { intros H; injection H as <-. exact (@extractMatch_reads text Pat.calories3 is_digit _ G3 E3). }
  destruct (exec Pat.calories4 text) as [m|] eqn:E4.
  - destruct (group1 m) as [g|] eqn:Hg; [|discriminate].
    intros H; injection H as <-. exact (@scan_cap_good Pat.calories4 is_digit _ _ _ _ _ G4 E4 Hg).
  - intros H; injection H as <-. exact (@extractMatch_reads text Pat.calories3 is_digit _ G3 E3).
Qed.

(** X5.  The numeric fields are numeric.  In the nutrition object of any
    modal text, [calories] and [sodium_mg] hold digits only, and
    [total_fat_g], [total_carbs_g] and [protein_g] hold digits and
    decimal points only (the unit is left out of the capture); each may
    be empty. *)
Theorem nutrition_numbers_are_numeric text nutrition :
  extractNutrition text = Ok nutrition ->
  (forall v, get nutrition (lit "calories") = Some (JStr v) ->
             forallb is_digit v = true)
  /\ (forall v, get nutrition (lit "sodium_mg") = Some (JStr v) ->
                forallb is_digit v = true)
  /\ (forall v, get nutrition (lit "total_fat_g") = Some (JStr v) ->
                forallb is_decimal_char v = true)
  /\ (forall v, get nutrition (lit "total_carbs_g") = Some (JStr v) ->
                forallb is_decimal_char v = true)
  /\ (forall v, get nutrition (lit "protein_g") = Some (JStr v) ->
                forallb is_decimal_char v = true).
Proof.
  destruct calories_patterns_read_digits as (_ & _ & _ & _ & Gs).
  destruct decimal_patterns_read_decimals as (Gf & Gc & Gp).
  unfold extractNutrition.
  destruct (extractCalories text) as [cal|e] eqn:Ecal; [|discriminate].
  destruct (extractServing text) as [sv|e] eqn:Esv; [|discriminate].
  destruct (extractMatch text Pat.total_fat) as [tf|e] eqn:Etf; [|discriminate].
  destruct (extractMatch text Pat.saturated_fat) as [sf|e]; [|discriminate].
  destruct (extractMatch text Pat.trans_fat) as [trf|e]; [|discriminate].
  destruct (extractMatch text Pat.cholesterol) as [cho|e]; [|discriminate].
  destruct (extractMatch text Pat.sodium) as [sod|e] eqn:Esod; [|discriminate].
  destruct (extractMatch text Pat.total_carbs) as [tc|e] eqn:Etc; [|discriminate].
  destruct (extractMatch text Pat.fiber) as [fib|e]; [|discriminate].
  destruct (extractMatch text Pat.sugars) as [sug|e]; [|discriminate].
  destruct (extractMatch text Pat.protein) as [pro|e] eqn:Epro; [|discriminate].
  destruct (extractIngredients text) as [ing|e]; [|discriminate].
  cbn [rbind]. intros H; injection H as <-.
  split; [|split; [|split; [|split]]]; intros v Hv; vm_compute in Hv.
  - injection Hv as ->. now apply extractCalories_digits with (text := text).
  - injection Hv as <-. exact (@extractMatch_reads text Pat.sodium is_digit _ Gs Esod).
  - injection Hv as <-. exact (@extractMatch_reads text Pat.total_fat is_decimal_char _ Gf Etf).
  - injection Hv as <-. exact (@extractMatch_reads text Pat.total_carbs is_decimal_char _ Gc Etc).
  - injection Hv as <-. exact (@extractMatch_reads text Pat.protein is_decimal_char _ Gp Epro).
Qed.

Lemma nutrition_numbers_are_numeric_witness :
  (forall v, get MoreExamples.chicken_nutrition (lit "calories") = Some (JStr v) ->
             forallb is_digit v = true)
  /\ (forall v, get MoreExamples.chicken_nutrition (lit "sodium_mg") = Some (JStr v) ->
                forallb is_digit v = true)
  /\ (forall v, get MoreExamples.chicken_nutrition (lit "total_fat_g") = Some (JStr v) ->
                forallb is_decimal_char v = true)
  /\ (forall v, get MoreExamples.chicken_nutrition (lit "total_carbs_g") = Some (JStr v) ->
                forallb is_decimal_char v = true)
  /\ (forall v, get MoreExamples.chicken_nutrition (lit "protein_g") = Some (JStr v) ->
                forallb is_decimal_char v = true).
Proof.
  apply (@nutrition_numbers_are_numeric MoreExamples.chicken_text
           MoreExamples.chicken_nutrition).
  vm_compute. reflexivity.
Defined.

(* ----------------------------------------------------------------- *)
(** ** Dietary labels *)

Lemma imageLabel_canonical alt l :
  imageLabel alt = Some l -> In l canonical_labels.
Proof.
  unfold imageLabel, canonical_labels.
  repeat match goal with
         | |- (if ?c then _ else _) = _ -> _ => destruct c
         end;
    intros H; try discriminate; injection H as <-; cbn [In]; tauto.
Qed.

Lemma NoDup_append (a b : list str) :
  NoDup a -> NoDup b -> (forall x, In x b -> ~ In x a) -> NoDup (a ++ b).
Proof.
  intros Ha Hb Hd. induction a as [|x a IH]; [exact Hb|].
  inversion Ha as [|? ? Hx Ha']; subst. cbn [app]. constructor.
  - rewrite in_app_iff. intros [H|H]; [auto|]. apply (Hd x H). now left.
  - apply IH; [exact Ha'|]. intros y Hy Hin. apply (Hd y Hy). now right.
Qed.

Lemma imageLabels_fold (B : Browser) (p : Page B) (imgs : list (Elem B)) acc :
  Forall (fun l => In l canonical_labels) acc ->
  let res :=
    fold_left
      (fun labels img =>
         let alt :=
           toLowerCase
             (if truthy (alt B p img) then alt B p img
              else if truthy (title B p img) then title B p img
              else []) in
         match imageLabel alt with
         | Some label => labels ++ [label]
         | None => labels
         end) imgs acc in
  Forall (fun l => In l canonical_labels) res
  /\ length res <= length acc + length imgs.
Proof.
  revert acc. induction imgs as [|img imgs IH]; intros acc Hacc; cbn [fold_left].
  - split; [exact Hacc | simpl; lia].
  - cbv zeta in IH.
    destruct (imageLabel _) as [label|] eqn:E.
    + destruct (IH (acc ++ [label])) as [H1 H2].
      { apply Forall_app. split; [exact Hacc|]. constructor; [|constructor].
        exact (imageLabel_canonical _ E). }
      split; [exact H1|]. rewrite length_app in H2. simpl in *. lia.
    + destruct (IH acc Hacc) as [H1 H2]. split; [exact H1 | simpl; lia].
Qed.

(** X6.  The labels of a row.  Every label is one of the six display labels;
    the image pass gives at most one label per image; the text pass
    appends, without repeats, only labels the image pass did not give;
    so the labels are free of duplicates whenever the image labels are,
    and in particular for a row with at most one image. *)
Theorem dietary_labels_shape (B : Browser) (p : Page B) (row : Elem B) :
  Forall (fun l => In l canonical_labels) (collectLabels B p row)
  /\ length (imageLabels B p row)
     <= length (querySelectorAll B p (Some row) SelImg)
  /\ (exists extra,
        collectLabels B p row = imageLabels B p row ++ extra
        /\ NoDup extra
        /\ forall l, In l extra -> ~ In l (imageLabels B p row))
  /\ (NoDup (imageLabels B p row) -> NoDup (collectLabels B p row))
  /\ (length (querySelectorAll B p (Some row) SelImg) <= 1 ->
      NoDup (collectLabels B p row)).
Proof.
  destruct (@imageLabels_fold B p (querySelectorAll B p (Some row) SelImg) []
              (Forall_nil _)) as [Hcan Hlen].
  cbv zeta in Hcan, Hlen. fold (imageLabels B p row) in Hcan, Hlen.
  cbn [length Nat.add] in Hlen.
  destruct (text_pass_adds_new_labels B p row) as (extra & E & Hn & Hd & Hk).
  assert (Dup : NoDup (imageLabels B p row) -> NoDup (collectLabels B p row)).
  { intros H. rewrite E. now apply NoDup_append. }
  split; [|split; [exact Hlen | split; [|split; [exact Dup|]]]].
  - rewrite E. apply Forall_app. split; [exact Hcan|].
    apply Forall_forall. intros l Hl. destruct (Hk l Hl) as (regex & Hin & _).
    unfold keywords in Hin. cbn [In] in Hin. unfold canonical_labels. cbn [In].
    repeat (destruct Hin as [Hin|Hin]; [injection Hin as <- _; tauto|]).
    contradiction.
  - exists extra. auto.
  - intros H1. apply Dup.
    destruct (imageLabels B p row) as [|a [|b l]]; cbn [length] in Hlen.
    + constructor.
    + constructor; [intros [] | constructor].
    + lia.
Qed.

Lemma dietary_labels_shape_witness :
  NoDup (collectLabels Fixture.browser MoreExamples.vegan_row_page (Fixture.Row 0)).
Proof.
  destruct (dietary_labels_shape Fixture.browser MoreExamples.vegan_row_page
              (Fixture.Row 0)) as (_ & _ & _ & _ & H).
  apply H. vm_compute. lia.
Defined.

(* ----------------------------------------------------------------- *)
(** ** What a run preserves *)

Section FramesFacts.

Variable B : Browser.
Variable Q : World B -> World B -> Prop.

Hypothesis Q_refl : forall w, Q w w.
Hypothesis Q_trans : forall a b c, Q a b -> Q b c -> Q a c.
(** [Q] does not look at the page or the console. *)
Hypothesis Q_view :
  forall w p con,
    Q w (mkWorld B p (allData w) (totalItemsScraped w) con (downloads w)).
(** [Q] admits a record pushed and counted. *)
Hypothesis Q_push :
  forall w d,
    Q w (mkWorld B (page w) (allData w ++ [d]) (S (totalItemsScraped w))
                 (console w) (downloads w)).

Lemma frames_ret A (a : A) : frames Q (@ret B A a).
Proof. intros w. apply Q_refl. Qed.

Lemma frames_throw A e : frames Q (@throw B A e).
Proof. intros w. apply Q_refl. Qed.

Lemma frames_getPage : frames Q (@getPage B).
Proof. intros w. apply Q_refl. Qed.

Lemma frames_liftR A (r : result A) : frames Q (@liftR B A r).
Proof. intros w. apply Q_refl. Qed.

Lemma frames_print l x : frames Q (@print B l x).
Proof. intros w. apply Q_view. Qed.

Lemma frames_sleep ms : frames Q (@sleep B ms).
Proof. intros w. apply Q_view. Qed.

Lemma frames_doClick (elem : Elem B) : frames Q (doClick elem).
Proof.
  intros w. unfold doClick.
  destruct (click B (page w) elem) as [p [e|]]; apply Q_view.
Qed.

Lemma frames_bind A C (c : M B A) (f : A -> M B C) :
  frames Q c -> (forall a, frames Q (f a)) -> frames Q (bind c f).
Proof.
  intros Hc Hf w. unfold bind. specialize (Hc w).
  destruct (c w) as [[a|e] w1]; cbn [snd] in *; [|exact Hc].
  exact (Q_trans Hc (Hf a w1)).
Qed.

Lemma frames_try_catch A (c : M B A) (h : exn -> M B A) :
  frames Q c -> (forall e, frames Q (h e)) -> frames Q (try_catch c h).
Proof.
  intros Hc Hh w. unfold try_catch. specialize (Hc w).
  destruct (c w) as [[a|e] w1]; cbn [snd] in *; [exact Hc|].
  exact (Q_trans Hc (Hh e w1)).
Qed.

Lemma frames_forOf A (xs : list A) (body : A -> M B unit) :
  (forall x, frames Q (body x)) -> frames Q (forOf xs body).
Proof.
  intros H. induction xs as [|x xs IH]; cbn [forOf].
  - apply frames_ret.
  - apply frames_bind; auto.
Qed.

Lemma frames_forIndex A (xs : list A) (body : nat -> A -> M B unit) i :
  (forall i x, frames Q (body i x)) -> frames Q (forIndex i xs body).
Proof.
  intros H. revert i. induction xs as [|x xs IH]; intros i; cbn [forIndex].
  - apply frames_ret.
  - apply frames_bind; auto.
Qed.

Lemma frames_closeWith sels : frames Q (@closeWith B sels).
Proof.
  induction sels as [|sel sels IH]; cbn [closeWith].
  - apply frames_bind; [intros w; apply Q_view | intros _; apply frames_sleep].
  - apply frames_bind; [apply frames_getPage|]. intros p.
    destruct (querySelector B p None sel) as [btn|]; [|exact IH].
    destruct (offsetParent B p btn); [|exact IH].
    apply frames_bind; [apply frames_doClick | intros _; apply frames_sleep].
Qed.

Lemma frames_scrapeItemRow row rn mp : frames Q (@scrapeItemRow B row rn mp).
Proof.
  unfold scrapeItemRow. apply frames_bind; [apply frames_getPage|]. intros p.
  destruct (querySelector B p (Some row) SelItemLink) as [itemLink|].
  - destruct (_ || _); [apply frames_ret|].
    apply frames_bind; [apply frames_doClick | intros _].
    apply frames_bind; [apply frames_sleep | intros _].
    apply frames_bind.
    + unfold extractNutritionFromModal.
      apply frames_bind; [apply frames_getPage | intros p'].
      destruct (findModal B p'); [apply frames_liftR|].
      apply frames_bind; [apply frames_print | intros _; apply frames_ret].
    + intros nd.
      apply frames_bind; [apply frames_closeWith | intros _; apply frames_ret].
  - apply frames_bind; [apply frames_print | intros _; apply frames_ret].
Qed.

Lemma frames_expandAllCategories : frames Q (@expandAllCategories B).
Proof.
  unfold expandAllCategories. apply frames_forOf. intros sel.
  apply frames_bind; [apply frames_getPage | intros p].
  apply frames_forOf. intros elem.
  apply frames_bind; [apply frames_getPage | intros p'].
  destruct (_ || _); [|apply frames_ret].
  apply frames_bind; [apply frames_doClick | intros _; apply frames_sleep].
Qed.

Lemma frames_itemIteration rn mp maxItems i (row : Elem B) :
  frames Q (itemIteration rn mp maxItems i row).
Proof.
  unfold itemIteration.
  apply frames_bind; [|intros _; apply frames_sleep].
  apply frames_try_catch; [|intros e; apply frames_print].
  apply frames_bind; [apply frames_scrapeItemRow|].
  intros [d|]; [|apply frames_ret].
  assert (K : frames Q (match get d (lit "item_name") with
                        | Some (JStr item_name) =>
                            @print B LLog (ItemDone (i + 1) maxItems
                                             (substring0 45 item_name))
                        | _ => throw TypeError
                        end)).
  { destruct (get d (lit "item_name")) as [[|n]|];
      [apply frames_throw | apply frames_print | apply frames_throw]. }
  intros w. cbv beta iota delta [bind pushData countItem fst snd].
  cbn [page allData totalItemsScraped console downloads].
  exact (Q_trans (Q_push w d) (K _)).
Qed.

Lemma frames_scrapeCurrentPage rn mp : frames Q (@scrapeCurrentPage B rn mp).
Proof.
  unfold scrapeCurrentPage.
  apply frames_bind; [apply frames_expandAllCategories | intros _].
  apply frames_bind; [apply frames_getPage | intros p].
  apply frames_bind; [apply frames_print | intros _].
  apply frames_bind.
  - apply frames_forIndex. intros i row. apply frames_itemIteration.
  - intros _. destruct TEST_MODE; [apply frames_print | apply frames_ret].
Qed.

Lemma frames_scrapeRestaurant r : frames Q (@scrapeRestaurant B r).
Proof.
  unfold scrapeRestaurant.
  apply frames_bind; [apply frames_getPage | intros p].
  destruct (findRestaurantLink B p (name r)); [|apply frames_print].
  apply frames_bind; [apply frames_doClick | intros _].
  apply frames_bind; [apply frames_sleep | intros _].
  apply frames_bind; [apply frames_getPage | intros p1].
  destruct (Nat.ltb 0 _).
  - apply frames_bind; [apply frames_print | intros _].
    apply frames_forOf. intros period.
    apply frames_bind; [apply frames_print | intros _].
    apply frames_bind; [apply frames_doClick | intros _].
    apply frames_bind; [apply frames_sleep | intros _].
    apply frames_scrapeCurrentPage.
  - apply frames_bind; [apply frames_print | intros _].
    apply frames_scrapeCurrentPage.
Qed.

Lemma frames_restaurantIteration i r : frames Q (@restaurantIteration B i r).
Proof.
  unfold restaurantIteration.
  apply frames_bind; [apply frames_print | intros _].
  apply frames_bind; [apply frames_print | intros _].
  apply frames_bind; [apply frames_print | intros _].
  apply frames_bind; [|intros _; apply frames_sleep].
  apply frames_try_catch; [apply frames_scrapeRestaurant|].
  intros e. apply frames_print.
Qed.

Lemma frames_restaurant_loop i rs :
  frames Q (forIndex i rs (@restaurantIteration B)).
Proof. apply frames_forIndex. intros j r. apply frames_restaurantIteration. Qed.

Lemma frames_scrapeAllRestaurants :
  (forall data, frames Q (@downloadCSV B data)) ->
  frames Q (@scrapeAllRestaurants B).
Proof.
  intros Hd. unfold scrapeAllRestaurants.
  apply frames_bind; [apply frames_print | intros _].
  apply frames_bind; [apply frames_restaurant_loop | intros _].
  apply frames_bind; [apply frames_print | intros _].
  apply frames_bind; [apply frames_print | intros _].
  apply frames_bind; [intros w; apply Q_refl | intros total].
  apply frames_bind; [apply frames_print | intros _].
  apply frames_bind; [apply frames_print | intros _].
  apply frames_bind; [intros w; apply Q_refl | intros data].
  apply Hd.
Qed.

Lemma frames_main :
  (forall data, frames Q (@downloadCSV B data)) -> frames Q (@main B).
Proof.
  intros Hd. unfold main.
  apply frames_try_catch; [now apply frames_scrapeAllRestaurants | intros e].
  apply frames_bind; [apply frames_print | intros _].
  apply frames_bind; [intros w; apply Q_refl | intros data].
  destruct (Nat.ltb 0 (length data)); [|apply frames_ret].
  apply frames_bind; [apply frames_print | intros _]. apply Hd.
Qed.

End FramesFacts.

Lemma in_step_refl (B : Browser) (w : World B) : in_step w w.
Proof. unfold in_step. lia. Qed.

Lemma in_step_trans (B : Browser) (a b c : World B) :
  in_step a b -> in_step b c -> in_step a c.
Proof. unfold in_step. lia. Qed.

Lemma in_step_view (B : Browser) (w : World B) p con :
  in_step w (mkWorld B p (allData w) (totalItemsScraped w) con (downloads w)).
Proof. unfold in_step. cbn. lia. Qed.

Lemma in_step_push (B : Browser) (w : World B) d :
  in_step w (mkWorld B (page w) (allData w ++ [d]) (S (totalItemsScraped w))
                     (console w) (downloads w)).
Proof. unfold in_step. cbn. rewrite length_app. cbn. lia. Qed.

Lemma in_step_downloadCSV (B : Browser) data : frames (@in_step B) (@downloadCSV B data).
Proof.
  intros w. unfold downloadCSV, in_step.
  destruct (Nat.eqb (length data) 0); cbn; lia.
Qed.

(** X7.  The counter keeps step with the dataset: over a whole run, and over
    the scraping of one restaurant or one page, [totalItemsScraped] grows
    by exactly the number of records appended to [allData].  A run that
    starts with the two in agreement ends with them in agreement, so the
    total it prints is the number of records it exports. *)
Theorem counter_keeps_step (B : Browser) :
  (forall w : World B, in_step w (snd (main w)))
  /\ (forall r (w : World B), in_step w (snd (scrapeRestaurant r w)))
  /\ (forall rn mp (w : World B), in_step w (snd (scrapeCurrentPage rn mp w)))
  /\ (forall w : World B,
        totalItemsScraped w = length (allData w) ->
        totalItemsScraped (snd (main w)) = length (allData (snd (main w)))).
Proof.
  assert (Hm : forall w : World B, in_step w (snd (main w))).
  { apply (@frames_main B (@in_step B)).
    - apply in_step_refl.
    - apply in_step_trans.
    - apply in_step_view.
    - apply in_step_push.
    - apply in_step_downloadCSV. }
  split; [exact Hm|]. split; [|split].
  - intros r. apply (@frames_scrapeRestaurant B (@in_step B)).
    + apply in_step_refl.
    + apply in_step_trans.
    + apply in_step_view.
    + apply in_step_push.
  - intros rn mp. apply (@frames_scrapeCurrentPage B (@in_step B)).
    + apply in_step_refl.
    + apply in_step_trans.
    + apply in_step_view.
    + apply in_step_push.
  - intros w H. specialize (Hm w). unfold in_step in Hm. lia.
Qed.

(* ================================================================= *)
(** * The exported file *)

Lemma colon_or_dot_class c :
  class_matches false false [CChar (ch ":"); CChar (ch ".")] c
  = (N.eqb c 58 || N.eqb c 46)%bool.
Proof.
  unfold class_matches. cbn [existsb citem_matches xorb].
  unfold char_matches, char_eqb.
  change (ch ":") with 58%N. change (ch ".") with 46%N.
  rewrite (N.eqb_sym 58 c), (N.eqb_sym 46 c).
  destruct (N.eqb c 58), (N.eqb c 46); reflexivity.
Qed.

Lemma scan_colon_or_dot i p t :
  match scan Pat.colon_or_dot i p t with
  | None => List.map dash t = t
  | Some m =>
      length (rest (final m)) < length (skipn (index m - i) t)
      /\ i <= index m
      /\ List.map dash t =
         firstn (index m - i) t ++ lit "-" ++ List.map dash (rest (final m))
  end.
Proof.
  revert i p. induction t as [|c t IH]; intros i p.
  - reflexivity.
  - cbn [scan Pat.colon_or_dot re ignoreCase source rmatch].
    unfold step1. cbn [rest cap]. rewrite colon_or_dot_class.
    destruct (N.eqb c 58 || N.eqb c 46)%bool eqn:Hc.
    + cbn [index final rest]. rewrite Nat.sub_diag. cbn [skipn firstn app].
      split; [simpl; lia|]. split; [lia|].
      cbn [List.map]. unfold dash at 1. rewrite Hc. reflexivity.
    + specialize (IH (S i) (Some c)).
      fold (re (Class false [CChar (ch ":"); CChar (ch ".")])).
      fold Pat.colon_or_dot.
      destruct (scan Pat.colon_or_dot (S i) (Some c) t) as [m|].
      * destruct IH as (H1 & H2 & H3).
        replace (index m - i) with (S (index m - S i)) by lia.
        cbn [skipn firstn app]. split; [exact H1|]. split; [lia|].
        cbn [List.map]. unfold dash at 1. rewrite Hc, H3. reflexivity.
      * cbn [List.map]. unfold dash at 1. rewrite Hc, IH. reflexivity.
Qed.

Lemma replace_colon_or_dot t :
  replace_all Pat.colon_or_dot (lit "-") t = List.map dash t.
Proof.
  unfold replace_all. apply replace_loop_spec; [|lia].
  intros p u. pose proof (scan_colon_or_dot 0 p u) as H.
  destruct (scan Pat.colon_or_dot 0 p u) as [m|]; [|exact H].
  rewrite Nat.sub_0_r in H. destruct H as (H1 & _ & H3). now split.
Qed.

Lemma timestamp_dash t :
  slice_0_minus5 (replace_all Pat.colon_or_dot (lit "-") t)
  = List.map dash (firstn (length t - 5) t).
Proof.
  unfold slice_0_minus5. rewrite replace_colon_or_dot, length_map.
  apply firstn_map.
Qed.

Lemma dash_no_colon c : dash c <> 58%N /\ dash c <> 46%N.
Proof.
  unfold dash. destruct (N.eqb c 58) eqn:H1; [split; discriminate|].
  destruct (N.eqb c 46) eqn:H2; [split; discriminate|].
  cbn [orb]. apply N.eqb_neq in H1, H2. now split.
Qed.

(** X8.  What one call of [downloadCSV] leaves behind: with an empty dataset
    an error line and no file; otherwise exactly one new file, named
    after the page's clock, holding the CSV of the dataset.  The stamp in
    the name is the ISO time without its last five characters, and holds
    neither a colon nor a dot.  Page, dataset and counter are as before, and
    the call never throws. *)
Theorem downloadCSV_one_file (B : Browser) (data : list object) (w : World B) :
  fst (downloadCSV data w) = Ok tt
  /\ page (snd (downloadCSV data w)) = page w
  /\ allData (snd (downloadCSV data w)) = allData w
  /\ totalItemsScraped (snd (downloadCSV data w)) = totalItemsScraped w
  /\ (data = [] ->
        downloads (snd (downloadCSV data w)) = downloads w
        /\ console (snd (downloadCSV data w))
           = console w ++ [(LError, NoDataToExport)])
  /\ (data <> [] ->
        exists stamp,
          downloads (snd (downloadCSV data w))
          = downloads w
              ++ [(lit "duke_dining_complete_" ++ stamp ++ lit ".csv",
                   csvContent data)]
          /\ length stamp = length (toISOString B (page w)) - 5
          /\ ~ In (ch ":") stamp /\ ~ In (ch ".") stamp
          /\ (forall i c, nth_error stamp i = Some c ->
                exists c0, nth_error (toISOString B (page w)) i = Some c0
                           /\ c = dash c0)).
Proof.
  unfold downloadCSV. destruct data as [|d data].
  - cbn. repeat match goal with |- _ /\ _ => split end; try reflexivity.
    + intros _. split; reflexivity.
    + intros H. now contradiction H.
  - cbn [length Nat.eqb].
    cbv beta iota zeta delta [bind print getPage fst snd page allData
                              totalItemsScraped console downloads].
    repeat match goal with |- _ /\ _ => split end; try reflexivity.
    + intros H; discriminate H.
    + intros _. rewrite timestamp_dash.
      exists (List.map dash (firstn (length (toISOString B (page w)) - 5)
                                    (toISOString B (page w)))).
      split; [destruct w; reflexivity|].
      split; [rewrite length_map, length_firstn; apply Nat.min_l, Nat.le_sub_l|].
      split; [|split].
      * intros H. apply in_map_iff in H. destruct H as (c & H & _).
        exact (proj1 (dash_no_colon c) H).
      * intros H. apply in_map_iff in H. destruct H as (c & H & _).
        exact (proj2 (dash_no_colon c) H).
      * intros i c H. rewrite nth_error_map in H.
        destruct (nth_error (firstn _ _) i) as [c0|] eqn:E; [|discriminate H].
        exists c0. split; [|now inversion H].
        rewrite nth_error_firstn in E.
        destruct (Nat.ltb i _); [exact E | discriminate E].
Qed.

Lemma same_downloads_loop (B : Browser) i rs (w : World B) :
  downloads (snd (forIndex i rs (@restaurantIteration B) w)) = downloads w.
Proof.
  apply (@frames_restaurant_loop B (@same_downloads B)); unfold same_downloads.
  - reflexivity.
  - intros a b c H1 H2. now rewrite H2.
  - reflexivity.
  - reflexivity.
Qed.

Lemma scrapeAllRestaurants_run (B : Browser) (w : World B) :
  exists p ad n con,
    scrapeAllRestaurants w
    = (Ok tt,
       mkWorld B p ad n con
         (downloads w
            ++ match ad with [] => [] | _ :: _ => [@exportOf B p ad] end)).
Proof.
  unfold scrapeAllRestaurants.
  set (k := fun _ : unit => bind (print LLog Rule) _).
  unfold bind at 1, print at 1. unfold bind at 1.
  set (w0 := mkWorld B (page w) (allData w) (totalItemsScraped w)
               (console w ++ [(LLog, StartingScrape (length RESTAURANTS))])
               (downloads w)).
  pose proof (restaurant_loop_ok RESTAURANTS 0 w0) as L.
  pose proof (same_downloads_loop 0 RESTAURANTS w0) as D.
  destruct (forIndex 0 RESTAURANTS (@restaurantIteration B) w0)
    as [[[]|e] w1]; [|discriminate L].
  cbn [snd] in D. change (downloads w0) with (downloads w) in D.
  destruct w1 as [p ad n con dl]. cbn [downloads] in D. subst dl k.
  cbv beta iota delta [bind print getTotal getAllData fst snd
                       allData totalItemsScraped console page].
  cbn [downloads].
  unfold downloadCSV. destruct ad as [|d ad].
  - cbn [length Nat.eqb]. unfold print. cbn [page allData totalItemsScraped console downloads].
    exists p, [], n. eexists. cbv beta iota. rewrite app_nil_r. reflexivity.
  - cbn [length Nat.eqb].
    cbv beta iota zeta delta [bind print getPage fst snd allData
                              totalItemsScraped console page].
    cbn [downloads].
    rewrite timestamp_dash. exists p, (d :: ad), n. eexists. reflexivity.
Qed.

Lemma scrapeAllRestaurants_result (B : Browser) (w : World B) :
  fst (scrapeAllRestaurants w) = Ok tt
  /\ downloads (snd (scrapeAllRestaurants w))
     = downloads w
         ++ match allData (snd (scrapeAllRestaurants w)) with
            | [] => []
            | _ :: _ =>
                [@exportOf B (page (snd (scrapeAllRestaurants w)))
                           (allData (snd (scrapeAllRestaurants w)))]
            end.
Proof.
  destruct (scrapeAllRestaurants_run w) as (p & ad & n & con & ->).
  split; reflexivity.
Qed.

(** X9.  A whole run exports at most once, and only at its end: the scraping
    itself never downloads anything, the handler for a fatal error is never
    entered, and the run finishes normally.  When the final dataset is
    empty nothing is downloaded; otherwise the one download is the CSV of
    the final dataset, named after the clock of the final page. *)
Theorem main_exports_once (B : Browser) (w : World B) :
  fst (main w) = Ok tt
  /\ main w = scrapeAllRestaurants w
  /\ downloads (snd (main w))
     = downloads w
         ++ match allData (snd (main w)) with
            | [] => []
            | _ :: _ => [@exportOf B (page (snd (main w))) (allData (snd (main w)))]
            end
  /\ (forall r (w0 : World B),
        downloads (snd (scrapeRestaurant r w0)) = downloads w0).
Proof.
  destruct (scrapeAllRestaurants_result w) as (E2 & E3).
  assert (E1 : main w = scrapeAllRestaurants w).
  { unfold main, try_catch.
    destruct (scrapeAllRestaurants w) as [[[]|e] w1];
      [reflexivity | discriminate E2]. }
  rewrite E1.
  split; [exact E2|]. split; [reflexivity|]. split; [exact E3|].
  intros r. apply (@frames_scrapeRestaurant B (@same_downloads B));
    unfold same_downloads.
  - reflexivity.
  - intros a b c H1 H2. now rewrite H2.
  - reflexivity.
  - reflexivity.
Qed.

(* ================================================================= *)
(** * Where the records come from *)

Section Provenance.

Variable B : Browser.

Lemma adds_weaken A (P P' : object -> Prop) (c : M B A) :
  (forall d, P d -> P' d) -> adds P c -> adds P' c.
Proof.
  intros H Hc w. destruct (Hc w) as (added & E & F).
  exists added. split; [exact E|]. eapply Forall_impl; [exact H | exact F].
Qed.

Lemma adds_forOf_in A P (xs : list A) (body : A -> M B unit) :
  (forall x, In x xs -> adds P (body x)) -> adds P (forOf xs body).
Proof.
  induction xs as [|x xs IH]; intros H; simpl.
  - apply keeps_adds, keeps_ret.
  - apply adds_bind; [apply H; now left | intros _].
    apply IH. intros y Hy. apply H. now right.
Qed.

Lemma adds_forIndex_in A P (xs : list A) (body : nat -> A -> M B unit) i :
  (forall i x, In x xs -> adds P (body i x)) -> adds P (forIndex i xs body).
Proof.
  revert i. induction xs as [|x xs IH]; intros i H; simpl.
  - apply keeps_adds, keeps_ret.
  - apply adds_bind; [apply H; now left | intros _].
    apply IH. intros j y Hy. apply H. now right.
Qed.

Lemma scrapeItemRow_name (row : Elem B) rn mp w d w' link :
  scrapeItemRow row rn mp w = (Ok (Some d), w') ->
  querySelector B (page w) (Some row) SelItemLink = Some link ->
  2 <= length (trim (textContent B (page w) link)).
Proof.
  unfold scrapeItemRow. intros H Hl.
  destruct w as [p ad n con dl]. cbn [page] in *.
  cbv beta iota zeta delta
      [bind ret getPage sleep doClick liftR print extractNutritionFromModal
       setPage page allData totalItemsScraped console downloads] in H.
  rewrite Hl in H.
  destruct (negb (truthy (trim (textContent B p link)))
            || Nat.ltb (length (trim (textContent B p link))) 2) eqn:Ec;
    [discriminate H|].
  apply orb_false_iff in Ec as [_ Ec]. now apply Nat.ltb_ge in Ec.
Qed.

Lemma record_tagged (row : Elem B) rn mp w d w' :
  scrapeItemRow row rn mp w = (Ok (Some d), w') -> tagged rn mp d.
Proof.
  intros H.
  destruct (scrapeItemRow_spec _ _ _ _ H)
    as (link & p1 & nd & Hl & Hp & Hnd & E).
  pose proof (scrapeItemRow_name _ _ _ _ H Hl) as Hn.
  destruct (findModal B p1) as [modal|].
  - destruct (extractNutrition_shape (textContent B p1 modal))
      as (sv & cal & tf & sf & trf & cho & sod & tc & fib & sug & pro & ing & En & _).
    rewrite En in Hnd. injection Hnd as <-. subst d.
    split; [reflexivity|]. split; [reflexivity|].
    eexists. split; [reflexivity | exact Hn].
  - subst nd d.
    split; [reflexivity|]. split; [reflexivity|].
    eexists. split; [reflexivity | exact Hn].
Qed.

Lemma adds_tagged_itemIteration rn mp maxItems i (row : Elem B) :
  adds (tagged rn mp) (itemIteration rn mp maxItems i row).
Proof.
  intros w. destruct (itemIteration_spec rn mp maxItems i row w) as [_ H].
  eexists. split; [exact H|].
  unfold itemOutcome.
  destruct (scrapeItemRow row rn mp w) as [[[d|]|e] w1] eqn:E; cbn [produced];
    constructor; [|constructor].
  exact (record_tagged _ _ _ _ E).
Qed.

Lemma adds_tagged_scrapeCurrentPage rn mp :
  adds (tagged rn mp) (@scrapeCurrentPage B rn mp).
Proof.
  unfold scrapeCurrentPage.
  apply adds_bind; [apply keeps_adds, keeps_expandAllCategories | intros _].
  apply adds_bind; [apply keeps_adds, keeps_getPage | intros p].
  apply adds_bind; [apply keeps_adds, keeps_print | intros _].
  apply adds_bind.
  - apply adds_forIndex. intros i row. apply adds_tagged_itemIteration.
  - intros _. destruct TEST_MODE; apply keeps_adds;
      [apply keeps_print | apply keeps_ret].
Qed.

Lemma all_day_period_word : period_word (lit "All Day").
Proof.
  split; [|vm_compute; lia].
  exists (lit "All Day"). split; [|now left].
  unfold MEAL_PERIOD_KEYWORDS. cbn [In]. tauto.
Qed.

Lemma findMealPeriods_period_word (p : Page B) q :
  In q (findMealPeriods B p) -> period_word (period_name q).
Proof.
  intros Hq.
  destruct (@findMealPeriods_fold B p _ (querySelectorAll B p None SelClickable) []
              (fun el H => H) eq_refl) as (H1 & _).
  destruct (H1 q Hq) as [[]|(_ & _ & _ & Hk & Hl)]. now split.
Qed.

Lemma adds_scrapeRestaurant r : adds (record_of r) (@scrapeRestaurant B r).
Proof.
  unfold scrapeRestaurant.
  apply adds_bind; [apply keeps_adds, keeps_getPage | intros p].
  destruct (findRestaurantLink B p (name r)) as [link|];
    [|apply keeps_adds, keeps_print].
  apply adds_bind; [apply keeps_adds, keeps_doClick | intros _].
  apply adds_bind; [apply keeps_adds, keeps_sleep | intros _].
  apply adds_bind; [apply keeps_adds, keeps_getPage | intros p1].
  cbv zeta. destruct (Nat.ltb 0 (length (findMealPeriods B p1))).
  - apply adds_bind; [apply keeps_adds, keeps_print | intros _].
    apply adds_forOf_in. intros q Hq.
    apply adds_bind; [apply keeps_adds, keeps_print | intros _].
    apply adds_bind; [apply keeps_adds, keeps_doClick | intros _].
    apply adds_bind; [apply keeps_adds, keeps_sleep | intros _].
    apply adds_weaken with (P := tagged (name r) (period_name q));
      [|apply adds_tagged_scrapeCurrentPage].
    intros d Hd. exists (period_name q). split; [exact Hd|].
    now apply findMealPeriods_period_word with (p := p1).
  - apply adds_bind; [apply keeps_adds, keeps_print | intros _].
    apply adds_weaken with (P := tagged (name r) (lit "All Day"));
      [|apply adds_tagged_scrapeCurrentPage].
    intros d Hd. exists (lit "All Day"). split; [exact Hd|].
    apply all_day_period_word.
Qed.

Lemma adds_restaurant_loop i rs :
  (forall r, In r rs -> In r RESTAURANTS) ->
  adds sound_record (forIndex i rs (@restaurantIteration B)).
Proof.
  intros Hrs. apply adds_forIndex_in. intros j r Hr.
  unfold restaurantIteration.
  apply adds_bind; [apply keeps_adds, keeps_print | intros _].
  apply adds_bind; [apply keeps_adds, keeps_print | intros _].
  apply adds_bind; [apply keeps_adds, keeps_print | intros _].
  apply adds_bind; [|intros _; apply keeps_adds, keeps_sleep].
  apply adds_try_catch; [|intros e; apply keeps_adds, keeps_print].
  apply adds_weaken with (P := record_of r); [|apply adds_scrapeRestaurant].
  intros d Hd. exists r. split; [apply Hrs, Hr | exact Hd].
Qed.

Lemma keeps_downloadCSV data : keeps (@downloadCSV B data).
Proof.
  intros w. unfold downloadCSV.
  destruct (Nat.eqb (length data) 0); reflexivity.
Qed.

Lemma adds_scrapeAllRestaurants : adds sound_record (@scrapeAllRestaurants B).
Proof.
  unfold scrapeAllRestaurants.
  apply adds_bind; [apply keeps_adds, keeps_print | intros _].
  apply adds_bind; [apply adds_restaurant_loop; auto | intros _].
  apply adds_bind; [apply keeps_adds, keeps_print | intros _].
  apply adds_bind; [apply keeps_adds, keeps_print | intros _].
  apply adds_bind; [apply keeps_adds; intros w; reflexivity | intros total].
  apply adds_bind; [apply keeps_adds, keeps_print | intros _].
  apply adds_bind; [apply keeps_adds, keeps_print | intros _].
  apply adds_bind; [apply keeps_adds; intros w; reflexivity | intros data].
  apply keeps_adds, keeps_downloadCSV.
Qed.

End Provenance.

(** X10.  Every record comes from a listed restaurant and a detected period.
    What [scrapeCurrentPage] appends carries the restaurant name and meal
    period it was called with and an item name of at least two
    characters; what [scrapeRestaurant] appends carries the name of its
    restaurant and a meal period that is, or contains, a keyword of the
    vocabulary; when the restaurant's link is not found, nothing is
    appended and only the warning is printed.  Over a whole run the
    dataset only grows, by records of restaurants of the list. *)
Theorem records_provenance (B : Browser) :
  (forall rn mp (w : World B), exists added,
      allData (snd (scrapeCurrentPage rn mp w)) = allData w ++ added
      /\ Forall (tagged rn mp) added)
  /\ (forall r (w : World B), exists added,
      allData (snd (scrapeRestaurant r w)) = allData w ++ added
      /\ Forall (record_of r) added)
  /\ (forall r (w : World B),
      findRestaurantLink B (page w) (name r) = None ->
      scrapeRestaurant r w
      = (Ok tt, mkWorld B (page w) (allData w) (totalItemsScraped w)
                        (console w ++ [(LWarn, NoRestaurantLink (name r))])
                        (downloads w)))
  /\ (forall w : World B, exists added,
      allData (snd (main w)) = allData w ++ added
      /\ Forall sound_record added).
Proof.
  split; [|split; [|split]].
  - intros rn mp. apply adds_tagged_scrapeCurrentPage.
  - intros r. apply adds_scrapeRestaurant.
  - intros r w H. unfold scrapeRestaurant.
    unfold bind at 1, getPage at 1. rewrite H. reflexivity.
  - intros w.
    assert (E : main w = scrapeAllRestaurants w).
    { destruct (scrapeAllRestaurants_run w) as (p & ad & n & con & E).
      unfold main, try_catch. rewrite E. reflexivity. }
    rewrite E. apply adds_scrapeAllRestaurants.
Qed.

(* ================================================================= *)
(** * Closing the overlay *)

Section Closing.

Variable B : Browser.

(** No button of [selectors] can be used: the selector has no match, or
    its first match is hidden. *)
Lemma closeWith_escape (selectors : list selector) (w : World B) :
  (forall sel btn, In sel selectors ->
     querySelector B (page w) None sel = Some btn ->
     offsetParent B (page w) btn = false) ->
  closeWith selectors w
  = (Ok tt, setPage (wait B 300 (pressEscape B (page w))) w).
Proof.
  induction selectors as [|sel selectors IH]; intros H.
  - destruct w; reflexivity.
  - cbn [closeWith]. unfold bind at 1, getPage at 1.
    destruct (querySelector B (page w) None sel) as [btn|] eqn:E.
    + rewrite (H sel btn (or_introl eq_refl) E).
      apply IH. intros s b Hs. apply H. now right.
    + apply IH. intros s b Hs. apply H. now right.
Qed.

Lemma closeWith_button before sel after btn (w : World B) :
  (forall s b, In s before ->
     querySelector B (page w) None s = Some b ->
     offsetParent B (page w) b = false) ->
  querySelector B (page w) None sel = Some btn ->
  offsetParent B (page w) btn = true ->
  closeWith (before ++ sel :: after) w
  = match click B (page w) btn with
    | (p, None) => (Ok tt, setPage (wait B 300 p) w)
    | (p, Some e) => (Throw e, setPage p w)
    end.
Proof.
  induction before as [|s0 before IH]; intros H Hq Hv.
  - cbn [app closeWith]. unfold bind at 1, getPage at 1. rewrite Hq, Hv.
    unfold bind, doClick, sleep.
    destruct (click B (page w) btn) as [p [e|]]; destruct w; reflexivity.
  - cbn [app closeWith]. unfold bind at 1, getPage at 1.
    destruct (querySelector B (page w) None s0) as [b|] eqn:E.
    + rewrite (H s0 b (or_introl eq_refl) E).
      apply IH; auto. intros s b' Hs. apply H. now right.
    + apply IH; auto. intros s b' Hs. apply H. now right.
Qed.

End Closing.

(** X11.  [closeModal] tries the five close selectors in order and looks only
    at the first match of each.  The first selector whose first match is
    visible decides: that button is clicked and the script waits 300 ms
    (or the click's exception is passed on, without the wait).  When no
    selector has a visible first match, Escape is pressed and the script
    waits 300 ms; this path never throws.  Nothing but the page changes. *)
Theorem closeModal_buttons (B : Browser) :
  (forall w : World B,
      (forall sel btn, In sel closeSelectors ->
         querySelector B (page w) None sel = Some btn ->
         offsetParent B (page w) btn = false) ->
      closeModal w = (Ok tt, setPage (wait B 300 (pressEscape B (page w))) w))
  /\ (forall (w : World B) before sel after btn,
      closeSelectors = before ++ sel :: after ->
      (forall s b, In s before ->
         querySelector B (page w) None s = Some b ->
         offsetParent B (page w) b = false) ->
      querySelector B (page w) None sel = Some btn ->
      offsetParent B (page w) btn = true ->
      closeModal w
      = match click B (page w) btn with
        | (p, None) => (Ok tt, setPage (wait B 300 p) w)
        | (p, Some e) => (Throw e, setPage p w)
        end).
Proof.
  split.
  - intros w H. apply closeWith_escape. exact H.
  - intros w before sel after btn E H Hq Hv. unfold closeModal. rewrite E.
    now apply closeWith_button.
Qed.

Lemma closeModal_buttons_witness :
  closeModal MoreExamples.dialog_open
  = (Ok tt, mkWorld MoreExamples.dialog false [] 0 [] [])
  /\ closeModal (mkWorld Fixture.browser
                          (Fixture.State Fixture.cafe (Some 0)) [] 0 [] [])
     = (Ok tt, Fixture.start Fixture.cafe).
Proof.
  destruct (closeModal_buttons MoreExamples.dialog) as (_ & H2).
  destruct (closeModal_buttons Fixture.browser) as (H1 & _).
  split.
  - apply (H2 MoreExamples.dialog_open [SelCloseAria] SelCloseClass
              [SelCloseButton; SelModalClose; SelCloseTitle] 1).
    + reflexivity.
    + intros s b [<-|[]] Hq. injection Hq as <-. reflexivity.
    + reflexivity.
    + reflexivity.
  - apply H1. intros sel btn Hs Hq.
    cbn [closeSelectors In] in Hs.
    repeat (destruct Hs as [<-|Hs]; [discriminate Hq|]). destruct Hs.
Defined.

(* ================================================================= *)
(** * Expanding the categories *)

Section Expanding.

Variable B : Browser.

Lemma only_page_bind A C (c : M B A) (f : A -> M B C) :
  frames (@only_page B) c -> (forall a, frames (@only_page B) (f a)) ->
  frames (@only_page B) (bind c f).
Proof.
  intros Hc Hf w. unfold bind. specialize (Hc w).
  destruct (c w) as [[a|e] w1]; cbn [snd] in *; [|exact Hc].
  specialize (Hf a w1). unfold only_page, setPage in *.
  generalize dependent (snd (f a w1)). intros w2 Hf.
  destruct w, w1, w2. cbn [page allData totalItemsScraped console downloads] in *.
  congruence.
Qed.

Lemma only_page_forOf A (xs : list A) (body : A -> M B unit) :
  (forall x, frames (@only_page B) (body x)) ->
  frames (@only_page B) (forOf xs body).
Proof.
  intros H. induction xs as [|x xs IH]; cbn [forOf].
  - intros w. unfold only_page. destruct w; reflexivity.
  - apply only_page_bind; [apply H | intros _; exact IH].
Qed.

Lemma only_page_expandAllCategories :
  frames (@only_page B) (@expandAllCategories B).
Proof.
  unfold expandAllCategories. apply only_page_forOf. intros sel.
  apply only_page_bind; [intros w; destruct w; reflexivity | intros p].
  apply only_page_forOf. intros elem.
  apply only_page_bind; [intros w; destruct w; reflexivity | intros p'].
  destruct (_ || _); [|intros w; destruct w; reflexivity].
  apply only_page_bind.
  - intros w. unfold doClick, only_page.
    destruct (click B (page w) elem) as [p1 [e|]]; destruct w; reflexivity.
  - intros _ w. destruct w; reflexivity.
Qed.

(** A loop whose every turn does nothing does nothing. *)
Lemma forOf_idle A (xs : list A) (body : A -> M B unit) (w : World B) :
  (forall x, In x xs -> body x w = (Ok tt, w)) ->
  forOf xs body w = (Ok tt, w).
Proof.
  induction xs as [|x xs IH]; intros H; [reflexivity|].
  cbn [forOf]. unfold bind. rewrite (H x (or_introl eq_refl)).
  apply IH. intros y Hy. apply H. now right.
Qed.

Lemma expand_idle (w : World B) :
  (forall sel elem,
     In sel [SelDetailsClosed; SelSummary; SelCategory; SelDropdown] ->
     In elem (querySelectorAll B (page w) None sel) ->
     expandable B (page w) elem = false) ->
  expandAllCategories w = (Ok tt, w).
Proof.
  intros H. unfold expandAllCategories. apply forOf_idle. intros sel Hs.
  unfold bind at 1, getPage at 1. cbv zeta.
  apply forOf_idle. intros elem He.
  unfold bind at 1, getPage at 1. cbv zeta.
  specialize (H sel elem Hs He). unfold expandable in H. rewrite H.
  reflexivity.
Qed.

End Expanding.

(** X12.  [expandAllCategories] touches nothing but the page.  On a page where
    no element of the four selectors holds a triangle or is a SUMMARY it
    does nothing at all, not even wait.  It is not guarded: an exception
    of one of its clicks ends [scrapeCurrentPage] before any row is
    looked at, so the page contributes no record. *)
Theorem expandAllCategories_effect (B : Browser) :
  (forall w : World B,
      snd (expandAllCategories w)
      = setPage (page (snd (expandAllCategories w))) w)
  /\ (forall w : World B,
      (forall sel elem,
         In sel [SelDetailsClosed; SelSummary; SelCategory; SelDropdown] ->
         In elem (querySelectorAll B (page w) None sel) ->
         expandable B (page w) elem = false) ->
      expandAllCategories w = (Ok tt, w))
  /\ (forall rn mp (w : World B) e,
      fst (expandAllCategories w) = Throw e ->
      scrapeCurrentPage rn mp w = (Throw e, snd (expandAllCategories w))
      /\ allData (snd (scrapeCurrentPage rn mp w)) = allData w).
Proof.
  split; [|split].
  - apply only_page_expandAllCategories.
  - intros w H. now apply expand_idle.
  - intros rn mp w e H.
    assert (E : scrapeCurrentPage rn mp w = (Throw e, snd (expandAllCategories w))).
    { unfold scrapeCurrentPage. unfold bind at 1.
      destruct (expandAllCategories w) as [[[]|e'] w1]; cbn [fst snd] in *;
        [discriminate H | congruence]. }
    split; [exact E|]. rewrite E. cbn [snd].
    apply keeps_expandAllCategories.
Qed.

Lemma expandAllCategories_effect_witness :
  expandAllCategories (Fixture.start Fixture.cafe)
  = (Ok tt, Fixture.start Fixture.cafe).
Proof.
  destruct (expandAllCategories_effect Fixture.browser) as (_ & H & _).
  apply H. intros sel elem Hs He.
  cbn [In] in Hs.
  repeat (destruct Hs as [<-|Hs]; [destruct He|]). destruct Hs.
Defined.

(* ================================================================= *)
(** * The yield of one page *)

Lemma produced_length (os : list outcome) : length (produced os) <= length os.
Proof.
  induction os as [|[d| |e] os IH]; cbn [produced length]; lia.
Qed.

(** X13.  [scrapeCurrentPage] throws exactly when the expansion of the
    categories throws, and with its exception: the item loop and the
    prints cannot.  It appends at most one record per item row found on
    the page the expansion left, in the order of the rows. *)
Theorem scrapeCurrentPage_yield (B : Browser) rn mp (w : World B) :
  fst (scrapeCurrentPage rn mp w) = fst (expandAllCategories w)
  /\ exists added,
       allData (snd (scrapeCurrentPage rn mp w)) = allData w ++ added
       /\ length added
          <= length (findAllItemRows B (page (snd (expandAllCategories w))))
       /\ (fst (expandAllCategories w) <> Ok tt -> added = []).
Proof.
  remember (scrapeCurrentPage rn mp w) as r eqn:Hr.
  unfold scrapeCurrentPage in Hr. unfold bind at 1 in Hr.
  pose proof (keeps_expandAllCategories w) as Hk.
  destruct (expandAllCategories w) as [[[]|e] w1]; cbn [fst snd] in *.
  - unfold bind at 1, getPage at 1 in Hr. unfold bind at 1, print at 1 in Hr.
    set (rows := findAllItemRows B (page w1)) in *.
    set (maxItems := if TEST_MODE then Nat.min MAX_TEST_ITEMS (length rows)
                     else length rows) in *.
    set (w2 := mkWorld B (page w1) (allData w1) (totalItemsScraped w1)
                 (console w1 ++ [(LLog, FoundItems (length rows))])
                 (downloads w1)) in *.
    destruct (item_loop_spec rn mp maxItems (firstn maxItems rows) 0 w2)
      as [H1 H2].
    unfold bind in Hr.
    destruct (forIndex 0 (firstn maxItems rows) (itemIteration rn mp maxItems) w2)
      as [[[]|e] w3]; cbn [fst snd] in *; [|discriminate H1].
    assert (E : fst r = Ok tt /\ allData (snd r) = allData w3).
    { subst r. destruct TEST_MODE; split; reflexivity. }
    destruct E as [E1 E2].
    split; [exact E1|].
    exists (produced (itemOutcomes rn mp maxItems 0 (firstn maxItems rows) w2)).
    split.
    + rewrite E2, H2, <- Hk. reflexivity.
    + split; [|intros H; now contradiction H].
      eapply Nat.le_trans; [apply produced_length|].
      rewrite itemOutcomes_length, length_firstn. apply Nat.le_min_r.
  - subst r. split; [reflexivity|]. exists []. rewrite app_nil_r.
    split; [exact Hk|]. split; [cbn; lia | reflexivity].
Qed.

(* ================================================================= *)
(** * The item rows of a page *)

Lemma findAllItemRows_of (B : Browser) (p : Page B) table row :
  In table (querySelectorAll B p None SelTable) ->
  In row (querySelectorAll B p (Some table) SelTr) ->
  item_row B p row ->
  In row (findAllItemRows B p).
Proof.
  intros Ht Hr (Hth & Htd & link & Hl & Hn & Hb & Hc).
  unfold findAllItemRows. apply in_flat_map. exists table.
  split; [exact Ht|]. apply filter_In. split; [exact Hr|].
  rewrite Hth, Hl.
  destruct (querySelectorAll B p (Some row) SelTd) as [|c cs];
    [now contradiction Htd|].
  cbn [length Nat.eqb]. cbv zeta.
  apply negb_true_iff. rewrite !orb_false_iff. repeat split.
  - now apply Nat.ltb_ge.
  - destruct (str_eqb _ (lit "Back")) eqn:E; [|reflexivity].
    apply str_eqb_eq in E. now contradiction Hb.
  - destruct (str_eqb _ (lit "Compare Items")) eqn:E; [|reflexivity].
    apply str_eqb_eq in E. now contradiction Hc.
Qed.

(** X14.  [findAllItemRows] returns exactly the rows of the page's tables that
    qualify as item rows.  It goes table by table and does not remove
    repetitions: a qualifying row that is among the rows of two of the
    tables, as a row of a nested table is, comes twice. *)
Theorem findAllItemRows_exact (B : Browser) (p : Page B) :
  (forall row,
      In row (findAllItemRows B p)
      <-> exists table,
            In table (querySelectorAll B p None SelTable)
            /\ In row (querySelectorAll B p (Some table) SelTr)
            /\ item_row B p row)
  /\ (forall ta t1 tb t2 tc row,
      querySelectorAll B p None SelTable = ta ++ t1 :: tb ++ t2 :: tc ->
      In row (querySelectorAll B p (Some t1) SelTr) ->
      In row (querySelectorAll B p (Some t2) SelTr) ->
      item_row B p row ->
      exists l1 l2 l3, findAllItemRows B p = l1 ++ row :: l2 ++ row :: l3).
Proof.
  split.
  - intros row. split.
    + intros H. destruct (findAllItemRows_in _ _ _ H)
        as (table & link & Ht & Hr & Hth & Htd & Hl & Hn & Hb & Hc).
      exists table. split; [exact Ht|]. split; [exact Hr|].
      split; [exact Hth|]. split; [exact Htd|]. now exists link.
    + intros (table & Ht & Hr & Hi). now apply findAllItemRows_of with table.
  - intros ta t1 tb t2 tc row E H1 H2 Hi.
    assert (I1 : In row (findAllItemRows B p)).
    { apply findAllItemRows_of with t1; auto. rewrite E.
      apply in_or_app. right. now left. }
    unfold findAllItemRows in *. rewrite E in *. clear E.
    set (f := fun table => filter _ (querySelectorAll B p (Some table) SelTr)) in *.
    assert (F1 : In row (f t1)).
    { apply filter_In. split; [exact H1|].
      apply in_flat_map in I1 as (t & _ & I1).
      apply filter_In in I1. exact (proj2 I1). }
    assert (F2 : In row (f t2)).
    { apply filter_In. split; [exact H2|].
      apply filter_In in F1. exact (proj2 F1). }
    apply in_split in F1 as (a & b & F1). apply in_split in F2 as (c & d & F2).
    exists (flat_map f ta ++ a), (b ++ flat_map f tb ++ c), (d ++ flat_map f tc).
    rewrite flat_map_app. cbn [flat_map]. rewrite flat_map_app. cbn [flat_map].
    rewrite F1, F2. repeat rewrite <- app_assoc. cbn [app].
    repeat rewrite <- app_assoc. reflexivity.
Qed.

(* ================================================================= *)
(** * Finding the nutrition overlay *)

Lemma find_none_iff A (f : A -> bool) (l : list A) :
  find f l = None <-> forall x, In x l -> f x = false.
Proof.
  split; [apply find_none|]. intros H.
  destruct (find f l) as [x|] eqn:E; [|reflexivity].
  apply find_some in E as [E1 E2]. rewrite (H x E1) in E2. discriminate E2.
Qed.

(** X15.  The overlay [extractNutritionFromModal] reads is the first visible
    modal or dialog element whose text holds the nutrition heading,
    whether or not it mentions calories; only when there is none, the
    first visible div or section holding both the heading and the word
    Calories.  When neither exists the function logs that and returns an
    empty object; in no case does it throw or change the page. *)
Theorem modal_lookup (B : Browser) :
  (forall p m,
      findModal B p = Some m ->
      offsetParent B p m = true
      /\ includes (textContent B p m) (lit "Nutrition Information") = true
      /\ ((exists before after,
              querySelectorAll B p None SelModal = before ++ m :: after
              /\ forall x, In x before -> modal_like B p x = false)
          \/ ((forall x, In x (querySelectorAll B p None SelModal) ->
                         modal_like B p x = false)
              /\ includes (textContent B p m) (lit "Calories") = true
              /\ exists before after,
                   querySelectorAll B p None SelDivSection = before ++ m :: after
                   /\ forall x, In x before -> panel_like B p x = false)))
  /\ (forall p,
      findModal B p = None
      <-> (forall x, In x (querySelectorAll B p None SelModal) ->
                     modal_like B p x = false)
          /\ (forall x, In x (querySelectorAll B p None SelDivSection) ->
                        panel_like B p x = false))
  /\ (forall w : World B,
      match findModal B (page w) with
      | Some modal =>
          exists nutrition,
            extractNutritionFromModal w = (Ok nutrition, w)
            /\ extractNutrition (textContent B (page w) modal) = Ok nutrition
      | None =>
          extractNutritionFromModal w
          = (Ok [], mkWorld B (page w) (allData w) (totalItemsScraped w)
                            (console w ++ [(LLog, NoModal)]) (downloads w))
      end).
Proof.
  split; [|split].
  - intros p m H. unfold findModal in H.
    fold (modal_like B p) in H.
    destruct (find (modal_like B p) (querySelectorAll B p None SelModal))
      as [m'|] eqn:E1.
    + injection H as <-.
      destruct (find_first _ _ E1) as (l1 & l2 & El & Fx & Hl).
      unfold modal_like in Fx. apply andb_prop in Fx as [F1 F2].
      split; [exact F1|]. split; [exact F2|].
      left. now exists l1, l2.
    + destruct (find_first _ _ H) as (l1 & l2 & El & Fx & Hl).
      apply andb_prop in Fx as [Fx F3]. apply andb_prop in Fx as [F1 F2].
      split; [exact F1|]. split; [exact F2|].
      right. split; [exact (proj1 (find_none_iff _ _) E1)|]. split; [exact F3|].
      exists l1, l2. split; [exact El | exact Hl].
  - intros p. unfold findModal. fold (modal_like B p).
    destruct (find (modal_like B p) (querySelectorAll B p None SelModal))
      as [m'|] eqn:E1.
    + split; [discriminate|]. intros [H _].
      pose proof (proj2 (find_none_iff _ _) H) as H'. congruence.
    + pose proof (proj1 (find_none_iff _ _) E1) as E1'. split.
      * intros H. split; [exact E1' | exact (proj1 (find_none_iff _ _) H)].
      * intros [_ H]. exact (proj2 (find_none_iff _ _) H).
  - intros w.
    assert (E : extractNutritionFromModal w
                = match findModal B (page w) with
                  | Some modal =>
                      (extractNutrition (textContent B (page w) modal), w)
                  | None =>
                      (Ok [], mkWorld B (page w) (allData w) (totalItemsScraped w)
                                      (console w ++ [(LLog, NoModal)])
                                      (downloads w))
                  end).
    { unfold extractNutritionFromModal. unfold bind at 1, getPage at 1.
      destruct (findModal B (page w)); reflexivity. }
    rewrite E. destruct (findModal B (page w)) as [modal|]; [|reflexivity].
    destruct (extractNutrition_shape (textContent B (page w) modal))
      as (sv & cal & tf & sf & trf & cho & sod & tc & fib & sug & pro & ing & En & _).
    eexists. split; [|exact En]. rewrite En. reflexivity.
Qed.

(* ================================================================= *)
(** * The columns of the export *)

(** Read back, an export is its header row and one row per record, each
    holding the record's fields under the headers. *)
Lemma parse_csvContent (data : list object) :
  data <> [] ->
  keys (hd [] data) <> [] ->
  forallb plain (keys (hd [] data)) = true ->
  Csv.parse (csvContent data)
  = keys (hd [] data)
    :: List.map (fun row => List.map (field_of row) (keys (hd [] data))) data.
Proof.
  intros Hd Hne Hp. set (headers := keys (hd [] data)) in *.
  rewrite csvContent_format. fold headers. unfold Csv.parse.
  destruct data as [|d data]; [congruence|].
  cbn [List.map]. rewrite join_cons2, run_app.
  destruct (run_header_row Hne Hp [] []) as (r' & f' & m' & Hm' & E & Er).
  rewrite E, run_app. cbn [app] in Er.
  assert (Ec : Csv.run (Csv.PState [] r' f' m') [10%N]
               = Csv.PState [r' ++ [f']] [] [] Csv.FieldStart)
    by (destruct Hm' as [-> | ->]; reflexivity).
  rewrite Ec, Er.
  change (join [10%N]
            (join (lit ",") (List.map quoted (List.map (field_of d) headers))
             :: List.map (fun vs => join (lit ",") (List.map quoted vs))
                  (List.map (fun row => List.map (field_of row) headers) data)))
    with (join [10%N]
            (List.map (fun vs => join (lit ",") (List.map quoted vs))
               (List.map (fun row => List.map (field_of row) headers) (d :: data)))).
  rewrite run_data_lines; [reflexivity | discriminate |].
  apply Forall_forall. intros vs Hvs. apply in_map_iff in Hvs as (row & <- & _).
  destruct headers; [congruence | discriminate].
Qed.

(** X16.  The columns of the export are the fields of the first record.
    A record has the five row fields when the overlay of its item was not
    found, and sixteen fields when it was.  So when the first record is
    one of the former, the export has five columns, and the nutrition
    fields of all other records are left out of it; when it is one of the
    latter, the export has all sixteen, empty where a record lacks them. *)
Theorem export_columns (B : Browser) :
  (forall (row : Elem B) rn mp w d w',
      scrapeItemRow row rn mp w = (Ok (Some d), w') ->
      exists p1,
        pageAfterClick B (page w) row = Some p1
        /\ keys d = match findModal B p1 with
                    | Some _ => full_fields
                    | None => row_fields
                    end)
  /\ (forall first more,
      keys first = row_fields ->
      Csv.parse (csvContent (first :: more))
      = row_fields
        :: List.map (fun d => List.map (field_of d) row_fields) (first :: more))
  /\ (forall first more,
      keys first = full_fields ->
      Csv.parse (csvContent (first :: more))
      = full_fields
        :: List.map (fun d => List.map (field_of d) full_fields) (first :: more))
  /\ (forall d h, get d h = None -> field_of d h = []).
Proof.
  split; [|split; [|split]].
  - intros row rn mp w d w' H.
    destruct (scrapeItemRow_spec _ _ _ _ H) as (link & p1 & nd & _ & Hp & _ & _).
    exists p1. split; [exact Hp|].
    destruct (findModal B p1) as [modal|] eqn:Hm.
    + destruct (record_with_modal _ _ _ _ H Hp Hm)
        as (n & sv & cal & tf & sf & trf & cho & sod & tc & fib & sug & pro & ing
            & _ & ->).
      reflexivity.
    + destruct (record_without_modal _ _ _ _ H Hp Hm) as (n & ->). reflexivity.
  - intros first more E.
    pose proof (@parse_csvContent (first :: more)) as P.
    cbn [hd] in P. rewrite E in P.
    apply P; [discriminate | discriminate | reflexivity].
  - intros first more E.
    pose proof (@parse_csvContent (first :: more)) as P.
    cbn [hd] in P. rewrite E in P.
    apply P; [discriminate | discriminate | reflexivity].
  - intros d h H. unfold field_of. now rewrite H.
Qed.

Lemma export_columns_witness :
  Csv.parse (csvContent [Examples.soup_record; Examples.chicken_record])
  = row_fields
    :: [[lit "Cafe"; lit "All Day"; lit "Tomato Soup"; lit "1 cup"; []];
        [lit "Cafe"; lit "All Day"; lit "Grilled Chicken"; lit "6 oz (170g)";
         lit "Vegan; Vegetarian"]].
Proof.
  destruct (export_columns Fixture.browser) as (_ & H & _).
  exact (H Examples.soup_record [Examples.chicken_record] eq_refl).
Defined.

(* ================================================================= *)
(** * Fields that keep their unit *)

Lemma consumes_any ic r : consumes ic (fun _ => True) r.
Proof.
  intros k s x H. apply rmatch_reaches in H.
  destruct H as (s' & Hk & (u & Hu) & _). exists s', u. auto.
Qed.

Lemma consumes_weaken ic (C C' : str -> Prop) r :
  (forall u, C u -> C' u) -> consumes ic C r -> consumes ic C' r.
Proof.
  intros HC Hr k s x H. destruct (Hr k s x H) as (s' & u & Hk & Hu & Cu).
  exists s', u. auto.
Qed.

Lemma consumes_seq ic (C1 C2 C : str -> Prop) r1 r2 :
  consumes ic C1 r1 -> consumes ic C2 r2 ->
  (forall u1 u2, C1 u1 -> C2 u2 -> C (u1 ++ u2)) ->
  consumes ic C (Seq r1 r2).
Proof.
  intros H1 H2 HC k s x H. cbn [rmatch] in H.
  destruct (H1 _ _ _ H) as (s1 & u1 & K1 & E1 & P1).
  destruct (H2 _ _ _ K1) as (s2 & u2 & K2 & E2 & P2).
  exists s2, (u1 ++ u2). split; [exact K2|]. split.
  - rewrite E1, E2. apply app_assoc.
  - now apply HC.
Qed.

Lemma consumes_alt ic (C : str -> Prop) r1 r2 :
  consumes ic C r1 -> consumes ic C r2 -> consumes ic C (Alt r1 r2).
Proof.
  intros H1 H2 k s x H. cbn [rmatch] in H.
  destruct (rmatch ic r1 k s) eqn:E.
  - injection H as <-. now apply H1.
  - now apply H2.
Qed.

Lemma consumes_char ic c :
  consumes ic (fun u => exists a, u = [a] /\ char_matches ic c a = true) (Char c).
Proof.
  intros k s x H. cbn [rmatch] in H. unfold step1 in H.
  destruct s as [[|a t] pv cp]; cbn [rest cap] in *; [discriminate|].
  destruct (char_matches ic c a) eqn:E; [|discriminate].
  exists (MState t (Some a) cp), [a]. cbn [rest]. split; [exact H|].
  split; [reflexivity|]. now exists a.
Qed.

(** A sequence ends as its last part does. *)
Lemma consumes_seq_last ic (P : char -> bool) r1 r2 :
  consumes ic (fun u => exists w c, u = w ++ [c] /\ P c = true) r2 ->
  consumes ic (fun u => exists w c, u = w ++ [c] /\ P c = true) (Seq r1 r2).
Proof.
  intros H. apply consumes_seq with (C1 := fun _ => True) (2 := H);
    [apply consumes_any|].
  intros u1 u2 _ (w & c & -> & Hc). exists (u1 ++ w), c.
  split; [apply app_assoc | exact Hc].
Qed.

Lemma char_matches_ci p a :
  char_matches true p a = true ->
  a = canonicalize p \/ a = (canonicalize p + 32)%N.
Proof.
  unfold char_matches, char_eqb. intros H. apply N.eqb_eq in H.
  unfold canonicalize at 2 in H.
  destruct (in_range 97%N 122%N a) eqn:E.
  - apply in_range_spec in E. right. lia.
  - now left.
Qed.

Lemma consumes_g : consumes true ends_in_g (Char (ch "g")).
Proof.
  apply consumes_weaken with (2 := consumes_char true (ch "g")).
  intros u (a & -> & H). exists [], a. split; [reflexivity|].
  apply char_matches_ci in H. change (canonicalize (ch "g")) with 71%N in H.
  destruct H as [-> | ->]; reflexivity.
Qed.

Lemma consumes_NA : consumes true is_na (Lit "NA").
Proof.
  change (Lit "NA") with (Seq (Char (ch "N")) (Char (ch "A"))).
  apply consumes_seq with (1 := consumes_char true (ch "N"))
                          (2 := consumes_char true (ch "A")).
  intros u1 u2 (a & -> & Ha) (b & -> & Hb). exists a, b.
  apply char_matches_ci in Ha, Hb.
  change (canonicalize (ch "N")) with 78%N in Ha.
  change (canonicalize (ch "A")) with 65%N in Hb.
  split; [reflexivity|]. split; assumption.
Qed.

Lemma star_loop_cap_in C fuel (m : cont -> cont) greedy :
  (forall k s x, m k s = Some x ->
     exists s', k s' = Some x /\ (cap_in C s -> cap_in C s')) ->
  forall k s x, star_loop fuel m greedy k s = Some x ->
    exists s', k s' = Some x /\ (cap_in C s -> cap_in C s').
Proof.
  intros Hm. induction fuel as [|fuel IH]; intros k s x; cbn [star_loop].
  - intros H. exists s. auto.
  - set (k' := fun s' : mstate =>
        if Nat.ltb (length (rest s')) (length (rest s))
        then star_loop fuel m greedy k s' else None).
    assert (Hk' : forall y, m k' s = Some y ->
              exists s', k s' = Some y /\ (cap_in C s -> cap_in C s')).
    { intros y Hy. apply Hm in Hy. destruct Hy as (s1 & H1 & G1).
      unfold k' in H1. destruct (Nat.ltb _ _); [|discriminate].
      apply IH in H1. destruct H1 as (s2 & H2 & G2).
      exists s2. split; [exact H2 | auto]. }
    destruct greedy.
    + destruct (m k' s) eqn:E; [intros H; injection H as <-; now apply Hk'|].
      intros H. exists s. auto.
    + destruct (k s) eqn:E; [|apply Hk'].
      intros H; injection H as <-. exists s. auto.
Qed.

(** If every group of a pattern consumes a stretch satisfying [C],
    matching keeps the capture within [C]. *)
Lemma rmatch_cap_in ic C r :
  groups_consume ic C r ->
  forall k s x, rmatch ic r k s = Some x ->
    exists s', k s' = Some x /\ (cap_in C s -> cap_in C s').
Proof.
  induction r; intros Hr k s x; cbn [rmatch groups_consume] in *.
  - intros H. exists s. auto.
  - unfold step1. destruct s as [[|a t] pv cp]; cbn [rest cap]; [discriminate|].
    destruct (char_matches ic c a); [|discriminate]. intros H.
    exists (MState t (Some a) cp). auto.
  - unfold step1. destruct s as [[|a t] pv cp]; cbn [rest cap]; [discriminate|].
    destruct (class_matches ic negated items a); [|discriminate]. intros H.
    exists (MState t (Some a) cp). auto.
  - destruct Hr as [H1 H2]. intros H.
    apply (IHr1 H1) in H. destruct H as (s1 & K1 & G1).
    apply (IHr2 H2) in K1. destruct K1 as (s2 & K2 & G2).
    exists s2. auto.
  - destruct Hr as [H1 H2].
    destruct (rmatch ic r1 k s) eqn:E.
    + intros H; injection H as <-. now apply (IHr1 H1).
    + now apply (IHr2 H2).
  - apply star_loop_cap_in. intros k0 s0 x0. now apply IHr.
  - intros H. apply Hr in H. destruct H as (s1 & u & K & E & Cu).
    eexists. split; [exact K|]. intros _. unfold cap_in. cbn [cap].
    rewrite E, firstn_consumed. exact Cu.
  - destruct (rmatch ic r Some s) as [s1|] eqn:E; [|discriminate]. intros H.
    apply (IHr Hr) in E. destruct E as (s' & K & G). injection K as ->.
    eexists. split; [exact H|]. exact G.
  - destruct (xorb _ _); [|discriminate]. intros H. exists s. auto.
  - destruct (rest s); [|discriminate]. intros H. exists s. auto.
Qed.

Lemma scan_cap_in R C i p t m g :
  groups_consume (ignoreCase R) C (source R) ->
  scan R i p t = Some m -> group1 m = Some g -> C g.
Proof.
  intros HR. revert i p.
  assert (Here : forall p0 t0 x,
             rmatch (ignoreCase R) (source R) Some (MState t0 p0 None) = Some x ->
             cap x = Some g -> C g).
  { intros p0 t0 x E Hg. apply (rmatch_cap_in _ _ _ HR) in E.
    destruct E as (s' & K & G). injection K as ->.
    specialize (G I). unfold cap_in in G. now rewrite Hg in G. }
  induction t as [|c t IH]; intros i p; cbn [scan].
  - destruct (rmatch _ _ _ _) eqn:E; [|discriminate].
    intros H; injection H as <-. unfold group1. cbn [final]. now apply Here with (1 := E).
  - destruct (rmatch _ _ _ _) eqn:E.
    + intros H; injection H as <-. unfold group1. cbn [final].
      now apply Here with (1 := E).
    + apply IH.
Qed.

Lemma extractMatch_cap_in text R (C : str -> Prop) v :
  groups_consume (ignoreCase R) C (source R) ->
  extractMatch text R = Ok v -> v = [] \/ exists g, C g /\ v = trim g.
Proof.
  intros HR. unfold extractMatch, exec.
  destruct (scan R 0 None text) as [m|] eqn:E.
  - destruct (group1 m) as [g|] eqn:Hg; [|discriminate].
    intros H; injection H as <-. right. exists g.
    split; [exact (@scan_cap_in R C _ _ _ _ _ HR E Hg) | reflexivity].
  - intros H; injection H as <-. now left.
Qed.

Lemma groups_consume_Lit' ic C w : groups_consume ic C (Lit' w).
Proof.
  induction w as [|c w IH]; [exact I|].
  destruct w; [exact I|]. split; [exact I | exact IH].
Qed.

Lemma drop_space_snoc v a :
  is_space a = false -> exists w, drop_space (v ++ [a]) = w ++ [a].
Proof.
  intros Ha. induction v as [|c v IH]; cbn [app drop_space].
  - rewrite Ha. now exists [].
  - destruct (is_space c); [exact IH|]. now exists (c :: v).
Qed.

Lemma trim_snoc v a :
  is_space a = false -> exists w, trim (v ++ [a]) = w ++ [a].
Proof.
  intros Ha. unfold trim. destruct (@drop_space_snoc v a Ha) as (w & ->).
  exists w. rewrite rev_app_distr. cbn [rev app drop_space]. rewrite Ha.
  change (a :: rev w) with ([a] ++ rev w).
  rewrite rev_app_distr, rev_involutive. reflexivity.
Qed.

Lemma trim_unit_or_na g : unit_or_na g -> unit_or_na (trim g).
Proof.
  intros [(w & c & -> & Hc) | (a & b & -> & Ha & Hb)].
  - left. destruct (@trim_snoc w c) as (w' & E); [|rewrite E].
    + unfold is_g in Hc. apply orb_prop in Hc as [Hc|Hc];
        apply N.eqb_eq in Hc; subst c; reflexivity.
    + now exists w', c.
  - right. exists a, b. split; [|now split].
    destruct Ha as [-> | ->], Hb as [-> | ->]; reflexivity.
Qed.

Lemma unit_patterns_keep_unit :
  groups_consume true unit_or_na (source Pat.saturated_fat)
  /\ groups_consume true unit_or_na (source Pat.trans_fat)
  /\ groups_consume true unit_or_na (source Pat.cholesterol)
  /\ groups_consume true unit_or_na (source Pat.fiber)
  /\ groups_consume true unit_or_na (source Pat.sugars).
Proof.
  assert (G : forall r, consumes true ends_in_g r -> consumes true unit_or_na r).
  { intros r. apply consumes_weaken. intros u H. now left. }
  assert (NA : consumes true unit_or_na (Lit "NA")).
  { apply consumes_weaken with (2 := consumes_NA). intros u H. now right. }
  assert (L : forall s, groups_consume true unit_or_na (Lit s))
    by (intros s; apply groups_consume_Lit').
  unfold Pat.saturated_fat, Pat.trans_fat, Pat.cholesterol, Pat.fiber,
    Pat.sugars, seqs, Space, Plus.
  cbn [source re_i groups_consume].
  repeat match goal with |- _ /\ _ => split end; try exact I; try apply L.
  - apply consumes_alt; [|exact NA]. apply G, consumes_seq_last, consumes_g.
  - apply consumes_alt; [|exact NA]. apply G, consumes_seq_last, consumes_g.
  - apply consumes_alt; [|exact NA]. apply G, consumes_seq_last.
    change (Lit "mg") with (Seq (Char (ch "m")) (Char (ch "g"))).
    apply (@consumes_seq_last true is_g), consumes_g.
  - apply G, consumes_alt.
    + do 3 apply (@consumes_seq_last true is_g). apply consumes_g.
    + apply (@consumes_seq_last true is_g), consumes_g.
  - apply G, (@consumes_seq_last true is_g), consumes_g.
Qed.

(** X17.  Five fields keep their unit.  In the nutrition object of any
    overlay text, a non-empty [saturated_fat_g], [trans_fat_g],
    [cholesterol_mg], [fiber_g] or [sugars_g] ends in the letter g (of
    either case), the unit being part of the capture, or is the two
    letters NA; so, unlike the other numeric fields, these are not
    numbers. *)
Theorem unit_fields_keep_unit text nutrition :
  extractNutrition text = Ok nutrition ->
  forall h v,
    In h [lit "saturated_fat_g"; lit "trans_fat_g"; lit "cholesterol_mg";
          lit "fiber_g"; lit "sugars_g"] ->
    get nutrition h = Some (JStr v) ->
    v = [] \/ unit_or_na v.
Proof.
  destruct unit_patterns_keep_unit as (Gsf & Gtf & Gch & Gfi & Gsu).
  assert (K : forall R v,
             groups_consume (ignoreCase R) unit_or_na (source R) ->
             extractMatch text R = Ok v -> v = [] \/ unit_or_na v).
  { intros R v HR E.
    destruct (@extractMatch_cap_in text R unit_or_na v HR E) as [->|(g & Cg & ->)];
      [now left | right; now apply trim_unit_or_na]. }
  unfold extractNutrition.
  destruct (extractCalories text) as [cal|e]; [|discriminate].
  destruct (extractServing text) as [sv|e]; [|discriminate].
  destruct (extractMatch text Pat.total_fat) as [tf|e]; [|discriminate].
  destruct (extractMatch text Pat.saturated_fat) as [sf|e] eqn:Esf; [|discriminate].
  destruct (extractMatch text Pat.trans_fat) as [trf|e] eqn:Etr; [|discriminate].
  destruct (extractMatch text Pat.cholesterol) as [cho|e] eqn:Ech; [|discriminate].
  destruct (extractMatch text Pat.sodium) as [sod|e]; [|discriminate].
  destruct (extractMatch text Pat.total_carbs) as [tc|e]; [|discriminate].
  destruct (extractMatch text Pat.fiber) as [fib|e] eqn:Efi; [|discriminate].
  destruct (extractMatch text Pat.sugars) as [sug|e] eqn:Esu; [|discriminate].
  destruct (extractMatch text Pat.protein) as [pro|e]; [|discriminate].
  destruct (extractIngredients text) as [ing|e]; [|discriminate].
  cbn [rbind]. intros H; injection H as <-.
  intros h v Hh Hv. cbn [In] in Hh.
  destruct Hh as [<-|[<-|[<-|[<-|[<-|[]]]]]]; vm_compute in Hv;
    injection Hv as <-.
  - exact (K Pat.saturated_fat _ Gsf Esf).
  - exact (K Pat.trans_fat _ Gtf Etr).
  - exact (K Pat.cholesterol _ Gch Ech).
  - exact (K Pat.fiber _ Gfi Efi).
  - exact (K Pat.sugars _ Gsu Esu).
Qed.

Lemma unit_fields_keep_unit_witness :
  (lit "2.5g" = [] \/ unit_or_na (lit "2.5g"))
  /\ (lit "NA" = [] \/ unit_or_na (lit "NA"))
  /\ (lit "< 1g" = [] \/ unit_or_na (lit "< 1g")).
Proof.
  split; [|split].
  - eapply (@unit_fields_keep_unit MoreExamples.units_text _ _
              (lit "saturated_fat_g") (lit "2.5g")).
    Unshelve. all: vm_compute; try reflexivity; tauto.
  - eapply (@unit_fields_keep_unit MoreExamples.units_text _ _
              (lit "trans_fat_g") (lit "NA")).
    Unshelve. all: vm_compute; try reflexivity; tauto.
  - eapply (@unit_fields_keep_unit MoreExamples.units_text _ _
              (lit "fiber_g") (lit "< 1g")).
    Unshelve. all: vm_compute; try reflexivity; tauto.
Defined.
